(** * The gateway client of stark-frontend (src/lib/gateway-client.ts)

    A shallow embedding of the [GatewayClient] class: the fields of the
    object as a record, its methods and socket handlers as functions on a
    world made of the object and of the part of the JavaScript runtime the
    class talks to (sockets, timers, promises, localStorage), and the
    things it does to the outside (callbacks invoked, promises settled,
    frames written, console lines) as a trace of effects. *)

From Stdlib Require Import ZArith Floats.PrimFloat.
From stdpp Require Import gmap strings list sorting.

Set Warnings "-register-all".

Local Open Scope string_scope.
Local Open Scope list_scope.
Local Open Scope Z_scope.

(** ** JavaScript values *)

(** What [JSON.parse] returns. Objects keep their properties as an
    association list; a property read takes the first binding. *)
Inductive json :=
| JNull
| JBool (b : bool)
| JNum (n : float)
| JStr (s : string)
| JArr (xs : list json)
| JObj (props : list (string * json)).

(** The values handed to callbacks and promises: [undefined], a parsed
    value, an [Error] built by [new Error(message)], an object of the host
    (a DOM event, a DOMException), or an object literal of the client. *)
Inductive value :=
| VUndefined
| VJson (j : json)
| VError (message : json)
| VHost (tag : string)
| VRecord (fields : list (string * value)).

Fixpoint assoc {A} (k : string) (ps : list (string * A)) : option A :=
  match ps with
  | [] => None
  | (k', v) :: ps' => if String.eqb k k' then Some v else assoc k ps'
  end.

(** [j.k] for a parsed value [j] other than [null] ([None] is
    [undefined]); reading a property of [null] throws and is handled where
    it can happen. None of the names the client reads ([type], [event],
    [data], [id], [error], [result], [message], [authenticated]) exists on
    a boolean, a number, a string or an array. *)
Definition field (j : json) (k : string) : option json :=
  match j with
  | JObj ps => assoc k ps
  | _ => None
  end.

(** [o.k] where [o] is itself a property that was found truthy (so it is
    neither [undefined] nor [null]). *)
Definition field_of (o : option json) (k : string) : option json :=
  match o with
  | Some j => field j k
  | None => None
  end.

Definition truthy_json (j : json) : bool :=
  match j with
  | JNull => false
  | JBool b => b
  | JNum n => negb (PrimFloat.eqb n 0%float || PrimFloat.is_nan n)
  | JStr s => negb (String.eqb s "")
  | JArr _ | JObj _ => true
  end.

(** Truthiness of a property that may be absent. *)
Definition truthy (o : option json) : bool :=
  match o with
  | None => false
  | Some j => truthy_json j
  end.

(** [o?.k] *)
Definition optional_field (o : option json) (k : string) : option json :=
  match o with
  | Some JNull | None => None
  | Some j => field j k
  end.

Definition of_opt (o : option json) : value :=
  match o with
  | None => VUndefined
  | Some j => VJson j
  end.

(** [o || dflt] *)
Definition js_or (o : option json) (dflt : json) : json :=
  match o with
  | Some j => if truthy_json j then j else dflt
  | None => dflt
  end.

(** [o === s] for a string literal [s] *)
Definition is_str (o : option json) (s : string) : bool :=
  match o with
  | Some (JStr s') => String.eqb s' s
  | _ => false
  end.

(** [String(j)], as a template literal and [new Error(j)] compute it,
    for a parsed value. An object that has a property named [toString] of
    its own has no primitive value: no parsed value is callable, and the
    [valueOf] it has or inherits does not return a primitive either, so
    the conversion throws a TypeError. So does the conversion of an array
    with such an element: [Array.prototype.toString] joins the conversions
    of the elements other than [null]. Every other parsed value converts
    (an object without such a property to [[object Object]]). *)
Fixpoint converts (j : json) : bool :=
  match j with
  | JObj props => match assoc "toString" props with Some _ => false | None => true end
  | JArr xs => forallb converts xs
  | _ => true
  end.

(** ** Identities of runtime objects *)

Definition callback := nat.
Definition promise := nat.
Definition timer_handle := nat.
Definition socket_ref := nat.

Inductive readyState := CONNECTING | OPEN | CLOSING | CLOSED.

Definition readyState_eqb (a b : readyState) : bool :=
  match a, b with
  | CONNECTING, CONNECTING | OPEN, OPEN | CLOSING, CLOSING | CLOSED, CLOSED => true
  | _, _ => false
  end.

(** What a timer runs when it fires: the three closures given to
    [setTimeout] in the class. *)
Inductive timer_task :=
| RpcTimeout (id : string) (p : promise)
| Reconnect
| AuthTimeout (hs : nat).

Inductive level := LLog | LWarn | LError.

(** ** Effects *)

Inductive effect :=
| Invoke (cb : callback) (arg : value)
| Resolve (p : promise) (v : value)
| Reject (p : promise) (reason : value)
| WsSend (s : socket_ref) (payload : value)
| WsClose (s : socket_ref)
| SetTimeout (h : timer_handle) (delay : Z) (task : timer_task)
| ClearTimeout (h : timer_handle)
| Console (l : level) (text : string).

Abbreviation trace := (list effect).

(** ** The object *)

Record PendingRequest := {
  resolve : promise;
  reject : promise;
  timeout : timer_handle
}.

Definition EVENT_RING_BUFFER_SIZE : nat := 500.

Record GatewayClient := {
  ws : option socket_ref;
  pendingRequests : gmap string PendingRequest;
  eventListeners : gmap string (list callback);
  wildcardListeners : list callback;
  reconnectAttempts : Z;
  maxReconnectAttempts : Z;
  reconnectDelay : Z;
  intentionalDisconnect : bool;
  connectionPromise : option promise;
  connectionResolve : option promise;
  authenticated : bool;
  eventBuffer : list (json * value)
}.


(** The constructor: [new GatewayClient(url)]. *)
Definition new_GatewayClient : GatewayClient := {|
  ws := None;
  pendingRequests := ∅;
  eventListeners := ∅;
  wildcardListeners := [];
  reconnectAttempts := 0;
  maxReconnectAttempts := 5;
  reconnectDelay := 1000;
  intentionalDisconnect := false;
  connectionPromise := None;
  connectionResolve := None;
  authenticated := false;
  eventBuffer := []
|}.

Definition set_ws v (c : GatewayClient) : GatewayClient :=
  {| ws := v; pendingRequests := pendingRequests c; eventListeners := eventListeners c;
     wildcardListeners := wildcardListeners c; reconnectAttempts := reconnectAttempts c;
     maxReconnectAttempts := maxReconnectAttempts c; reconnectDelay := reconnectDelay c;
     intentionalDisconnect := intentionalDisconnect c; connectionPromise := connectionPromise c;
     connectionResolve := connectionResolve c; authenticated := authenticated c;
     eventBuffer := eventBuffer c |}.

Definition set_pendingRequests v (c : GatewayClient) : GatewayClient :=
  {| ws := ws c; pendingRequests := v; eventListeners := eventListeners c;
     wildcardListeners := wildcardListeners c; reconnectAttempts := reconnectAttempts c;
     maxReconnectAttempts := maxReconnectAttempts c; reconnectDelay := reconnectDelay c;
     intentionalDisconnect := intentionalDisconnect c; connectionPromise := connectionPromise c;
     connectionResolve := connectionResolve c; authenticated := authenticated c;
     eventBuffer := eventBuffer c |}.

Definition set_eventListeners v (c : GatewayClient) : GatewayClient :=
  {| ws := ws c; pendingRequests := pendingRequests c; eventListeners := v;
     wildcardListeners := wildcardListeners c; reconnectAttempts := reconnectAttempts c;
     maxReconnectAttempts := maxReconnectAttempts c; reconnectDelay := reconnectDelay c;
     intentionalDisconnect := intentionalDisconnect c; connectionPromise := connectionPromise c;
     connectionResolve := connectionResolve c; authenticated := authenticated c;
     eventBuffer := eventBuffer c |}.

Definition set_wildcardListeners v (c : GatewayClient) : GatewayClient :=
  {| ws := ws c; pendingRequests := pendingRequests c; eventListeners := eventListeners c;
     wildcardListeners := v; reconnectAttempts := reconnectAttempts c;
     maxReconnectAttempts := maxReconnectAttempts c; reconnectDelay := reconnectDelay c;
     intentionalDisconnect := intentionalDisconnect c; connectionPromise := connectionPromise c;
     connectionResolve := connectionResolve c; authenticated := authenticated c;
     eventBuffer := eventBuffer c |}.

Definition set_reconnectAttempts v (c : GatewayClient) : GatewayClient :=
  {| ws := ws c; pendingRequests := pendingRequests c; eventListeners := eventListeners c;
     wildcardListeners := wildcardListeners c; reconnectAttempts := v;
     maxReconnectAttempts := maxReconnectAttempts c; reconnectDelay := reconnectDelay c;
     intentionalDisconnect := intentionalDisconnect c; connectionPromise := connectionPromise c;
     connectionResolve := connectionResolve c; authenticated := authenticated c;
     eventBuffer := eventBuffer c |}.

Definition set_reconnectDelay v (c : GatewayClient) : GatewayClient :=
  {| ws := ws c; pendingRequests := pendingRequests c; eventListeners := eventListeners c;
     wildcardListeners := wildcardListeners c; reconnectAttempts := reconnectAttempts c;
     maxReconnectAttempts := maxReconnectAttempts c; reconnectDelay := v;
     intentionalDisconnect := intentionalDisconnect c; connectionPromise := connectionPromise c;
     connectionResolve := connectionResolve c; authenticated := authenticated c;
     eventBuffer := eventBuffer c |}.

Definition set_intentionalDisconnect v (c : GatewayClient) : GatewayClient :=
  {| ws := ws c; pendingRequests := pendingRequests c; eventListeners := eventListeners c;
     wildcardListeners := wildcardListeners c; reconnectAttempts := reconnectAttempts c;
     maxReconnectAttempts := maxReconnectAttempts c; reconnectDelay := reconnectDelay c;
     intentionalDisconnect := v; connectionPromise := connectionPromise c;
     connectionResolve := connectionResolve c; authenticated := authenticated c;
     eventBuffer := eventBuffer c |}.

Definition set_connectionPromise v (c : GatewayClient) : GatewayClient :=
  {| ws := ws c; pendingRequests := pendingRequests c; eventListeners := eventListeners c;
     wildcardListeners := wildcardListeners c; reconnectAttempts := reconnectAttempts c;
     maxReconnectAttempts := maxReconnectAttempts c; reconnectDelay := reconnectDelay c;
     intentionalDisconnect := intentionalDisconnect c; connectionPromise := v;
     connectionResolve := connectionResolve c; authenticated := authenticated c;
     eventBuffer := eventBuffer c |}.

Definition set_connectionResolve v (c : GatewayClient) : GatewayClient :=
  {| ws := ws c; pendingRequests := pendingRequests c; eventListeners := eventListeners c;
     wildcardListeners := wildcardListeners c; reconnectAttempts := reconnectAttempts c;
     maxReconnectAttempts := maxReconnectAttempts c; reconnectDelay := reconnectDelay c;
     intentionalDisconnect := intentionalDisconnect c; connectionPromise := connectionPromise c;
     connectionResolve := v; authenticated := authenticated c;
     eventBuffer := eventBuffer c |}.

Definition set_authenticated v (c : GatewayClient) : GatewayClient :=
  {| ws := ws c; pendingRequests := pendingRequests c; eventListeners := eventListeners c;
     wildcardListeners := wildcardListeners c; reconnectAttempts := reconnectAttempts c;
     maxReconnectAttempts := maxReconnectAttempts c; reconnectDelay := reconnectDelay c;
     intentionalDisconnect := intentionalDisconnect c; connectionPromise := connectionPromise c;
     connectionResolve := connectionResolve c; authenticated := v;
     eventBuffer := eventBuffer c |}.

Definition set_eventBuffer v (c : GatewayClient) : GatewayClient :=
  {| ws := ws c; pendingRequests := pendingRequests c; eventListeners := eventListeners c;
     wildcardListeners := wildcardListeners c; reconnectAttempts := reconnectAttempts c;
     maxReconnectAttempts := maxReconnectAttempts c; reconnectDelay := reconnectDelay c;
     intentionalDisconnect := intentionalDisconnect c; connectionPromise := connectionPromise c;
     connectionResolve := connectionResolve c; authenticated := authenticated c;
     eventBuffer := v |}.

(** ** The runtime around the object *)

(** A [WebSocket] the client created: its state, and the [reject] of the
    promise of the [connect()] call that created it, which its handlers
    close over. *)
Record WebSocket := {
  ws_readyState : readyState;
  ws_reject : promise
}.

(** The promise built by one run of [authenticate()]: the request id, the
    timer handle, the socket [handleAuthResponse] is registered on (if
    any), whether the promise is settled already, and the [reject] the
    awaiting [onopen] handler closes over. *)
Record Handshake := {
  hs_id : string;
  hs_timeout : timer_handle;
  hs_listener : option socket_ref;
  hs_settled : bool;
  hs_reject : promise
}.

Record Runtime := {
  sockets : gmap socket_ref WebSocket;
  timers : gmap timer_handle (Z * timer_task);
  handshakes : list Handshake;
  next_socket : nat;
  next_timer : nat;
  next_promise : nat;
  now : Z;
  stark_token : option string;
  url_ok : bool
}.

Definition set_sockets v (r : Runtime) : Runtime :=
  {| sockets := v; timers := timers r; handshakes := handshakes r;
     next_socket := next_socket r; next_timer := next_timer r; next_promise := next_promise r;
     now := now r; stark_token := stark_token r; url_ok := url_ok r |}.

Definition set_timers v (r : Runtime) : Runtime :=
  {| sockets := sockets r; timers := v; handshakes := handshakes r;
     next_socket := next_socket r; next_timer := next_timer r; next_promise := next_promise r;
     now := now r; stark_token := stark_token r; url_ok := url_ok r |}.

Definition set_handshakes v (r : Runtime) : Runtime :=
  {| sockets := sockets r; timers := timers r; handshakes := v;
     next_socket := next_socket r; next_timer := next_timer r; next_promise := next_promise r;
     now := now r; stark_token := stark_token r; url_ok := url_ok r |}.

Definition set_next_socket v (r : Runtime) : Runtime :=
  {| sockets := sockets r; timers := timers r; handshakes := handshakes r;
     next_socket := v; next_timer := next_timer r; next_promise := next_promise r;
     now := now r; stark_token := stark_token r; url_ok := url_ok r |}.

Definition set_next_timer v (r : Runtime) : Runtime :=
  {| sockets := sockets r; timers := timers r; handshakes := handshakes r;
     next_socket := next_socket r; next_timer := v; next_promise := next_promise r;
     now := now r; stark_token := stark_token r; url_ok := url_ok r |}.

Definition set_next_promise v (r : Runtime) : Runtime :=
  {| sockets := sockets r; timers := timers r; handshakes := handshakes r;
     next_socket := next_socket r; next_timer := next_timer r; next_promise := v;
     now := now r; stark_token := stark_token r; url_ok := url_ok r |}.

Definition set_now v (r : Runtime) : Runtime :=
  {| sockets := sockets r; timers := timers r; handshakes := handshakes r;
     next_socket := next_socket r; next_timer := next_timer r; next_promise := next_promise r;
     now := v; stark_token := stark_token r; url_ok := url_ok r |}.

Record World := {
  this : GatewayClient;
  rt : Runtime
}.

(** ** Sequencing

    A method or handler transforms the world, returns a value and leaves a
    trace. *)
Definition M (A : Type) : Type := World -> A * World * trace.

Definition ret {A} (a : A) : M A := fun w => (a, w, []).

Definition bind {A B} (m : M A) (k : A -> M B) : M B :=
  fun w =>
    match m w with
    | (a, w1, t1) =>
        match k a w1 with
        | (b, w2, t2) => (b, w2, t1 ++ t2)
        end
    end.

#[global] Instance M_ret : MRet M := @ret.
#[global] Instance M_bind : MBind M := fun A B k m => bind m k.

Definition get : M World := fun w => (w, w, []).
Definition tell (t : trace) : M unit := fun w => (tt, w, t).
Definition upd_this (f : GatewayClient -> GatewayClient) : M unit :=
  fun w => (tt, {| this := f (this w); rt := rt w |}, []).
Definition upd_rt (f : Runtime -> Runtime) : M unit :=
  fun w => (tt, {| this := this w; rt := f (rt w) |}, []).
Definition when (b : bool) (m : M unit) : M unit := if b then m else ret tt.

(** The world and the trace a computation ends with. *)
Definition world_of {A} (r : A * World * trace) : World := r.1.2.
Definition trace_of {A} (r : A * World * trace) : trace := r.2.
Definition value_of {A} (r : A * World * trace) : A := r.1.1.

(** A JavaScript [Set] iterates in insertion order and holds each element
    once. *)
Definition set_add (cb : callback) (l : list callback) : list callback :=
  if bool_decide (cb ∈ l) then l else l ++ [cb].
Definition set_delete (cb : callback) (l : list callback) : list callback :=
  filter (fun x => x <> cb) l.

(** ** Event dispatcher *)

(** [event !== 'connected' && event !== 'disconnected' &&
     event !== 'auth_failed' && event !== 'error'] *)
Definition buffered (event : json) : bool :=
  negb (is_str (Some event) "connected") && negb (is_str (Some event) "disconnected")
  && negb (is_str (Some event) "auth_failed") && negb (is_str (Some event) "error").

(** [buf.push(e); if (buf.length > EVENT_RING_BUFFER_SIZE) buf.shift()] *)
Definition push_event (e : json * value) (buf : list (json * value)) : list (json * value) :=
  let buf' := buf ++ [e] in
  if Nat.ltb EVENT_RING_BUFFER_SIZE (length buf') then tail buf' else buf'.

(** The object literal [{ event, data }] given to wildcard listeners. *)
Definition entry (event : json) (data : value) : value :=
  VRecord [("event", VJson event); ("data", data)].

(** [this.eventListeners.get(event)]: the keys are the strings given to
    [on], so a topic that is not a string finds nothing. *)
Definition listeners_for (c : GatewayClient) (event : json) : option (list callback) :=
  match event with
  | JStr t => eventListeners c !! t
  | _ => None
  end.

(** Calling a callback is recorded as [Invoke]; what the callback does is
    its own business, and an exception it throws is caught and logged by
    the [try]/[catch] around each call, so the loops always run to their
    end. Callbacks are taken not to call back into the client.

    The result is the exception [emitEvent] throws, if any. The console
    lines put the topic in a template literal: for a topic that does not
    convert to a string (which is not [agent.thinking], so the first line
    is reached) that throws a TypeError, after the event was buffered and
    before any listener is called. A string converts, so the calls with
    the topics [connected], [disconnected], [auth_failed] and [error] of
    the handlers never throw. *)
Definition emitEvent (event : json) (data : value) : M (option value) :=
  when (buffered event)
    (upd_this (fun c => set_eventBuffer (push_event (event, data) (eventBuffer c)) c)) ;;
  if converts event then
    when (negb (is_str (Some event) "agent.thinking"))
      (tell [Console LLog "[Gateway] Event received: ${event}"]) ;;
    w ← get;
    match listeners_for (this w) event with
    | Some listeners =>
        tell [Console LLog "[Gateway] Found ${listeners.size} listener(s) for event: ${event}"] ;;
        tell (map (fun cb => Invoke cb data) listeners)
    | None =>
        tell [Console LLog "[Gateway] No listeners for event: ${event}"]
    end ;;
    tell (map (fun cb => Invoke cb (entry event data)) (wildcardListeners (this w))) ;;
    ret None
  else ret (Some (VHost "TypeError")).

Definition on (event : string) (cb : callback) : M unit :=
  if String.eqb event "*" then
    upd_this (fun c => set_wildcardListeners (set_add cb (wildcardListeners c)) c) ;;
    w ← get;
    when (Nat.ltb 0 (length (eventBuffer (this w))))
      (tell (map (fun e => Invoke cb (entry e.1 e.2)) (eventBuffer (this w))))
  else
    upd_this (fun c =>
      match eventListeners c !! event with
      | Some _ => c
      | None => set_eventListeners (<[event := []]> (eventListeners c)) c
      end) ;;
    upd_this (fun c =>
      match eventListeners c !! event with
      | Some l => set_eventListeners (<[event := set_add cb l]> (eventListeners c)) c
      | None => c
      end).

Definition off (event : string) (cb : callback) : M unit :=
  if String.eqb event "*" then
    upd_this (fun c => set_wildcardListeners (set_delete cb (wildcardListeners c)) c)
  else
    upd_this (fun c =>
      match eventListeners c !! event with
      | Some l => set_eventListeners (<[event := set_delete cb l]> (eventListeners c)) c
      | None => c
      end).

(** [emitEvent] for each pair of a list, in order; what one of them
    throws is caught where it was called and does not keep the next from
    being emitted. *)
Fixpoint emit_all (evs : list (json * value)) : M unit :=
  match evs with
  | [] => ret tt
  | e :: evs' => emitEvent e.1 e.2 ;; emit_all evs'
  end.

(** [for (const x of l) f(x)] *)
Fixpoint for_each {A} (l : list A) (f : A -> M unit) : M unit :=
  match l with
  | [] => ret tt
  | x :: l' => f x ;; for_each l' f
  end.

(** ** Runtime services *)

(** [new Promise(...)]: the next promise identity. *)
Definition new_promise : M promise :=
  fun w => (next_promise (rt w),
            {| this := this w; rt := set_next_promise (S (next_promise (rt w))) (rt w) |}, []).

(** [setTimeout(task, delay)]: arms a timer due [delay] ms from now and
    returns its handle. *)
Definition setTimeout (task : timer_task) (delay : Z) : M timer_handle :=
  fun w =>
    let h := next_timer (rt w) in
    (h,
     {| this := this w;
        rt := set_next_timer (S h)
                (set_timers (<[h := (now (rt w) + delay, task)]> (timers (rt w))) (rt w)) |},
     [SetTimeout h delay task]).

Definition clearTimeout (h : timer_handle) : M unit :=
  upd_rt (fun r => set_timers (delete h (timers r)) r) ;;
  tell [ClearTimeout h].

Definition socket_state (w : World) (s : socket_ref) : option readyState :=
  ws_readyState <$> sockets (rt w) !! s.

(** [this.ws?.readyState === WebSocket.OPEN] *)
Definition ws_is_open (w : World) : bool :=
  match ws (this w) with
  | Some s =>
      match socket_state w s with
      | Some st => readyState_eqb st OPEN
      | None => false
      end
  | None => false
  end.

Definition set_socket_state (s : socket_ref) (st : readyState) : M unit :=
  upd_rt (fun r =>
    match sockets r !! s with
    | Some sock =>
        set_sockets (<[s := {| ws_readyState := st; ws_reject := ws_reject sock |}]> (sockets r)) r
    | None => r
    end).

(** [new WebSocket(this.url)] with the handlers of [connect()], which
    close over [reject]. *)
Definition new_WebSocket (reject_p : promise) : M socket_ref :=
  fun w =>
    let s := next_socket (rt w) in
    (s,
     {| this := this w;
        rt := set_next_socket (S s)
                (set_sockets (<[s := {| ws_readyState := CONNECTING; ws_reject := reject_p |}]>
                                (sockets (rt w))) (rt w)) |},
     []).

(** [s.send(JSON.stringify(payload))]: the frame goes out on an open
    socket, is dropped on a closing or closed one, and the call throws on a
    connecting one. The result is the exception, if any. *)
Definition ws_send (s : socket_ref) (payload : value) : M (option value) :=
  w ← get;
  match socket_state w s with
  | Some OPEN => tell [WsSend s payload] ;; ret None
  | Some CONNECTING => ret (Some (VHost "InvalidStateError"))
  | _ => ret None
  end.

(** [s.close()]: starts the closing handshake unless the socket is
    closing or closed already. *)
Definition ws_close (s : socket_ref) : M unit :=
  w ← get;
  tell [WsClose s] ;;
  match socket_state w s with
  | Some CONNECTING | Some OPEN => set_socket_state s CLOSING
  | _ => ret tt
  end.

(** ** RPC correlator *)

(** [call(method, params)], with [id] the value [crypto.randomUUID()]
    returns. The result is the promise of the call; the [throw] of the
    [async] function is the rejection of that promise. [params] is taken
    to be a value [JSON.stringify] accepts. *)
Definition call (id method : string) (params : value) : M promise :=
  p ← new_promise;
  w ← get;
  if negb (ws_is_open w) then
    tell [Reject p (VError (JStr "WebSocket not connected"))] ;;
    ret p
  else
    h ← setTimeout (RpcTimeout id p) 30000;
    upd_this (fun c =>
      set_pendingRequests
        (<[id := {| resolve := p; reject := p; timeout := h |}]> (pendingRequests c)) c) ;;
    match ws (this w) with
    | Some s =>
        r ← ws_send s (VRecord [("id", VJson (JStr id)); ("method", VJson (JStr method));
                                ("params", params)]);
        match r with
        | Some exn => tell [Reject p exn]
        | None => ret tt
        end
    | None => ret tt
    end ;;
    ret p.

(** The closure given to [setTimeout] by [call]. *)
Definition rpc_timeout (id : string) (p : promise) : M unit :=
  upd_this (fun c => set_pendingRequests (delete id (pendingRequests c)) c) ;;
  tell [Reject p (VError (JStr "RPC call timed out"))].

(** [this.pendingRequests.get(message.id)]: the keys are strings. *)
Definition pending_for (c : GatewayClient) (id : option json) : option (string * PendingRequest) :=
  match id with
  | Some (JStr k) => (fun pr => (k, pr)) <$> pendingRequests c !! k
  | _ => None
  end.

(** [isConnected()] *)
Definition isConnected (w : World) : bool :=
  ws_is_open w && authenticated (this w).

(** [Map.forEach] visits the pending requests in the order their ids
    were put in the table. Timer handles are handed out in order and each
    call arms its timer as it registers, so that is the order of the
    handles, as long as no id is drawn again while it is pending (the
    [Map] would then keep the place of the id and take the new handle). *)
Definition called_before (x y : string * PendingRequest) : Prop :=
  (timeout x.2 <= timeout y.2)%nat.

#[global] Instance called_before_dec x y : Decision (called_before x y).
Proof. unfold called_before. apply _. Defined.

Definition pending_in_order (c : GatewayClient) : list (string * PendingRequest) :=
  merge_sort called_before (map_to_list (pendingRequests c)).

(** [disconnect()] *)
Definition disconnect : M unit :=
  upd_this (set_intentionalDisconnect true) ;;
  upd_this (set_authenticated false) ;;
  w ← get;
  match ws (this w) with
  | Some s => ws_close s ;; upd_this (set_ws None)
  | None => ret tt
  end ;;
  for_each (pending_in_order (this w)) (fun kv =>
    clearTimeout (timeout kv.2) ;;
    tell [Reject (reject kv.2) (VError (JStr "Connection closed"))]) ;;
  upd_this (set_pendingRequests ∅) ;;
  upd_this (set_connectionPromise None) ;;
  upd_this (set_eventBuffer []).

(** ** Connection manager *)

(** [connect()]: the result is the promise it returns. When the
    [WebSocket] constructor throws (a malformed URL), the [catch] clears
    [connectionPromise] and rejects, after which the assignment of the new
    promise to [connectionPromise] still takes place. *)
Definition connect : M promise :=
  w ← get;
  if ws_is_open w && authenticated (this w) then
    p ← new_promise;
    tell [Resolve p VUndefined] ;;
    ret p
  else
    match connectionPromise (this w) with
    | Some p => ret p
    | None =>
        p ← new_promise;
        upd_this (set_connectionResolve (Some p)) ;;
        (if url_ok (rt w) then
           s ← new_WebSocket p;
           upd_this (set_ws (Some s))
         else
           upd_this (set_connectionPromise None) ;;
           tell [Reject p (VHost "SyntaxError")]) ;;
        upd_this (set_connectionPromise (Some p)) ;;
        ret p
    end.

(** The rest of [onopen] after [await this.authenticate()] returns. *)
Definition auth_succeeded : M unit :=
  upd_this (set_authenticated true) ;;
  tell [Console LLog "[Gateway] Authenticated successfully"] ;;
  emitEvent (JStr "connected") (VRecord []) ;;
  w ← get;
  match connectionResolve (this w) with
  | Some p => tell [Resolve p VUndefined] ;; upd_this (set_connectionResolve None)
  | None => ret tt
  end.

(** The [catch (authError)] branch of [onopen]. *)
Definition auth_failed (reject_p : promise) (authError : value) : M unit :=
  tell [Console LError "[Gateway] Authentication failed:"] ;;
  emitEvent (JStr "auth_failed") (VRecord [("error", authError)]) ;;
  w ← get;
  match ws (this w) with
  | Some s => ws_close s
  | None => ret tt
  end ;;
  tell [Reject reject_p authError].

(** Settling the promise of handshake [i]: [None] resolves it, [Some e]
    rejects it with [e]. A promise settles once; the awaiting [onopen]
    continues right after. *)
Definition settle_handshake (i : nat) (outcome : option value) : M unit :=
  w ← get;
  match handshakes (rt w) !! i with
  | Some hs =>
      if hs_settled hs then ret tt
      else
        upd_rt (fun r =>
          set_handshakes
            (<[i := {| hs_id := hs_id hs; hs_timeout := hs_timeout hs;
                       hs_listener := hs_listener hs; hs_settled := true;
                       hs_reject := hs_reject hs |}]> (handshakes r)) r) ;;
        match outcome with
        | None => auth_succeeded
        | Some e => auth_failed (hs_reject hs) e
        end
  | None => ret tt
  end.

(** [authenticate()] as awaited by [onopen]; [id] is the value
    [crypto.randomUUID()] returns and [reject_p] the [reject] of the
    handler. An empty token is falsy, like a missing one. *)
Definition authenticate (id : string) (reject_p : promise) : M unit :=
  w ← get;
  match stark_token (rt w) with
  | Some (String a token') =>
      tell [Console LLog "[Gateway] Sending auth request with token length:"] ;;
      let i := length (handshakes (rt w)) in
      h ← setTimeout (AuthTimeout i) 10000;
      upd_rt (fun r =>
        set_handshakes
          (handshakes r ++ [{| hs_id := id; hs_timeout := h; hs_listener := ws (this w);
                               hs_settled := false; hs_reject := reject_p |}]) r) ;;
      match ws (this w) with
      | Some s =>
          r ← ws_send s
                (VRecord [("jsonrpc", VJson (JStr "2.0")); ("id", VJson (JStr id));
                          ("method", VJson (JStr "auth"));
                          ("params", VRecord [("token", VJson (JStr (String a token')))])]);
          match r with
          | Some exn => settle_handshake i (Some exn)
          | None => ret tt
          end
      | None => ret tt
      end
  | _ =>
      tell [Console LWarn "[Gateway] No auth token in localStorage - user may not be logged in"] ;;
      auth_failed reject_p (VError (JStr "No auth token found. Please log in first."))
  end.

(** [ws.onopen] *)
Definition onopen (id : string) (reject_p : promise) : M unit :=
  tell [Console LLog "[Gateway] WebSocket connected to"] ;;
  upd_this (set_reconnectAttempts 0) ;;
  upd_this (set_reconnectDelay 1000) ;;
  authenticate id reject_p.

(** [ws.onclose] *)
Definition onclose : M unit :=
  tell [Console LLog "[Gateway] Connection closed"] ;;
  upd_this (set_authenticated false) ;;
  emitEvent (JStr "disconnected") (VRecord []) ;;
  upd_this (set_connectionPromise None) ;;
  w ← get;
  when (negb (intentionalDisconnect (this w))
        && Z.ltb (reconnectAttempts (this w)) (maxReconnectAttempts (this w)))
    (upd_this (fun c => set_reconnectAttempts (reconnectAttempts c + 1) c) ;;
     tell [Console LLog "[Gateway] Reconnecting in ${this.reconnectDelay}ms (attempt ${this.reconnectAttempts})"] ;;
     setTimeout Reconnect (reconnectDelay (this w)) ;;
     upd_this (fun c => set_reconnectDelay (Z.min (reconnectDelay c * 2) 30000) c)).

(** [ws.onerror] *)
Definition onerror (reject_p : promise) (error : value) : M unit :=
  tell [Console LError "[Gateway] WebSocket error:"] ;;
  emitEvent (JStr "error") (VRecord [("error", error)]) ;;
  tell [Reject reject_p error].

(** The closure given to [setTimeout] by [authenticate]. *)
Definition auth_timeout (i : nat) : M unit :=
  settle_handshake i (Some (VError (JStr "Authentication timed out"))).

Definition run_task (task : timer_task) : M unit :=
  match task with
  | RpcTimeout id p => rpc_timeout id p
  | Reconnect => connect ;; ret tt
  | AuthTimeout i => auth_timeout i
  end.

(** ** Timers and the passing of time *)

(** A timer fires once: it is disarmed, then its closure runs. *)
Definition fire (h : timer_handle) : M unit :=
  w ← get;
  match timers (rt w) !! h with
  | Some (due, task) =>
      upd_rt (fun r => set_timers (delete h (timers r)) (set_now (Z.max (now r) due) r)) ;;
      run_task task
  | None => ret tt
  end.

(** Timers fire by due time, and in the order they were armed when due
    together. *)
Definition fires_before (x y : timer_handle * (Z * timer_task)) : Prop :=
  x.2.1 < y.2.1 \/ (x.2.1 = y.2.1 /\ (x.1 <= y.1)%nat).

#[global] Instance fires_before_dec x y : Decision (fires_before x y).
Proof. unfold fires_before. apply _. Defined.

Definition due_timers (target : Z) (w : World) : list timer_handle :=
  (merge_sort fires_before
     (filter (fun x => x.2.1 <= target) (map_to_list (timers (rt w))))).*1.

(** [dt] milliseconds pass: the timers due by then fire in order, each at
    its own time, and the clock ends [dt] later. No closure of the class
    arms a timer, so the timers to fire are those armed when the interval
    starts. *)
Definition elapse (dt : Z) : M unit :=
  w ← get;
  let target := now (rt w) + Z.max 0 dt in
  for_each (due_timers target w) fire ;;
  upd_rt (set_now target).

(** ** Inbound frames *)

Section Inbound.

(** [JSON.parse] of the platform: [None] when it throws a SyntaxError. *)
Variable JSON_parse : string -> option json.

(** [handleMessage(data)]. Whatever throws inside the [try] is logged by
    its [catch]: [JSON.parse], reading [message.type] of [null], a topic
    [emitEvent] cannot convert, and [new Error(message)] for a message
    that does not convert, which is reached after the timer was cleared
    and the entry removed. *)
Definition handleMessage (data : string) : M unit :=
  match JSON_parse data with
  | None | Some JNull => tell [Console LError "[Gateway] Failed to parse message:"]
  | Some message =>
      if is_str (field message "type") "event" && truthy (field message "event") then
        match field message "event" with
        | Some event =>
            thrown ← emitEvent event (of_opt (field message "data"));
            match thrown with
            | Some _ => tell [Console LError "[Gateway] Failed to parse message:"]
            | None => ret tt
            end
        | None => ret tt
        end
      else if truthy (field message "id") then
        w ← get;
        match pending_for (this w) (field message "id") with
        | Some (id, pending) =>
            clearTimeout (timeout pending) ;;
            upd_this (fun c => set_pendingRequests (delete id (pendingRequests c)) c) ;;
            if truthy (field message "error") then
              let text := js_or (field_of (field message "error") "message")
                            (JStr "RPC error") in
              if converts text then tell [Reject (reject pending) (VError text)]
              else tell [Console LError "[Gateway] Failed to parse message:"]
            else
              tell [Resolve (resolve pending) (of_opt (field message "result"))]
        | None => ret tt
        end
      else ret tt
  end.

(** [handleAuthResponse(event)] of handshake [i]. A frame that does not
    parse, or parses to [null], is ignored by the [catch]; so is the
    TypeError of [new Error(message)] for a message that does not convert,
    which leaves the promise unsettled after its timer was cleared. *)
Definition handleAuthResponse (i : nat) (data : string) : M unit :=
  w ← get;
  match handshakes (rt w) !! i, JSON_parse data with
  | Some hs, Some message =>
      if is_str (field message "id") (hs_id hs) then
        clearTimeout (hs_timeout hs) ;;
        when (bool_decide (ws (this w) = hs_listener hs))
          (upd_rt (fun r =>
             set_handshakes
               (alter (fun hs => {| hs_id := hs_id hs; hs_timeout := hs_timeout hs;
                                    hs_listener := None; hs_settled := hs_settled hs;
                                    hs_reject := hs_reject hs |}) i (handshakes r)) r)) ;;
        if truthy (field message "error") then
          let text := js_or (field_of (field message "error") "message")
                        (JStr "Authentication failed") in
          if converts text then settle_handshake i (Some (VError text)) else ret tt
        else if truthy (optional_field (field message "result") "authenticated") then
          settle_handshake i None
        else
          settle_handshake i (Some (VError (JStr "Unexpected auth response")))
      else ret tt
  | _, _ => ret tt
  end.

(** A [message] event on socket [s]: [onmessage] first, then the
    [handleAuthResponse] listeners still registered on [s]. *)
Definition onmessage (s : socket_ref) (data : string) : M unit :=
  handleMessage data ;;
  w ← get;
  for_each (seq 0 (length (handshakes (rt w)))) (fun i =>
    w' ← get;
    match handshakes (rt w') !! i with
    | Some hs =>
        if bool_decide (hs_listener hs = Some s) then handleAuthResponse i data else ret tt
    | None => ret tt
    end).

(** ** What can happen to the client

    The application calls a method, a socket of the client raises an
    event, or time passes. The identifiers drawn by [crypto.randomUUID()]
    come with the event that needs them. *)
Inductive event :=
| AppConnect
| AppDisconnect
| AppCall (id method : string) (params : value)
| AppOn (topic : string) (cb : callback)
| AppOff (topic : string) (cb : callback)
| SockOpen (s : socket_ref) (auth_id : string)
| SockMessage (s : socket_ref) (data : string)
| SockError (s : socket_ref) (error : value)
| SockClose (s : socket_ref)
| Elapse (dt : Z)
| StoreToken (token : option string).

(** A socket raises [open] once, while connecting; [message] while open
    or closing; [error] and [close] until it is closed. An event a socket
    cannot raise in its state changes nothing. *)
Definition exec (e : event) : M unit :=
  match e with
  | AppConnect => connect ;; ret tt
  | AppDisconnect => disconnect
  | AppCall id method params => call id method params ;; ret tt
  | AppOn topic cb => on topic cb
  | AppOff topic cb => off topic cb
  | SockOpen s auth_id =>
      w ← get;
      match sockets (rt w) !! s with
      | Some sock =>
          match ws_readyState sock with
          | CONNECTING => set_socket_state s OPEN ;; onopen auth_id (ws_reject sock)
          | _ => ret tt
          end
      | None => ret tt
      end
  | SockMessage s data =>
      w ← get;
      match socket_state w s with
      | Some OPEN | Some CLOSING => onmessage s data
      | _ => ret tt
      end
  | SockError s error =>
      w ← get;
      match sockets (rt w) !! s with
      | Some sock =>
          match ws_readyState sock with
          | CLOSED => ret tt
          | _ => onerror (ws_reject sock) error
          end
      | None => ret tt
      end
  | SockClose s =>
      w ← get;
      match socket_state w s with
      | Some CLOSED | None => ret tt
      | Some _ => set_socket_state s CLOSED ;; onclose
      end
  | Elapse dt => elapse dt
  | StoreToken token =>
      upd_rt (fun r =>
        {| sockets := sockets r; timers := timers r; handshakes := handshakes r;
           next_socket := next_socket r; next_timer := next_timer r;
           next_promise := next_promise r; now := now r; stark_token := token;
           url_ok := url_ok r |})
  end.

Fixpoint run (evs : list event) : M unit :=
  match evs with
  | [] => ret tt
  | e :: evs' => exec e ;; run evs'
  end.

End Inbound.

(** ** Worlds to start from *)

(** A page that has just built its client: nothing allocated, time zero. *)
Definition fresh_runtime (token : option string) : Runtime := {|
  sockets := ∅; timers := ∅; handshakes := [];
  next_socket := 0; next_timer := 0; next_promise := 0;
  now := 0; stark_token := token; url_ok := true
|}.

Definition fresh_world (token : option string) : World :=
  {| this := new_GatewayClient; rt := fresh_runtime token |}.

(** ** Reading traces and buffers *)

(** The arguments [cb] was called with, in order. *)
Definition received (cb : callback) (t : trace) : list value :=
  omap (fun e =>
          match e with
          | Invoke c a => if bool_decide (c = cb) then Some a else None
          | _ => None
          end) t.

(** The last [n] elements of a list. *)
Definition last_n {A} (n : nat) (l : list A) : list A :=
  drop (length l - n) l.

(** The events of a list that [emitEvent] buffers. *)
Definition business (evs : list (json * value)) : list (json * value) :=
  filter (fun e => buffered e.1 = true) evs.

(** The events of a list that [emitEvent] hands to the listeners: those
    whose topic converts. *)
Definition dispatched (evs : list (json * value)) : list (json * value) :=
  filter (fun e => converts e.1 = true) evs.

(** What a replay hands to a listener for a buffered pair. *)
Definition entry_of (e : json * value) : value := entry e.1 e.2.

(** [cb] is registered for no topic of its own. *)
Definition wildcard_only (cb : callback) (c : GatewayClient) : Prop :=
  forall t l, eventListeners c !! t = Some l -> cb ∉ l.

(** ** Sample data *)

Definition sample_events : list (json * value) :=
  [(JStr "connected", VRecord []);
   (JStr "agent.tool_call", VJson (JStr "search"));
   (JStr "tick", VJson (JNum 1%float))].

(** A client that already saw one event and has one listener of each kind. *)
Definition sample_listening : World :=
  world_of (emitEvent (JStr "tick") (VJson (JNum 0%float))
    (world_of (on "tick" 2%nat (world_of (on "*" 1%nat (fresh_world (Some "token"))))))).

(** The connection state of the design, read off the fields: the class
    keeps no such field. *)
Inductive ConnectionState := Disconnected | Connecting | Authenticating | Ready.

Definition connectionState (w : World) : ConnectionState :=
  match ws (this w) with
  | None => Disconnected
  | Some s =>
      match socket_state w s with
      | Some CONNECTING => Connecting
      | Some OPEN => if authenticated (this w) then Ready else Authenticating
      | _ => Disconnected
      end
  end.

(** Frames as they come off the wire, and a reading of them that agrees
    with [JSON.parse] on each: the text of a frame is built with
    [quoted], which puts a name between double quotes. *)
Definition quoted (s : string) : string :=
  String (Ascii.ascii_of_nat 34) (s ++ String (Ascii.ascii_of_nat 34) EmptyString).

(** [{"id":"a1","result":{"authenticated":true}}] *)
Definition frame_auth_ok : string :=
  "{" ++ quoted "id" ++ ":" ++ quoted "a1" ++ "," ++ quoted "result" ++ ":{"
  ++ quoted "authenticated" ++ ":true}}".

(** [{"id":"c1","result":"0x10"}] *)
Definition frame_result : string :=
  "{" ++ quoted "id" ++ ":" ++ quoted "c1" ++ "," ++ quoted "result" ++ ":"
  ++ quoted "0x10" ++ "}".

(** [{"id":"c2","error":{"message":"denied"}}] *)
Definition frame_error : string :=
  "{" ++ quoted "id" ++ ":" ++ quoted "c2" ++ "," ++ quoted "error" ++ ":{"
  ++ quoted "message" ++ ":" ++ quoted "denied" ++ "}}".

(** [{"id":"zz","result":true}] *)
Definition frame_unmatched : string :=
  "{" ++ quoted "id" ++ ":" ++ quoted "zz" ++ "," ++ quoted "result" ++ ":true}".

(** [{"type":"event","event":"tick","data":null}] *)
Definition frame_event : string :=
  "{" ++ quoted "type" ++ ":" ++ quoted "event" ++ "," ++ quoted "event" ++ ":"
  ++ quoted "tick" ++ "," ++ quoted "data" ++ ":null}".

(** [{"id":] : cut short *)
Definition frame_garbage : string := "{" ++ quoted "id" ++ ":".

Definition sample_parse (data : string) : option json :=
  if String.eqb data frame_auth_ok then
    Some (JObj [("id", JStr "a1"); ("result", JObj [("authenticated", JBool true)])])
  else if String.eqb data frame_result then
    Some (JObj [("id", JStr "c1"); ("result", JStr "0x10")])
  else if String.eqb data frame_error then
    Some (JObj [("id", JStr "c2"); ("error", JObj [("message", JStr "denied")])])
  else if String.eqb data frame_unmatched then
    Some (JObj [("id", JStr "zz"); ("result", JBool true)])
  else if String.eqb data frame_event then
    Some (JObj [("type", JStr "event"); ("event", JStr "tick"); ("data", JNull)])
  else None.

(** A client whose socket is open and whose handshake is still awaited. *)
Definition sample_authenticating : World :=
  world_of (run sample_parse [AppOn "*" 1%nat; AppConnect; SockOpen 0%nat "a1"]
              (fresh_world (Some "token"))).

(** The same client once the handshake succeeded. *)
Definition sample_ready : World :=
  world_of (exec sample_parse (SockMessage 0%nat frame_auth_ok) sample_authenticating).

(** ... and with two calls in flight. *)
Definition sample_busy : World :=
  world_of (run sample_parse
              [AppCall "c1" "getBalance" (VJson (JObj [("addr", JStr "0x1")]));
               AppCall "c2" "getPrice" (VJson (JObj [("sym", JStr "ETH")]))]
              sample_ready).

(** Whether an effect is the call of a listener. *)
Definition is_invoke (e : effect) : bool :=
  match e with
  | Invoke _ _ => true
  | _ => false
  end.

(** Whether an effect settles a promise. *)
Definition is_settlement (e : effect) : bool :=
  match e with
  | Resolve _ _ | Reject _ _ => true
  | _ => false
  end.

Definition is_console (e : effect) : bool :=
  match e with
  | Console _ _ => true
  | _ => false
  end.

(** What [emitEvent] does to the outside: console lines and calls of
    listeners. *)
Definition is_dispatch (e : effect) : bool :=
  match e with
  | Invoke _ _ | Console _ _ => true
  | _ => false
  end.

Definition is_SetTimeout (e : effect) : bool :=
  match e with
  | SetTimeout _ _ _ => true
  | _ => false
  end.

(** What [disconnect] does for one pending request. *)
Definition closed_by_disconnect (kv : string * PendingRequest) : trace :=
  [ClearTimeout (timeout kv.2); Reject (reject kv.2) (VError (JStr "Connection closed"))].

(** Handles of armed timers were all handed out by [setTimeout]. *)
Definition timers_allocated (w : World) : Prop :=
  forall h t, timers (rt w) !! h = Some t -> (h < next_timer (rt w))%nat.

(** Whether [onclose] goes on to schedule a reconnect. *)
Definition will_reconnect (c : GatewayClient) : bool :=
  negb (intentionalDisconnect c) && Z.ltb (reconnectAttempts c) (maxReconnectAttempts c).

(** The delays of the reconnects scheduled along a trace, in order. *)
Definition reconnect_delays (t : trace) : list Z :=
  omap (fun e =>
          match e with
          | SetTimeout _ delay Reconnect => Some delay
          | _ => None
          end) t.

(** ** Reading responses *)

(** Whether an effect settles the promise of a pending request. *)
Definition settles (pr : PendingRequest) (e : effect) : bool :=
  match e with
  | Resolve p _ => Nat.eqb p (resolve pr)
  | Reject p _ => Nat.eqb p (reject pr)
  | _ => false
  end.

Definition settlements_of (pr : PendingRequest) (t : trace) : trace :=
  filter (fun e => settles pr e = true) t.

(** Whether a parsed frame is taken for an event. *)
Definition event_shaped (message : json) : bool :=
  is_str (field message "type") "event" && truthy (field message "event").

(** The message of the [Error] a response with an [error] rejects the
    caller with. *)
Definition error_text (message : json) : json :=
  js_or (field_of (field message "error") "message") (JStr "RPC error").

(** What a response does once the timer is cleared and the entry removed:
    the caller is rejected when [message.error] is truthy, resolved with
    [message.result] otherwise; when the message of the error does not
    convert, the caller is not settled and the [catch] logs its line. *)
Definition outcome (pr : PendingRequest) (message : json) : effect :=
  if truthy (field message "error") then
    if converts (error_text message) then Reject (reject pr) (VError (error_text message))
    else Console LError "[Gateway] Failed to parse message:"
  else Resolve (resolve pr) (of_opt (field message "result")).

(** The message of the [Error] a handshake fails with when the frame has
    an [error]. *)
Definition auth_error_text (message : json) : json :=
  js_or (field_of (field message "error") "message") (JStr "Authentication failed").

(** What a frame carrying the id of a handshake settles it with: [None]
    resolves it, [Some e] rejects it with [e]; no verdict when
    [new Error] throws on a message that does not convert. *)
Definition auth_verdict (message : json) : option (option value) :=
  if truthy (field message "error") then
    if converts (auth_error_text message) then Some (Some (VError (auth_error_text message)))
    else None
  else if truthy (optional_field (field message "result") "authenticated") then Some None
  else Some (Some (VError (JStr "Unexpected auth response"))).

Section Responses.

Variable JSON_parse : string -> option json.

(** Whether a frame is a response carrying the id [id]. *)
Definition response_to (id : string) (data : string) : bool :=
  match JSON_parse data with
  | Some message => negb (event_shaped message) && is_str (field message "id") id
  | None => false
  end.

(** The settlement a frame brings to a pending request, if it parses and
    settles it. *)
Definition outcome_of (pr : PendingRequest) (data : string) : trace :=
  match JSON_parse data with
  | Some message => filter (fun e => is_settlement e = true) [outcome pr message]
  | None => []
  end.

(** Frames handled one after the other, as they arrive. *)
Definition handle_all (frames : list string) : M unit :=
  for_each frames (handleMessage JSON_parse).

End Responses.

(** Each other pending request has promises of its own. *)
Definition own_promise (id : string) (pr : PendingRequest) (c : GatewayClient) : Prop :=
  forall id' pr', id' <> id -> pendingRequests c !! id' = Some pr' ->
    resolve pr' <> resolve pr /\ reject pr' <> reject pr.

(** What [emitEvent] does to the outside, read off the client: nothing
    when the topic does not convert. *)
Definition emitEvent_effects (event : json) (data : value) (c : GatewayClient) : trace :=
  if converts event then
    (if negb (is_str (Some event) "agent.thinking")
     then [Console LLog "[Gateway] Event received: ${event}"] else [])
    ++ match listeners_for c event with
       | Some listeners =>
           Console LLog "[Gateway] Found ${listeners.size} listener(s) for event: ${event}"
           :: map (fun cb => Invoke cb data) listeners
       | None => [Console LLog "[Gateway] No listeners for event: ${event}"]
       end
    ++ map (fun cb => Invoke cb (entry event data)) (wildcardListeners c)
  else [].

(** The exception [emitEvent] throws for a topic, if any. *)
Definition emitEvent_thrown (event : json) : option value :=
  if converts event then None else Some (VHost "TypeError").

(** What the [catch] of [handleMessage] logs after [emitEvent]. *)
Definition caught (thrown : option value) : trace :=
  match thrown with
  | Some _ => [Console LError "[Gateway] Failed to parse message:"]
  | None => []
  end.

(** No pending request holds a promise of [pr]. *)
Definition no_promise_of (pr : PendingRequest) (c : GatewayClient) : Prop :=
  forall id' pr', pendingRequests c !! id' = Some pr' ->
    resolve pr' <> resolve pr /\ reject pr' <> reject pr.

(** The responses of a list of frames that carry the id [id]. *)
Definition responses_to (JSON_parse : string -> option json) (id : string)
    (frames : list string) : list string :=
  filter (fun data => response_to JSON_parse id data = true) frames.

(** ** Invariants of handlers *)

(** A run of [m] from [w] ends in a world where [I] holds, having done
    only effects that satisfy [φ]. *)
Definition ok {A} (I : World -> Prop) (φ : effect -> Prop) (m : M A) (w : World) : Prop :=
  I (world_of (m w)) /\ Forall φ (trace_of (m w)).

(** The fields that drive the reconnect policy. *)
Definition policy (c : GatewayClient) : Z * Z * Z * bool :=
  (reconnectAttempts c, maxReconnectAttempts c, reconnectDelay c, intentionalDisconnect c).

(** The line [onclose] starts with. *)
Definition is_closure_line (e : effect) : bool :=
  match e with
  | Console LLog s => String.eqb s "[Gateway] Connection closed"
  | _ => false
  end.

Definition is_reconnect (e : effect) : bool :=
  match e with
  | SetTimeout _ _ Reconnect => true
  | _ => false
  end.

(** How many times [onclose] ran along a trace. *)
Definition closures (t : trace) : nat :=
  length (filter (fun e => is_closure_line e = true) t).

(** Effects other than those by which [onclose] shows. *)
Definition silent (e : effect) : Prop :=
  is_closure_line e = false /\ is_reconnect e = false.

(** The delays the policy allows, in order. *)
Definition backoff_delays : list Z := [1000; 2000; 4000; 8000; 16000].

(** The events that can change the policy fields: [disconnect()], and
    the [open] and [close] of a socket. *)
Definition policy_event (e : event) : bool :=
  match e with
  | AppDisconnect | SockOpen _ _ | SockClose _ => true
  | _ => false
  end.

(** Events other than the [open] of a socket and [disconnect()]. *)
Definition keeps_backoff (e : event) : bool :=
  match e with
  | AppDisconnect | SockOpen _ _ => false
  | _ => true
  end.

(** The delay the policy holds after [k] reconnects were scheduled. *)
Definition delay_after (k : nat) : Z := nth k (backoff_delays ++ [30000]) 30000.

(** How many times the handshake failed along a trace. *)
Definition is_auth_failure (e : effect) : bool :=
  match e with
  | Console LError s => String.eqb s "[Gateway] Authentication failed:"
  | _ => false
  end.

Definition auth_failures (t : trace) : nat :=
  length (filter (fun e => is_auth_failure e = true) t).

(** A page with no token stored: [connect()], then [n] times the socket
    opens, the handshake fails for want of a token, the socket closes and
    a second goes by. Sockets are numbered as they are created. *)
Definition tokenless_attempts (n : nat) : list event :=
  AppConnect :: flat_map (fun k => [SockOpen k "a1"; SockClose k; Elapse 1000]) (seq 0 n).

(** A backend that cannot be reached: [connect()], then [n] times the
    socket fails and closes without having opened, and half a minute goes
    by. *)
Definition unreachable_attempts (n : nat) : list event :=
  AppConnect
  :: flat_map (fun k => [SockError k (VHost "Event"); SockClose k; Elapse 30000]) (seq 0 n).

(** ** A call that waits for its response *)

(** Whether an effect settles promise [p]. *)
Definition settles_promise (p : promise) (e : effect) : bool :=
  match e with
  | Resolve q _ | Reject q _ => Nat.eqb q p
  | _ => false
  end.

Definition unsettled (p : promise) (e : effect) : Prop := settles_promise p e = false.

(** The call with id [id], promise [p] and timer [h], due at [due], is
    still waiting: its entry is in the table and its timer is armed, and
    nothing else in the world refers to its id, its timer or its promise. *)
Definition awaiting (id : string) (p : promise) (h : timer_handle) (due : Z) (w : World) : Prop :=
  pendingRequests (this w) !! id = Some {| resolve := p; reject := p; timeout := h |}
  /\ timers (rt w) !! h = Some (due, RpcTimeout id p)
  /\ (h < next_timer (rt w))%nat
  /\ (p < next_promise (rt w))%nat
  /\ (forall id' pr', pendingRequests (this w) !! id' = Some pr' -> id' <> id ->
        timeout pr' <> h /\ resolve pr' <> p /\ reject pr' <> p)
  /\ (forall h' d' id' p', timers (rt w) !! h' = Some (d', RpcTimeout id' p') -> h' <> h ->
        id' <> id /\ p' <> p)
  /\ (forall hs, hs ∈ handshakes (rt w) -> hs_timeout hs <> h /\ hs_reject hs <> p)
  /\ (forall s sock, sockets (rt w) !! s = Some sock -> ws_reject sock <> p)
  /\ connectionResolve (this w) <> Some p.

(** Identities in use were all handed out by the runtime. *)
Definition allocated (w : World) : Prop :=
  (forall h t, timers (rt w) !! h = Some t -> (h < next_timer (rt w))%nat)
  /\ (forall h d id p, timers (rt w) !! h = Some (d, RpcTimeout id p) ->
        (p < next_promise (rt w))%nat)
  /\ (forall id pr, pendingRequests (this w) !! id = Some pr ->
        (timeout pr < next_timer (rt w))%nat /\ (resolve pr < next_promise (rt w))%nat
        /\ (reject pr < next_promise (rt w))%nat)
  /\ (forall hs, hs ∈ handshakes (rt w) ->
        (hs_timeout hs < next_timer (rt w))%nat /\ (hs_reject hs < next_promise (rt w))%nat)
  /\ (forall s sock, sockets (rt w) !! s = Some sock ->
        (ws_reject sock < next_promise (rt w))%nat)
  /\ (forall p, connectionResolve (this w) = Some p -> (p < next_promise (rt w))%nat).

(** The id is neither pending nor named by an armed timer. *)
Definition unused_id (id : string) (w : World) : Prop :=
  pendingRequests (this w) !! id = None
  /\ (forall h d p, timers (rt w) !! h <> Some (d, RpcTimeout id p)).

(** Events that leave the call with id [id] waiting: anything but
    [disconnect()], a call that draws the same id, and a response that
    carries it. *)
Definition leaves_waiting (JSON_parse : string -> option json) (id : string) (e : event) : bool :=
  match e with
  | AppDisconnect => false
  | AppCall id' _ _ => negb (String.eqb id' id)
  | SockMessage _ data => negb (response_to JSON_parse id data)
  | _ => true
  end.

(** The time a course of events takes. *)
Definition total_elapsed (evs : list event) : Z :=
  foldr (fun e acc => match e with Elapse dt => Z.max 0 dt + acc | _ => acc end) 0 evs.

(** Calls among the events: those that draw the id [id], and any. *)
Definition is_call_with (id : string) (e : event) : bool :=
  match e with
  | AppCall id' _ _ => String.eqb id' id
  | _ => false
  end.

Definition is_call (e : event) : bool :=
  match e with
  | AppCall _ _ _ => true
  | _ => false
  end.

(** ** Classes of events *)

(** [on] and [off]. *)
Definition is_registration (e : event) : bool :=
  match e with
  | AppOn _ _ | AppOff _ _ => true
  | _ => false
  end.

(** An inbound frame. *)
Definition is_frame (e : event) : bool :=
  match e with
  | SockMessage _ _ => true
  | _ => false
  end.

(** The events whose handlers assign [pendingRequests]: a call, a frame,
    a timer that fires, [disconnect()]. *)
Definition reaches_pending (e : event) : bool :=
  match e with
  | AppCall _ _ _ | SockMessage _ _ | Elapse _ | AppDisconnect => true
  | _ => false
  end.

(** ** Shapes of the client's collections *)

(** The buffer is within its capacity and holds no lifecycle event. *)
Definition buffer_in_order (c : GatewayClient) : Prop :=
  (length (eventBuffer c) <= EVENT_RING_BUFFER_SIZE)%nat
  /\ Forall (fun e => buffered e.1 = true) (eventBuffer c).

(** Each set of listeners holds a callback once. *)
Definition listeners_are_sets (c : GatewayClient) : Prop :=
  NoDup (wildcardListeners c)
  /\ forall topic l, eventListeners c !! topic = Some l -> NoDup l.

(** The listeners of a topic, none when the topic was never registered. *)
Definition listeners_of (c : GatewayClient) (topic : string) : list callback :=
  default [] (eventListeners c !! topic).

(** ** The instance of the module

    [getGateway()] and [resetGateway()] share the variable
    [gatewayInstance]. The clients constructed so far are kept in the
    order of their construction, a client being named by its place. *)

(** [window.location] *)
Record Location := {
  protocol : string;
  host : string
}.

(** The URL the constructor computes for a client constructed with no
    URL: [wss:] on a page served over [https:], [ws:] on any other, the
    host of the page and the path [/ws]. *)
Definition page_url (loc : Location) : string :=
  (if String.eqb (protocol loc) "https:" then "wss:" else "ws:")
  ++ "//" ++ host loc ++ "/ws".

(** [constructor(url?)]: the field [url] and what is logged; an empty
    string is falsy, like no argument. The other fields are those of
    [new_GatewayClient]. *)
Definition GatewayClient_url (url : option string) (loc : Location) : string * trace :=
  match url with
  | Some (String a u) => (String a u, [])
  | _ => (page_url loc, [Console LLog "[Gateway] WebSocket connection:"])
  end.

Record Instance := {
  url : string;
  client : GatewayClient
}.

Record Page := {
  gatewayInstance : option nat;
  instances : list Instance;
  page_rt : Runtime;
  location : Location
}.

(** [getGateway()] *)
Definition getGateway (pg : Page) : nat * Page * trace :=
  match gatewayInstance pg with
  | Some i => (i, pg, [])
  | None =>
      let i := length (instances pg) in
      let made := GatewayClient_url None (location pg) in
      (i,
       {| gatewayInstance := Some i;
          instances := instances pg ++ [{| url := made.1; client := new_GatewayClient |}];
          page_rt := page_rt pg;
          location := location pg |},
       made.2)
  end.

(** [resetGateway()] *)
Definition resetGateway (pg : Page) : unit * Page * trace :=
  match gatewayInstance pg with
  | Some i =>
      match instances pg !! i with
      | Some inst =>
          let r := disconnect {| this := client inst; rt := page_rt pg |} in
          (tt,
           {| gatewayInstance := None;
              instances := <[i := {| url := url inst; client := this (world_of r) |}]>
                             (instances pg);
              page_rt := rt (world_of r);
              location := location pg |},
           trace_of r)
      | None =>
          (tt,
           {| gatewayInstance := None; instances := instances pg; page_rt := page_rt pg;
              location := location pg |},
           [])
      end
  | None => (tt, pg, [])
  end.

(** A method called on the client at place [i]. *)
Definition on_instance {A} (i : nat) (m : M A) (pg : Page) : option A * Page * trace :=
  match instances pg !! i with
  | Some inst =>
      let r := m {| this := client inst; rt := page_rt pg |} in
      (Some (value_of r),
       {| gatewayInstance := gatewayInstance pg;
          instances := <[i := {| url := url inst; client := this (world_of r) |}]>
                         (instances pg);
          page_rt := rt (world_of r);
          location := location pg |},
       trace_of r)
  | None => (None, pg, [])
  end.

(** A page that has not asked for the gateway yet. *)
Definition new_Page (loc : Location) (token : option string) : Page :=
  {| gatewayInstance := None; instances := []; page_rt := fresh_runtime token;
     location := loc |}.

(** The variable refers to a client that was constructed. *)
Definition instance_exists (pg : Page) : Prop :=
  forall i, gatewayInstance pg = Some i -> (i < length (instances pg))%nat.

(** ** Pending requests and their timers *)

(** Every pending request has its timer armed, due at most 30 seconds
    after [n]; the timer of a handshake is not the timer of a call; timer
    handles are handed out in order; the clock is where [at_time] says. *)
Definition backed (n : Z) (at_time : Z -> Prop) (w : World) : Prop :=
  (forall h t, timers (rt w) !! h = Some t -> (h < next_timer (rt w))%nat)
  /\ (forall id pr, pendingRequests (this w) !! id = Some pr ->
        exists due, timers (rt w) !! timeout pr = Some (due, RpcTimeout id (reject pr))
                    /\ due <= n + 30000)
  /\ (forall hs d id p, hs ∈ handshakes (rt w) ->
        (hs_timeout hs < next_timer (rt w))%nat
        /\ timers (rt w) !! hs_timeout hs <> Some (d, RpcTimeout id p))
  /\ at_time (now (rt w)).

(** * Properties *)

(** ** Event dispatcher *)

Ltac run_M :=
  unfold mbind, mret, M_bind, M_ret, bind, ret, when, get, tell, upd_this, upd_rt in *;
  cbn in *.

Lemma emitEvent_eq e d w :
  emitEvent e d w =
  (emitEvent_thrown e,
   {| this := if buffered e
              then set_eventBuffer (push_event (e, d) (eventBuffer (this w))) (this w)
              else this w;
      rt := rt w |},
   emitEvent_effects e d (this w)).
Proof.
  unfold emitEvent, emitEvent_effects, emitEvent_thrown.
  destruct (converts e), (buffered e), (negb (is_str (Some e) "agent.thinking"));
    unfold mbind, M_bind, bind, when, get, tell, upd_this, ret; cbn [fst snd this rt];
    change (listeners_for (set_eventBuffer _ (this w)) e) with (listeners_for (this w) e);
    try destruct (listeners_for (this w) e);
    unfold mbind, M_bind, bind, tell; cbn [fst snd this rt app];
    rewrite ?app_nil_r; destruct w; reflexivity.
Qed.

(** The topics that are not buffered are strings. *)
Lemma unbuffered_converts e : buffered e = false -> converts e = true.
Proof. destruct e; try discriminate; reflexivity. Qed.

Lemma world_of_mk {A} (a : A) w t : world_of (a, w, t) = w.
Proof. reflexivity. Qed.

Lemma trace_of_mk {A} (a : A) w t : trace_of (a, w, t) = t.
Proof. reflexivity. Qed.

Lemma value_of_mk {A} (a : A) w t : value_of (a, w, t) = a.
Proof. reflexivity. Qed.

Lemma bind_eq {A B} (m : M A) (k : A -> M B) w :
  (m ≫= k) w =
  (value_of (k (value_of (m w)) (world_of (m w))),
   world_of (k (value_of (m w)) (world_of (m w))),
   trace_of (m w) ++ trace_of (k (value_of (m w)) (world_of (m w)))).
Proof.
  unfold mbind, M_bind, bind, value_of, world_of, trace_of.
  destruct (m w) as [[a w1] t1]. cbn [fst snd].
  destruct (k a w1) as [[b w2] t2]. reflexivity.
Qed.

Lemma emitEvent_world e d w :
  world_of (emitEvent e d w) =
  {| this := if buffered e
             then set_eventBuffer (push_event (e, d) (eventBuffer (this w))) (this w)
             else this w;
     rt := rt w |}.
Proof. rewrite emitEvent_eq. reflexivity. Qed.

Lemma emitEvent_eventBuffer e d w :
  eventBuffer (this (world_of (emitEvent e d w))) =
  if buffered e then push_event (e, d) (eventBuffer (this w)) else eventBuffer (this w).
Proof. rewrite emitEvent_world. cbn [this]. destruct (buffered e); reflexivity. Qed.

Lemma emitEvent_listeners e d w :
  eventListeners (this (world_of (emitEvent e d w))) = eventListeners (this w)
  /\ wildcardListeners (this (world_of (emitEvent e d w))) = wildcardListeners (this w).
Proof. rewrite emitEvent_world. cbn [this]. destruct (buffered e); auto. Qed.

(** A lifecycle event leaves the world as it is. *)
Lemma emitEvent_lifecycle e d w :
  buffered e = false -> emitEvent e d w = (None, w, emitEvent_effects e d (this w)).
Proof.
  intros H. rewrite emitEvent_eq, H. unfold emitEvent_thrown.
  rewrite (unbuffered_converts e H). destruct w; reflexivity.
Qed.

Lemma push_event_last_n e (buf : list (json * value)) :
  (length buf <= EVENT_RING_BUFFER_SIZE)%nat ->
  push_event e buf = last_n EVENT_RING_BUFFER_SIZE (buf ++ [e]).
Proof.
  unfold push_event, last_n. generalize EVENT_RING_BUFFER_SIZE as n. intros n Hn.
  rewrite length_app. cbn [length].
  destruct (Nat.ltb_spec n (length buf + 1)).
  - replace (length buf + 1 - n)%nat with 1%nat by lia. destruct buf; reflexivity.
  - replace (length buf + 1 - n)%nat with 0%nat by lia. reflexivity.
Qed.

Lemma last_n_length {A} n (l : list A) : (length (last_n n l) <= n)%nat.
Proof. unfold last_n. rewrite length_drop. lia. Qed.

Lemma last_n_snoc {A} n (l : list A) x :
  last_n n (last_n n l ++ [x]) = last_n n (l ++ [x]).
Proof.
  unfold last_n. rewrite !length_app, length_drop. cbn [length].
  rewrite !drop_app, drop_drop, !length_drop.
  destruct (Nat.le_gt_cases (length l) n).
  - replace (length l - n)%nat with 0%nat by lia. cbn [drop Nat.add].
    replace (length l - 0 + 1 - n)%nat with (length l + 1 - n)%nat by lia.
    replace (length l + 1 - n - (length l - 0))%nat
      with (length l + 1 - n - length l)%nat by lia.
    reflexivity.
  - f_equal; [f_equal; lia|].
    replace (length l - (length l - n) + 1 - n - (length l - (length l - n)))%nat
      with (length l + 1 - n - length l)%nat by lia.
    reflexivity.
Qed.

Lemma last_n_all {A} n (l : list A) : (length l <= n)%nat -> last_n n l = l.
Proof. intros H. unfold last_n. replace (length l - n)%nat with 0%nat by lia. reflexivity. Qed.

Lemma emit_all_cons e evs w :
  emit_all (e :: evs) w =
  (tt, world_of (emit_all evs (world_of (emitEvent e.1 e.2 w))),
   trace_of (emitEvent e.1 e.2 w) ++ trace_of (emit_all evs (world_of (emitEvent e.1 e.2 w)))).
Proof.
  cbn [emit_all]. rewrite bind_eq.
  destruct (emit_all evs _) as [[[] w'] t]. reflexivity.
Qed.

Lemma emit_all_snoc evs e w :
  emit_all (evs ++ [e]) w =
  (tt, world_of (emitEvent e.1 e.2 (world_of (emit_all evs w))),
   trace_of (emit_all evs w) ++ trace_of (emitEvent e.1 e.2 (world_of (emit_all evs w)))).
Proof.
  revert w. induction evs as [|x evs IH]; intros w.
  - cbn [app]. rewrite emit_all_cons. cbn [emit_all]. unfold ret, world_of, trace_of.
    cbn [fst snd]. rewrite app_nil_r. reflexivity.
  - rewrite <- app_comm_cons, !emit_all_cons, IH. unfold world_of, trace_of. cbn [fst snd].
    rewrite app_assoc. reflexivity.
Qed.

Lemma business_snoc evs e :
  business (evs ++ [e]) = if buffered e.1 then business evs ++ [e] else business evs.
Proof.
  unfold business. rewrite filter_app.
  destruct (buffered e.1) eqn:E.
  - rewrite filter_cons_True, filter_nil; auto.
  - rewrite filter_cons_False, filter_nil, ?app_nil_r; auto. congruence.
Qed.

Lemma emit_all_eventBuffer evs w :
  (length (eventBuffer (this w)) <= EVENT_RING_BUFFER_SIZE)%nat ->
  eventBuffer (this (world_of (emit_all evs w))) =
  last_n EVENT_RING_BUFFER_SIZE (eventBuffer (this w) ++ business evs).
Proof.
  intros Hw. induction evs as [|e evs IH] using rev_ind.
  - cbn [emit_all]. unfold business. rewrite filter_nil, app_nil_r, last_n_all; auto.
  - rewrite emit_all_snoc. unfold world_of at 1. cbn [fst snd].
    rewrite emitEvent_eventBuffer, business_snoc.
    destruct (buffered e.1); [|exact IH].
    rewrite push_event_last_n by (rewrite IH; apply last_n_length).
    rewrite IH, last_n_snoc, app_assoc. destruct e; reflexivity.
Qed.

Lemma on_wildcard_eq cb w :
  on "*" cb w =
  (tt,
   {| this := set_wildcardListeners (set_add cb (wildcardListeners (this w))) (this w);
      rt := rt w |},
   map (fun e => Invoke cb (entry_of e)) (eventBuffer (this w))).
Proof.
  unfold on. cbn [String.eqb Ascii.eqb Bool.eqb].
  unfold mbind, M_bind, bind, when, get, tell, upd_this, ret. cbn [fst snd this rt].
  change (eventBuffer (set_wildcardListeners _ (this w))) with (eventBuffer (this w)).
  destruct (eventBuffer (this w)); reflexivity.
Qed.

Lemma received_app cb t1 t2 : received cb (t1 ++ t2) = received cb t1 ++ received cb t2.
Proof. apply omap_app. Qed.

Lemma received_replay cb (f : json * value -> value) l :
  received cb (map (fun e => Invoke cb (f e)) l) = map f l.
Proof.
  induction l as [|x l IH]; [reflexivity|].
  unfold received in *. cbn [map omap list_omap]. rewrite bool_decide_eq_true_2 by reflexivity.
  f_equal. exact IH.
Qed.

Lemma received_absent cb (f : callback -> value) l :
  cb ∉ l -> received cb (map (fun c => Invoke c (f c)) l) = [].
Proof.
  induction l as [|x l IH]; intros Hn; [reflexivity|].
  apply not_elem_of_cons in Hn as [Hx Hl].
  unfold received in *. cbn [map omap list_omap]. rewrite bool_decide_eq_false_2 by congruence.
  auto.
Qed.

Lemma received_once cb (a : value) l :
  NoDup l -> cb ∈ l -> received cb (map (fun c => Invoke c a) l) = [a].
Proof.
  induction 1 as [|x l Hx Hnd IH]; intros Hin; [inversion Hin|].
  unfold received in *. cbn [map omap list_omap]. destruct (decide (x = cb)) as [->|Hne].
  - rewrite bool_decide_eq_true_2 by reflexivity. f_equal.
    apply (received_absent cb (fun _ => a)). exact Hx.
  - rewrite bool_decide_eq_false_2 by exact Hne. apply IH.
    apply elem_of_cons in Hin as [->|]; [congruence|assumption].
Qed.

Lemma received_console cb l s t : received cb (Console l s :: t) = received cb t.
Proof. reflexivity. Qed.

Lemma emitEvent_received cb e d w :
  wildcard_only cb (this w) ->
  NoDup (wildcardListeners (this w)) ->
  cb ∈ wildcardListeners (this w) ->
  received cb (trace_of (emitEvent e d w)) = if converts e then [entry e d] else [].
Proof.
  intros Hex Hnd Hin. rewrite emitEvent_eq. unfold trace_of. cbn [snd].
  unfold emitEvent_effects. destruct (converts e); [|reflexivity]. rewrite !received_app.
  rewrite (received_once cb (entry e d) _ Hnd Hin).
  destruct (negb (is_str (Some e) "agent.thinking")); cbn [app];
    rewrite ?received_console; change (received cb []) with (@nil value); cbn [app].
  all: destruct (listeners_for (this w) e) as [l|] eqn:El; [|reflexivity].
  all: rewrite received_console, (received_absent cb (fun _ => d)); [reflexivity|].
  all: destruct e; try discriminate; exact (Hex _ _ El).
Qed.

Lemma emit_all_received cb evs w :
  wildcard_only cb (this w) ->
  NoDup (wildcardListeners (this w)) ->
  cb ∈ wildcardListeners (this w) ->
  received cb (trace_of (emit_all evs w)) = map entry_of (dispatched evs).
Proof.
  revert w. induction evs as [|e evs IH]; intros w Hex Hnd Hin; [reflexivity|].
  rewrite emit_all_cons. unfold trace_of at 1. cbn [snd].
  destruct (emitEvent_listeners e.1 e.2 w) as [He Hw].
  rewrite received_app, emitEvent_received, IH; auto.
  - unfold dispatched. destruct (converts e.1) eqn:Hc.
    + rewrite filter_cons_True by exact Hc. reflexivity.
    + rewrite filter_cons_False by congruence. reflexivity.
  - unfold wildcard_only. rewrite He. exact Hex.
  - rewrite Hw. exact Hnd.
  - rewrite Hw. exact Hin.
Qed.

Lemma dispatched_all evs :
  Forall (fun e => converts e.1 = true) evs -> dispatched evs = evs.
Proof.
  induction 1 as [|e evs He _ IH]; [reflexivity|].
  unfold dispatched in *. rewrite filter_cons_True by exact He. f_equal. exact IH.
Qed.

Lemma set_add_NoDup cb l : NoDup l -> NoDup (set_add cb l).
Proof.
  intros H. unfold set_add. case_bool_decide; [exact H|].
  apply NoDup_app. split; [exact H|]. split.
  - intros x Hx Hx'. apply list_elem_of_singleton in Hx'. congruence.
  - apply NoDup_singleton.
Qed.

Lemma set_add_elem cb l : cb ∈ set_add cb l.
Proof.
  unfold set_add. case_bool_decide; [assumption|].
  apply elem_of_app. right. apply list_elem_of_singleton. reflexivity.
Qed.

(** C3. From a buffer within its capacity, any sequence of [emitEvent]
    leaves the buffer within the 500 entries of [EVENT_RING_BUFFER_SIZE]: it
    holds the last 500 of what was there followed by the emitted events
    other than the lifecycle ones. So once a 501st entry is recorded the
    oldest one is gone, and the replay to a wildcard listener registered
    afterwards consists of the entries that remain. An event named
    [connected], [disconnected], [auth_failed] or [error] leaves the buffer
    as it was. *)
Theorem event_buffer_ring (w : World) (evs : list (json * value)) (cb : callback) :
  (length (eventBuffer (this w)) <= EVENT_RING_BUFFER_SIZE)%nat ->
  let w' := world_of (emit_all evs w) in
  EVENT_RING_BUFFER_SIZE = 500%nat
  /\ (length (eventBuffer (this w')) <= EVENT_RING_BUFFER_SIZE)%nat
  /\ eventBuffer (this w') =
       last_n EVENT_RING_BUFFER_SIZE (eventBuffer (this w) ++ business evs)
  /\ (forall oldest rest,
        eventBuffer (this w) ++ business evs = oldest :: rest ->
        length rest = EVENT_RING_BUFFER_SIZE ->
        eventBuffer (this w') = rest
        /\ trace_of (on "*" cb w') = map (fun e => Invoke cb (entry_of e)) rest)
  /\ (forall event d,
        event = JStr "connected" \/ event = JStr "disconnected"
        \/ event = JStr "auth_failed" \/ event = JStr "error" ->
        eventBuffer (this (world_of (emitEvent event d w))) = eventBuffer (this w)).
Proof.
  intros Hw w'. subst w'.
  pose proof (emit_all_eventBuffer evs w Hw) as Hbuf.
  split; [reflexivity|]. split; [rewrite Hbuf; apply last_n_length|].
  split; [exact Hbuf|]. split.
  - intros oldest rest Hall Hlen.
    assert (Hrest : eventBuffer (this (world_of (emit_all evs w))) = rest).
    { rewrite Hbuf, Hall. unfold last_n. cbn [length]. rewrite Hlen.
      replace (S EVENT_RING_BUFFER_SIZE - EVENT_RING_BUFFER_SIZE)%nat with 1%nat by lia.
      reflexivity. }
    split; [exact Hrest|]. rewrite on_wildcard_eq, Hrest. reflexivity.
  - intros event d Hev. rewrite emitEvent_eventBuffer.
    destruct Hev as [-> | [-> | [-> | ->]]]; reflexivity.
Qed.

Lemma event_buffer_ring_witness :
  (length (eventBuffer (this (fresh_world None))) <= EVENT_RING_BUFFER_SIZE)%nat
  /\ eventBuffer (this (world_of (emit_all sample_events (fresh_world None)))) =
       last_n EVENT_RING_BUFFER_SIZE
         (eventBuffer (this (fresh_world None)) ++ business sample_events).
Proof.
  assert (H : (length (eventBuffer (this (fresh_world None))) <= EVENT_RING_BUFFER_SIZE)%nat).
  { apply Nat.le_0_l. }
  split; [exact H|].
  exact (proj1 (proj2 (proj2 (event_buffer_ring (fresh_world None) sample_events 0%nat H)))).
Defined.

(** C4. [on('*', cb)] calls [cb] once for each buffered event, oldest
    first, before it returns, and does nothing else to the outside; after
    it, [cb] is a wildcard listener, and over any events emitted next,
    whose topics convert to a string as the topics of the declared type
    do, it is called with the buffered entries followed by those events,
    in order. When the buffer is what a history of events left, the
    replayed part is the last 500 business events of that history. An
    event whose topic does not convert does not reach the listener when
    it is emitted. Here [cb] is registered as a wildcard listener only. *)
Theorem wildcard_replay_then_live (w : World) (cb : callback) (evs : list (json * value)) :
  wildcard_only cb (this w) ->
  NoDup (wildcardListeners (this w)) ->
  Forall (fun e => converts e.1 = true) evs ->
  let r1 := on "*" cb w in
  let r2 := emit_all evs (world_of r1) in
  trace_of r1 = map (fun e => Invoke cb (entry_of e)) (eventBuffer (this w))
  /\ cb ∈ wildcardListeners (this (world_of r1))
  /\ received cb (trace_of r1 ++ trace_of r2) = map entry_of (eventBuffer (this w) ++ evs)
  /\ (forall w0 history,
        (length (eventBuffer (this w0)) <= EVENT_RING_BUFFER_SIZE)%nat ->
        w = world_of (emit_all history w0) ->
        (length (received cb (trace_of r1)) <= EVENT_RING_BUFFER_SIZE)%nat
        /\ received cb (trace_of r1 ++ trace_of r2) =
             map entry_of
               (last_n EVENT_RING_BUFFER_SIZE (eventBuffer (this w0) ++ business history)
                ++ evs))
  /\ (forall e d, converts e = false ->
        received cb (trace_of (emitEvent e d (world_of r1))) = []).
Proof.
  intros Hex Hnd Hevs r1 r2. subst r1 r2. rewrite on_wildcard_eq.
  rewrite !world_of_mk, !trace_of_mk. cbn [this].
  assert (Hrecv : received cb
                    (map (fun e => Invoke cb (entry_of e)) (eventBuffer (this w)) ++
                     trace_of (emit_all evs
                       {| this := set_wildcardListeners (set_add cb (wildcardListeners (this w)))
                                    (this w);
                          rt := rt w |})) =
                  map entry_of (eventBuffer (this w) ++ evs)).
  { rewrite received_app, (received_replay cb entry_of), emit_all_received, map_app.
    - rewrite (dispatched_all evs Hevs). reflexivity.
    - exact Hex.
    - apply set_add_NoDup, Hnd.
    - apply set_add_elem. }
  split; [reflexivity|]. split; [apply set_add_elem|].
  split; [exact Hrecv|]. split.
  - intros w0 history Hw0 ->. split.
    + rewrite (received_replay cb entry_of), length_map, emit_all_eventBuffer by exact Hw0.
      apply last_n_length.
    + rewrite Hrecv, emit_all_eventBuffer by exact Hw0. reflexivity.
  - intros e d Hc. rewrite emitEvent_received, Hc; [reflexivity|exact Hex| |].
    + apply set_add_NoDup, Hnd.
    + apply set_add_elem.
Qed.

Lemma wildcard_replay_then_live_witness :
  received 5%nat
    (trace_of (on "*" 5%nat sample_listening) ++
     trace_of (emit_all sample_events (world_of (on "*" 5%nat sample_listening)))) =
  map entry_of (eventBuffer (this sample_listening) ++ sample_events).
Proof.
  assert (H1 : wildcard_only 5%nat (this sample_listening)).
  { intros t l Hl.
    change (eventListeners (this sample_listening)) with
      (<[ "tick" := [2%nat] ]> (∅ : gmap string (list callback))) in Hl.
    destruct (decide (t = "tick")) as [->|Hne].
    - rewrite lookup_insert_eq in Hl. injection Hl as <-. intros Hin.
      apply list_elem_of_singleton in Hin. discriminate.
    - rewrite lookup_insert_ne, lookup_empty in Hl by congruence. discriminate. }
  assert (H2 : NoDup (wildcardListeners (this sample_listening))).
  { vm_compute. apply NoDup_singleton. }
  assert (H3 : Forall (fun e : json * value => converts e.1 = true) sample_events)
    by (repeat constructor).
  exact (proj1 (proj2 (proj2 (wildcard_replay_then_live sample_listening 5%nat sample_events
                                H1 H2 H3)))).
Defined.

(** ** Inbound frames *)

Lemma for_each_skip {A} (l : list A) (f : A -> M unit) w :
  (forall x, f x w = (tt, w, [])) -> for_each l f w = (tt, w, []).
Proof.
  intros H. induction l as [|x l IH]; [reflexivity|].
  cbn [for_each]. unfold mbind, M_bind, bind. rewrite H, IH. reflexivity.
Qed.

(** C10. A frame [JSON.parse] rejects changes nothing: [handleMessage]
    returns the world as it found it, and all it does is one line on the
    error console. The same holds for the whole [message] event, where the
    handshake listeners ignore the frame as well: no request is settled or
    removed, no listener is called, the buffer stays as it is. *)
Theorem unparseable_frame_is_ignored
    (JSON_parse : string -> option json) (data : string) (s : socket_ref) (w : World) :
  JSON_parse data = None ->
  handleMessage JSON_parse data w
    = (tt, w, [Console LError "[Gateway] Failed to parse message:"])
  /\ world_of (exec JSON_parse (SockMessage s data) w) = w
  /\ Forall (fun e => is_console e = true) (trace_of (exec JSON_parse (SockMessage s data) w)).
Proof.
  intros Hp.
  assert (Hh : handleMessage JSON_parse data w
               = (tt, w, [Console LError "[Gateway] Failed to parse message:"])).
  { unfold handleMessage. rewrite Hp. reflexivity. }
  assert (Hon : onmessage JSON_parse s data w
                = (tt, w, [Console LError "[Gateway] Failed to parse message:"])).
  { unfold onmessage. unfold mbind, M_bind, bind. rewrite Hh. unfold get.
    rewrite for_each_skip; [reflexivity|].
    intros i.
    destruct (handshakes (rt w) !! i) as [hs|] eqn:Ei; [|reflexivity].
    case_bool_decide; [|reflexivity].
    unfold handleAuthResponse. unfold mbind, M_bind, bind, get.
    rewrite Ei, Hp. reflexivity. }
  split; [exact Hh|].
  unfold exec. unfold mbind, M_bind, bind, get.
  destruct (socket_state w s) as [[]|]; rewrite ?Hon;
    unfold world_of, trace_of, ret; cbn [fst snd app]; repeat constructor.
Qed.

Lemma unparseable_frame_is_ignored_witness :
  sample_parse frame_garbage = None
  /\ handleMessage sample_parse frame_garbage sample_busy
     = (tt, sample_busy, [Console LError "[Gateway] Failed to parse message:"]).
Proof.
  assert (H : sample_parse frame_garbage = None) by reflexivity.
  split; [exact H|].
  exact (proj1 (unparseable_frame_is_ignored sample_parse frame_garbage 0%nat sample_busy H)).
Defined.

(** Whether [handleMessage] takes a parsed frame for an event. *)
Lemma handleMessage_parsed (JSON_parse : string -> option json) data message w :
  JSON_parse data = Some message ->
  message <> JNull ->
  handleMessage JSON_parse data w =
  (if event_shaped message then
     match field message "event" with
     | Some event =>
         thrown ← emitEvent event (of_opt (field message "data"));
         match thrown with
         | Some _ => tell [Console LError "[Gateway] Failed to parse message:"]
         | None => ret tt
         end
     | None => ret tt
     end
   else if truthy (field message "id") then
     w ← get;
     match pending_for (this w) (field message "id") with
     | Some (id, pending) =>
         clearTimeout (timeout pending) ;;
         upd_this (fun c => set_pendingRequests (delete id (pendingRequests c)) c) ;;
         tell [outcome pending message]
     | None => ret tt
     end
   else ret tt) w.
Proof.
  intros Hp Hn. unfold handleMessage, event_shaped, outcome, error_text. rewrite Hp.
  destruct message; try congruence;
    repeat match goal with
           | |- context [if ?b then _ else _] => destruct b
           | |- context [match ?x with Some _ => _ | None => _ end] => destruct x
           | |- context [match ?x with (_, _) => _ end] => destruct x
           end; reflexivity.
Qed.

(** [emitEvent] inside the [try] of [handleMessage]. *)
Lemma emitEvent_caught e d w :
  (thrown ← emitEvent e d;
   match thrown with
   | Some _ => tell [Console LError "[Gateway] Failed to parse message:"]
   | None => ret tt
   end) w =
  (tt, world_of (emitEvent e d w), trace_of (emitEvent e d w) ++ caught (emitEvent_thrown e)).
Proof.
  rewrite bind_eq, emitEvent_eq, !world_of_mk, !trace_of_mk, !value_of_mk.
  unfold emitEvent_thrown. destruct (converts e); reflexivity.
Qed.

(** The four ways [handleMessage] can go. *)
Lemma handleMessage_cases (JSON_parse : string -> option json) data w :
  (handleMessage JSON_parse data w
     = (tt, w, [Console LError "[Gateway] Failed to parse message:"])
   /\ (JSON_parse data = None \/ JSON_parse data = Some JNull))
  \/ (exists message event,
        JSON_parse data = Some message /\ event_shaped message = true
        /\ field message "event" = Some event
        /\ handleMessage JSON_parse data w
           = (tt, world_of (emitEvent event (of_opt (field message "data")) w),
              trace_of (emitEvent event (of_opt (field message "data")) w)
              ++ caught (emitEvent_thrown event)))
  \/ (exists message id pr,
        JSON_parse data = Some message /\ event_shaped message = false
        /\ field message "id" = Some (JStr id)
        /\ pendingRequests (this w) !! id = Some pr
        /\ handleMessage JSON_parse data w
           = (tt,
              {| this := set_pendingRequests (delete id (pendingRequests (this w))) (this w);
                 rt := set_timers (delete (timeout pr) (timers (rt w))) (rt w) |},
              [ClearTimeout (timeout pr); outcome pr message]))
  \/ (exists message,
        JSON_parse data = Some message /\ event_shaped message = false
        /\ (forall id, id <> "" -> is_Some (pendingRequests (this w) !! id) ->
              is_str (field message "id") id = false)
        /\ handleMessage JSON_parse data w = (tt, w, [])).
Proof.
  destruct (JSON_parse data) as [message|] eqn:Hp.
  2:{ left. unfold handleMessage. rewrite Hp. auto. }
  assert (Hnull : message = JNull \/ message <> JNull)
    by (destruct message; auto; right; discriminate).
  destruct Hnull as [->|Hn].
  { left. unfold handleMessage. rewrite Hp. auto. }
  right. rewrite (handleMessage_parsed _ _ _ _ Hp Hn).
  destruct (event_shaped message) eqn:Hev.
  - left. pose proof Hev as Htr. unfold event_shaped in Htr.
    apply andb_true_iff in Htr as [_ Htr].
    destruct (field message "event") as [event|] eqn:He; [|discriminate].
    exists message, event. rewrite emitEvent_caught. auto.
  - right. destruct (truthy (field message "id")) eqn:Hid.
    + unfold mbind, M_bind, bind, get.
      destruct (pending_for (this w) (field message "id")) as [[id pr]|] eqn:Hpf.
      * left. unfold pending_for in Hpf.
        destruct (field message "id") as [[| | |k| |]|] eqn:Hf; try discriminate.
        destruct (pendingRequests (this w) !! k) as [pr0|] eqn:Hk; [|discriminate].
        cbn in Hpf. injection Hpf as <- <-.
        exists message, k, pr0. repeat split; auto.
      * right. exists message. repeat split; auto.
        intros id Hne [pr Hpr]. unfold is_str, pending_for in *.
        destruct (field message "id") as [[| | |k| |]|]; try reflexivity.
        destruct (String.eqb_spec k id) as [->|]; [|reflexivity].
        rewrite Hpr in Hpf. discriminate.
    + right. exists message. repeat split; auto.
      intros id Hne _. unfold is_str, truthy in *.
      destruct (field message "id") as [[| | |k| |]|]; try reflexivity.
      cbn in Hid. destruct (String.eqb_spec k id) as [->|]; [|reflexivity].
      destruct (String.eqb_spec id ""); [congruence|discriminate].
Qed.

(** C8, as the code has it. [handleMessage] takes a parsed frame for an
    event exactly when its [type] is the string [event] and its [event] is
    truthy: it is then handed to [emitEvent] whatever [id] it carries, and
    the pending requests stay as they are; a frame of any other shape
    reaches no listener and is not buffered. When the [id] of such a frame
    matches no pending request, [handleMessage] does nothing at all; and
    unless a handshake listening on the socket awaits that [id], the whole
    [message] event leaves the world as it is and does nothing to the
    outside. *)
Theorem frame_is_event_by_type_not_by_id
    (JSON_parse : string -> option json) (data : string) (message : json)
    (s : socket_ref) (w : World) :
  JSON_parse data = Some message ->
  message <> JNull ->
  let r := handleMessage JSON_parse data w in
  (forall event,
     is_str (field message "type") "event" = true ->
     field message "event" = Some event ->
     truthy_json event = true ->
     let d := emitEvent event (of_opt (field message "data")) w in
     world_of r = world_of d
     /\ trace_of r = trace_of d ++ caught (value_of d)
     /\ pendingRequests (this (world_of r)) = pendingRequests (this w))
  /\ (event_shaped message = false ->
      eventBuffer (this (world_of r)) = eventBuffer (this w)
      /\ Forall (fun e => is_invoke e = false) (trace_of r))
  /\ (event_shaped message = false ->
      pending_for (this w) (field message "id") = None ->
      r = (tt, w, [])
      /\ ((forall i hs, handshakes (rt w) !! i = Some hs -> hs_listener hs = Some s ->
             is_str (field message "id") (hs_id hs) = false) ->
          exec JSON_parse (SockMessage s data) w = (tt, w, []))).
Proof.
  intros Hp Hn r. subst r. rewrite (handleMessage_parsed _ _ _ _ Hp Hn). split; [|split].
  - intros event Ht He Htr d. subst d. unfold event_shaped. rewrite Ht, He. cbn [truthy andb].
    rewrite Htr, emitEvent_caught, world_of_mk, trace_of_mk.
    split; [reflexivity|]. split.
    + rewrite emitEvent_eq, value_of_mk. reflexivity.
    + rewrite emitEvent_world. cbn [this]. destruct (buffered event); reflexivity.
  - intros ->. destruct (truthy (field message "id")); [|split; [reflexivity|constructor]].
    unfold mbind, M_bind, bind, get.
    destruct (pending_for (this w) (field message "id")) as [[id pr]|];
      [|split; [reflexivity|constructor]].
    unfold clearTimeout, upd_rt, upd_this, tell, mbind, M_bind, bind, world_of, trace_of.
    cbn [fst snd this eventBuffer set_pendingRequests app]. split; [reflexivity|].
    repeat constructor. unfold outcome.
    destruct (truthy (field message "error")); [destruct (converts _)|]; reflexivity.
  - intros Hev Hpend. rewrite Hev.
    assert (Hh : (if truthy (field message "id")
                  then w0 ← get;
                       match pending_for (this w0) (field message "id") with
                       | Some (id, pending) =>
                           clearTimeout (timeout pending) ;;
                           upd_this (fun c =>
                             set_pendingRequests (delete id (pendingRequests c)) c) ;;
                           tell [outcome pending message]
                       | None => ret tt
                       end
                  else ret tt) w = (tt, w, [])).
    { destruct (truthy (field message "id")); [|reflexivity].
      unfold mbind, M_bind, bind, get. rewrite Hpend. reflexivity. }
    split; [exact Hh|]. intros Hhs.
    assert (Hm : handleMessage JSON_parse data w = (tt, w, [])).
    { rewrite (handleMessage_parsed _ _ _ _ Hp Hn), Hev. exact Hh. }
    assert (Hon : onmessage JSON_parse s data w = (tt, w, [])).
    { unfold onmessage. unfold mbind, M_bind, bind. rewrite Hm. unfold get.
      rewrite for_each_skip; [reflexivity|].
      intros i.
      destruct (handshakes (rt w) !! i) as [hs|] eqn:Ei; [|reflexivity].
      case_bool_decide as Hl; [|reflexivity].
      unfold handleAuthResponse. unfold mbind, M_bind, bind, get.
      rewrite Ei, Hp, (Hhs i hs Ei Hl). reflexivity. }
    unfold exec. unfold mbind, M_bind, bind, get.
    destruct (socket_state w s) as [[]|]; rewrite ?Hon; reflexivity.
Qed.

Lemma frame_is_event_by_type_not_by_id_witness :
  sample_parse frame_event
    = Some (JObj [("type", JStr "event"); ("event", JStr "tick"); ("data", JNull)])
  /\ world_of (handleMessage sample_parse frame_event sample_busy)
     = world_of (emitEvent (JStr "tick") (VJson JNull) sample_busy)
  /\ trace_of (handleMessage sample_parse frame_event sample_busy)
     = trace_of (emitEvent (JStr "tick") (VJson JNull) sample_busy)
       ++ caught (value_of (emitEvent (JStr "tick") (VJson JNull) sample_busy))
  /\ sample_parse frame_unmatched = Some (JObj [("id", JStr "zz"); ("result", JBool true)])
  /\ exec sample_parse (SockMessage 0%nat frame_unmatched) sample_busy = (tt, sample_busy, []).
Proof.
  assert (H : sample_parse frame_event
              = Some (JObj [("type", JStr "event"); ("event", JStr "tick"); ("data", JNull)]))
    by reflexivity.
  assert (H' : sample_parse frame_unmatched
               = Some (JObj [("id", JStr "zz"); ("result", JBool true)]))
    by reflexivity.
  split; [exact H|].
  destruct (proj1 (frame_is_event_by_type_not_by_id sample_parse frame_event _ 0%nat
                     sample_busy H ltac:(discriminate))
              (JStr "tick") eq_refl eq_refl eq_refl) as (Hw & Ht & _).
  split; [exact Hw|]. split; [exact Ht|]. split; [exact H'|].
  refine (proj2 (proj2 (proj2 (frame_is_event_by_type_not_by_id sample_parse frame_unmatched
                                 _ 0%nat sample_busy H' ltac:(discriminate)))
                   eq_refl _) _).
  - vm_compute. reflexivity.
  - intros i hs Hi Hl.
    assert (E : handshakes (rt sample_busy)
                = [{| hs_id := "a1"; hs_timeout := 0%nat; hs_listener := None;
                      hs_settled := true; hs_reject := 0%nat |}])
      by (vm_compute; reflexivity).
    rewrite E in Hi. destruct i as [|[|i]]; cbn in Hi; try discriminate Hi.
    injection Hi as <-. discriminate Hl.
Defined.

(** C8 as stated fails: with two calls in flight and a wildcard listener
    registered, a frame whose id [zz] matches neither call reaches no
    listener and leaves no trace at all. *)
Lemma unmatched_id_is_dropped_not_dispatched :
  sample_parse frame_unmatched = Some (JObj [("id", JStr "zz"); ("result", JBool true)])
  /\ pendingRequests (this sample_busy) !! "zz" = None
  /\ wildcardListeners (this sample_busy) = [1%nat]
  /\ handleMessage sample_parse frame_unmatched sample_busy = (tt, sample_busy, []).
Proof.
  split; [reflexivity|]. split; [vm_compute; reflexivity|]. split; [vm_compute; reflexivity|].
  vm_compute. reflexivity.
Qed.

(** ** RPC correlator and teardown *)

Lemma ws_is_open_spec w :
  ws_is_open w = true <->
  exists s, ws (this w) = Some s /\ socket_state w s = Some OPEN.
Proof.
  unfold ws_is_open. destruct (ws (this w)) as [s|].
  2:{ split; [discriminate|]. intros (s & H & _). discriminate. }
  destruct (socket_state w s) as [st|] eqn:E.
  - split.
    + intros H. exists s. split; [reflexivity|]. destruct st; try discriminate; exact E.
    + intros (s' & Hs & Ho). injection Hs as <-. rewrite E in Ho. injection Ho as ->.
      reflexivity.
  - split; [discriminate|]. intros (s' & Hs & Ho). injection Hs as <-.
    rewrite E in Ho. discriminate.
Qed.

(** [call] on a socket that is not open. *)
Lemma call_closed id method params w :
  ws_is_open w = false ->
  call id method params w =
  (next_promise (rt w),
   {| this := this w; rt := set_next_promise (S (next_promise (rt w))) (rt w) |},
   [Reject (next_promise (rt w)) (VError (JStr "WebSocket not connected"))]).
Proof.
  intros Hclosed. unfold call, new_promise. unfold mbind, M_bind, bind, get.
  change (ws_is_open _) with (ws_is_open w). rewrite Hclosed. reflexivity.
Qed.

(** [call] on an open socket. *)
Lemma call_open id method params w s :
  ws (this w) = Some s ->
  socket_state w s = Some OPEN ->
  call id method params w =
  (next_promise (rt w),
   {| this := set_pendingRequests
                (<[id := {| resolve := next_promise (rt w); reject := next_promise (rt w);
                            timeout := next_timer (rt w) |}]> (pendingRequests (this w)))
                (this w);
      rt := set_next_timer (S (next_timer (rt w)))
              (set_timers (<[next_timer (rt w) :=
                               (now (rt w) + 30000, RpcTimeout id (next_promise (rt w)))]>
                             (timers (rt w)))
                 (set_next_promise (S (next_promise (rt w))) (rt w))) |},
   [SetTimeout (next_timer (rt w)) 30000 (RpcTimeout id (next_promise (rt w)));
    WsSend s (VRecord [("id", VJson (JStr id)); ("method", VJson (JStr method));
                       ("params", params)])]).
Proof.
  intros Hs Hopen.
  assert (Ho : ws_is_open w = true) by (apply ws_is_open_spec; eauto).
  unfold call, new_promise. unfold mbind, M_bind, bind, get.
  change (ws_is_open _) with (ws_is_open w). rewrite Ho. cbn [negb].
  unfold setTimeout, upd_this, ws_send, get, tell, ret, mbind, M_bind, bind.
  cbn [this rt]. rewrite Hs.
  change (socket_state _ s) with (socket_state w s). rewrite Hopen.
  reflexivity.
Qed.

(** C6, as the code has it. [call] looks at the socket only: with no
    socket, or one that is not open, the promise it returns is rejected at
    once with [WebSocket not connected], nothing is written, no timer is
    armed and the client is left as it was. With an open socket the request
    is registered and written, authenticated or not. *)
Theorem call_needs_an_open_socket
    (w : World) (id method : string) (params : value) :
  ws_is_open w = false ->
  let p := next_promise (rt w) in
  call id method params w
    = (p, {| this := this w; rt := set_next_promise (S p) (rt w) |},
       [Reject p (VError (JStr "WebSocket not connected"))])
  /\ (forall w' s,
        ws (this w') = Some s ->
        socket_state w' s = Some OPEN ->
        let p' := next_promise (rt w') in
        let h := next_timer (rt w') in
        let r := call id method params w' in
        value_of r = p'
        /\ trace_of r =
             [SetTimeout h 30000 (RpcTimeout id p');
              WsSend s (VRecord [("id", VJson (JStr id)); ("method", VJson (JStr method));
                                 ("params", params)])]
        /\ pendingRequests (this (world_of r)) =
             <[id := {| resolve := p'; reject := p'; timeout := h |}]>
               (pendingRequests (this w'))).
Proof.
  intros Hclosed p. split; [apply call_closed, Hclosed|].
  intros w' s Hs Hopen p' h r. subst r. rewrite (call_open _ _ _ _ _ Hs Hopen).
  repeat split.
Qed.

Lemma call_needs_an_open_socket_witness :
  ws_is_open (fresh_world (Some "token")) = false
  /\ call "c1" "getBalance" VUndefined (fresh_world (Some "token"))
     = (0%nat,
        {| this := this (fresh_world (Some "token"));
           rt := set_next_promise 1%nat (rt (fresh_world (Some "token"))) |},
        [Reject 0%nat (VError (JStr "WebSocket not connected"))]).
Proof.
  assert (H : ws_is_open (fresh_world (Some "token")) = false) by reflexivity.
  split; [exact H|].
  exact (proj1 (call_needs_an_open_socket (fresh_world (Some "token")) "c1" "getBalance"
                  VUndefined H)).
Defined.

(** C6 as stated fails: while the handshake is still awaited the client is
    not connected in the sense of [isConnected], yet [call] arms the timer,
    registers the request and writes it to the socket. *)
Lemma call_goes_out_before_authentication :
  isConnected sample_authenticating = false
  /\ connectionState sample_authenticating = Authenticating
  /\ trace_of (call "c1" "getBalance" VUndefined sample_authenticating) =
       [SetTimeout 1%nat 30000 (RpcTimeout "c1" 1%nat);
        WsSend 0%nat (VRecord [("id", VJson (JStr "c1")); ("method", VJson (JStr "getBalance"));
                               ("params", VUndefined)])]
  /\ pendingRequests (this (world_of (call "c1" "getBalance" VUndefined sample_authenticating)))
       !! "c1" = Some {| resolve := 1%nat; reject := 1%nat; timeout := 1%nat |}.
Proof. repeat split; vm_compute; reflexivity. Qed.

Lemma clearTimeout_eq h w :
  clearTimeout h w =
  (tt, {| this := this w; rt := set_timers (delete h (timers (rt w))) (rt w) |},
   [ClearTimeout h]).
Proof. reflexivity. Qed.

Lemma clear_then_tell h t w :
  (clearTimeout h ;; tell t) w =
  (tt, {| this := this w; rt := set_timers (delete h (timers (rt w))) (rt w) |},
   ClearTimeout h :: t).
Proof. reflexivity. Qed.

Lemma disconnect_loop l w :
  for_each l (fun kv : string * PendingRequest =>
    clearTimeout (timeout kv.2) ;;
    tell [Reject (reject kv.2) (VError (JStr "Connection closed"))]) w =
  (tt,
   {| this := this w;
      rt := set_timers (foldl (fun m kv => delete (timeout kv.2) m) (timers (rt w)) l) (rt w) |},
   flat_map closed_by_disconnect l).
Proof.
  revert w. induction l as [|kv l IH]; intros w.
  - destruct w as [c r]. destruct r. reflexivity.
  - cbn [for_each]. rewrite bind_eq, clear_then_tell.
    rewrite !world_of_mk, !trace_of_mk, IH, !world_of_mk, !trace_of_mk, value_of_mk.
    destruct w as [c r]. destruct r. reflexivity.
Qed.

Lemma foldl_delete_lookup (l : list (string * PendingRequest))
    (m : gmap timer_handle (Z * timer_task)) h :
  foldl (fun m kv => delete (timeout kv.2) m) m l !! h =
  if bool_decide (h ∈ (fun kv => timeout kv.2) <$> l) then None else m !! h.
Proof.
  revert m. induction l as [|kv l IH]; intros m; [reflexivity|].
  cbn [foldl]. rewrite IH. destruct (decide (h = timeout kv.2)) as [->|Hne].
  - rewrite lookup_delete_eq. rewrite (bool_decide_eq_true_2 (_ ∈ _ <$> _ :: _)) by left.
    destruct (bool_decide _); reflexivity.
  - rewrite lookup_delete_ne by congruence.
    destruct (decide (h ∈ (fun kv => timeout kv.2) <$> l)) as [Hin|Hout].
    + rewrite !bool_decide_eq_true_2; auto. right. exact Hin.
    + rewrite !bool_decide_eq_false_2; auto.
      intros Hc. apply elem_of_cons in Hc as [?|?]; [congruence|contradiction].
Qed.

(** The world and the trace [disconnect] ends with. *)
Lemma disconnect_spec w :
  let l := pending_in_order (this w) in
  this (world_of (disconnect w)) =
    {| ws := None; pendingRequests := ∅;
       eventListeners := eventListeners (this w);
       wildcardListeners := wildcardListeners (this w);
       reconnectAttempts := reconnectAttempts (this w);
       maxReconnectAttempts := maxReconnectAttempts (this w);
       reconnectDelay := reconnectDelay (this w);
       intentionalDisconnect := true; connectionPromise := None;
       connectionResolve := connectionResolve (this w);
       authenticated := false; eventBuffer := [] |}
  /\ timers (rt (world_of (disconnect w))) =
       foldl (fun m kv => delete (timeout kv.2) m) (timers (rt w)) l
  /\ trace_of (disconnect w) =
       match ws (this w) with Some s => [WsClose s] | None => [] end
       ++ flat_map closed_by_disconnect l.
Proof.
  intros l. subst l. unfold disconnect, pending_in_order.
  unfold mbind, M_bind, bind, get, upd_this. cbn [this rt].
  destruct w as [c r]. cbn [this rt]. destruct c as [[s|] ? ? ? ? ? ? ? ? ? ? ?];
    cbn [ws set_authenticated set_intentionalDisconnect pendingRequests this rt].
  - unfold ws_close, mbind, M_bind, bind, get, tell, ret. unfold socket_state. cbn [this rt].
    destruct (sockets r !! s) as [[[] ?]|] eqn:Es;
      cbn [fmap option_fmap option_map ws_readyState];
      unfold set_socket_state, upd_rt, ret; cbn [this rt]; rewrite ?Es;
      rewrite disconnect_loop; unfold world_of, trace_of;
      destruct r; cbn; rewrite ?app_nil_r; repeat split.
  - unfold ret. rewrite disconnect_loop. unfold world_of, trace_of.
    destruct r; cbn; rewrite ?app_nil_r; repeat split.
Qed.

(** The world and the trace [onclose] ends with. *)
Lemma onclose_eq w :
  let c := this w in
  let c' := set_connectionPromise None (set_authenticated false c) in
  onclose w =
  (tt,
   (if will_reconnect c then
      {| this := set_reconnectDelay (Z.min (reconnectDelay c * 2) 30000)
                   (set_reconnectAttempts (reconnectAttempts c + 1) c');
         rt := set_next_timer (S (next_timer (rt w)))
                 (set_timers (<[next_timer (rt w) := (now (rt w) + reconnectDelay c, Reconnect)]>
                                (timers (rt w))) (rt w)) |}
    else {| this := c'; rt := rt w |}),
   Console LLog "[Gateway] Connection closed"
   :: emitEvent_effects (JStr "disconnected") (VRecord []) (set_authenticated false c)
   ++ (if will_reconnect c then
         [Console LLog "[Gateway] Reconnecting in ${this.reconnectDelay}ms (attempt ${this.reconnectAttempts})";
          SetTimeout (next_timer (rt w)) (reconnectDelay c) Reconnect]
       else [])).
Proof.
  intros c c'. subst c c'. unfold onclose.
  unfold mbind, M_bind, bind at 1 2. unfold tell at 1. unfold upd_this at 1. cbn [this rt].
  unfold mbind, M_bind, bind at 1.
  rewrite emitEvent_lifecycle by reflexivity.
  unfold mbind, M_bind, bind, get, upd_this, when. cbn [this rt].
  unfold will_reconnect. destruct w as [c r]. cbn [this rt].
  change (intentionalDisconnect (set_connectionPromise None (set_authenticated false c)))
    with (intentionalDisconnect c).
  change (reconnectAttempts (set_connectionPromise None (set_authenticated false c)))
    with (reconnectAttempts c).
  change (maxReconnectAttempts (set_connectionPromise None (set_authenticated false c)))
    with (maxReconnectAttempts c).
  destruct (negb (intentionalDisconnect c) && (reconnectAttempts c <? maxReconnectAttempts c));
    unfold mbind, M_bind, bind, tell, setTimeout, ret; cbn [this rt app];
    rewrite ?app_nil_r; reflexivity.
Qed.

Lemma emitEvent_effects_dispatch e d c :
  Forall (fun x => is_dispatch x = true) (emitEvent_effects e d c).
Proof.
  unfold emitEvent_effects. destruct (converts e); [|constructor].
  rewrite !Forall_app. repeat split.
  - destruct (negb _); repeat constructor.
  - destruct (listeners_for c e); [|repeat constructor].
    apply Forall_cons. split; [reflexivity|].
    apply Forall_forall. intros x Hx. apply list_elem_of_fmap in Hx as [? [-> _]]. reflexivity.
  - apply Forall_forall. intros x Hx. apply list_elem_of_fmap in Hx as [? [-> _]]. reflexivity.
Qed.

Lemma caught_dispatch o : Forall (fun x => is_dispatch x = true) (caught o).
Proof. destruct o; repeat constructor. Qed.

Lemma handled_dispatch e d c o :
  Forall (fun x => is_dispatch x = true) (emitEvent_effects e d c ++ caught o).
Proof.
  apply Forall_app. split; [apply emitEvent_effects_dispatch|apply caught_dispatch].
Qed.

Lemma dispatch_no_reconnect t :
  Forall (fun x => is_dispatch x = true) t -> reconnect_delays t = [].
Proof.
  induction 1 as [|x l Hx _ IH]; [reflexivity|].
  unfold reconnect_delays in *. cbn [omap list_omap]. destruct x; try discriminate; exact IH.
Qed.

Lemma dispatch_no_settlement t :
  Forall (fun x => is_dispatch x = true) t -> Forall (fun e => is_settlement e = false) t.
Proof.
  intros H. eapply Forall_impl; [exact H|]. intros [] Hx; try discriminate; reflexivity.
Qed.

(** A due timer of [call] removes the request and rejects its promise. *)
Lemma fire_rpc_timeout h due id p w :
  timers (rt w) !! h = Some (due, RpcTimeout id p) ->
  fire h w =
  (tt,
   {| this := set_pendingRequests (delete id (pendingRequests (this w))) (this w);
      rt := set_timers (delete h (timers (rt w))) (set_now (Z.max (now (rt w)) due) (rt w)) |},
   [Reject p (VError (JStr "RPC call timed out"))]).
Proof.
  intros H. unfold fire. unfold mbind, M_bind, bind, get.
  rewrite H. reflexivity.
Qed.

(** C9, as the code has it. [disconnect()] leaves the client without a
    socket, unauthenticated and with no connection attempt in progress (the
    state the design calls Disconnected), empties the table of pending
    requests and the event buffer, and marks the closure as intended; the
    listeners, of topics and wildcard alike, stay registered. *)
Theorem disconnect_keeps_listeners (w : World) :
  let w' := world_of (disconnect w) in
  connectionState w' = Disconnected
  /\ isConnected w' = false
  /\ ws (this w') = None
  /\ authenticated (this w') = false
  /\ connectionPromise (this w') = None
  /\ pendingRequests (this w') = ∅
  /\ eventBuffer (this w') = []
  /\ intentionalDisconnect (this w') = true
  /\ eventListeners (this w') = eventListeners (this w)
  /\ wildcardListeners (this w') = wildcardListeners (this w).
Proof.
  intros w'. subst w'. destruct (disconnect_spec w) as (Hthis & _ & _).
  unfold connectionState, isConnected, ws_is_open. rewrite Hthis. cbn.
  repeat split.
Qed.

(** C9 as stated fails: a client with a wildcard listener and a listener
    for [tick] still has both after [disconnect()], and both are still
    called. *)
Lemma listeners_survive_disconnect :
  wildcardListeners (this (world_of (disconnect sample_listening))) = [1%nat]
  /\ eventListeners (this (world_of (disconnect sample_listening))) !! "tick" = Some [2%nat]
  /\ trace_of (emitEvent (JStr "tick") VUndefined (world_of (disconnect sample_listening)))
     = [Console LLog "[Gateway] Event received: ${event}";
        Console LLog "[Gateway] Found ${listeners.size} listener(s) for event: ${event}";
        Invoke 2%nat VUndefined;
        Invoke 1%nat (entry (JStr "tick") VUndefined)].
Proof. repeat split; vm_compute; reflexivity. Qed.

Lemma elem_of_pending_in_order c id pr :
  (id, pr) ∈ pending_in_order c <-> pendingRequests c !! id = Some pr.
Proof.
  unfold pending_in_order. rewrite merge_sort_Permutation. apply elem_of_map_to_list.
Qed.

Lemma pending_in_order_reject_in c id pr :
  pendingRequests c !! id = Some pr ->
  In (Reject (reject pr) (VError (JStr "Connection closed")))
     (flat_map closed_by_disconnect (pending_in_order c)).
Proof.
  intros H. apply in_flat_map. exists (id, pr). split.
  - apply list_elem_of_In, elem_of_pending_in_order. exact H.
  - right. left. reflexivity.
Qed.

Lemma timers_allocated_check w :
  bool_decide (map_Forall (fun h _ => (h < next_timer (rt w))%nat) (timers (rt w))) = true ->
  timers_allocated w.
Proof.
  intros H h t Ht. apply bool_decide_eq_true_1 in H. exact (H h t Ht).
Qed.


(** ** Correlation of responses *)

Lemma settlements_of_app pr t1 t2 :
  settlements_of pr (t1 ++ t2) = settlements_of pr t1 ++ settlements_of pr t2.
Proof. apply filter_app. Qed.

Lemma settlements_of_dispatch pr t :
  Forall (fun x => is_dispatch x = true) t -> settlements_of pr t = [].
Proof.
  induction 1 as [|x l Hx _ IH]; [reflexivity|].
  unfold settlements_of in *. rewrite filter_cons_False; [exact IH|].
  destruct x; try discriminate; cbn; discriminate.
Qed.

Lemma settlements_of_outcome pr message :
  settlements_of pr [outcome pr message]
  = filter (fun e => is_settlement e = true) [outcome pr message].
Proof.
  unfold settlements_of, outcome.
  destruct (truthy _); [destruct (converts _)|].
  - rewrite !filter_cons_True; [reflexivity..|]. cbn. apply Nat.eqb_refl.
  - rewrite !filter_cons_False; [reflexivity|discriminate|discriminate].
  - rewrite !filter_cons_True; [reflexivity..|]. cbn. apply Nat.eqb_refl.
Qed.

Lemma settles_outcome_other pr pr' message :
  resolve pr' <> resolve pr -> reject pr' <> reject pr ->
  settles pr (outcome pr' message) = false.
Proof.
  intros H1 H2. unfold outcome. destruct (truthy _); [destruct (converts _)|]; cbn;
    try reflexivity; apply Nat.eqb_neq; assumption.
Qed.

Lemma handle_all_cons (JSON_parse : string -> option json) data frames w :
  handle_all JSON_parse (data :: frames) w =
  (tt,
   world_of (handle_all JSON_parse frames (world_of (handleMessage JSON_parse data w))),
   trace_of (handleMessage JSON_parse data w)
   ++ trace_of (handle_all JSON_parse frames (world_of (handleMessage JSON_parse data w)))).
Proof.
  unfold handle_all. cbn [for_each]. rewrite bind_eq.
  destruct (for_each frames _ _) as [[[] w'] t]. reflexivity.
Qed.

(** Once no pending request holds a promise of [pr], no frame settles it. *)
Lemma handle_all_quiet (JSON_parse : string -> option json) pr frames w :
  no_promise_of pr (this w) ->
  settlements_of pr (trace_of (handle_all JSON_parse frames w)) = [].
Proof.
  revert w. induction frames as [|data frames IH]; intros w Hw; [reflexivity|].
  rewrite handle_all_cons, trace_of_mk, settlements_of_app.
  destruct (handleMessage_cases JSON_parse data w)
    as [[-> _]|[(m & ev & _ & _ & _ & ->)|[(m & id' & pr' & _ & _ & _ & Hl & ->)
                                          |(m & _ & _ & _ & ->)]]].
  - rewrite world_of_mk, trace_of_mk, IH by exact Hw. reflexivity.
  - rewrite emitEvent_eq, !world_of_mk, !trace_of_mk, IH.
    + rewrite settlements_of_dispatch by apply handled_dispatch. reflexivity.
    + intros i p Hp. apply (Hw i p). cbn [this] in Hp. destruct (buffered ev); exact Hp.
  - rewrite world_of_mk, trace_of_mk, IH.
    + destruct (Hw _ _ Hl) as [H1 H2].
      unfold settlements_of. rewrite filter_cons_False by (cbn; discriminate).
      rewrite filter_cons_False; [reflexivity|].
      rewrite (settles_outcome_other _ _ _ H1 H2). discriminate.
    + intros i p Hp. cbn [this pendingRequests set_pendingRequests] in Hp.
      apply lookup_delete_Some in Hp as [_ Hp]. exact (Hw i p Hp).
  - rewrite world_of_mk, trace_of_mk, IH by exact Hw. reflexivity.
Qed.

Lemma response_to_spec (JSON_parse : string -> option json) id data message :
  JSON_parse data = Some message ->
  response_to JSON_parse id data = negb (event_shaped message) && is_str (field message "id") id.
Proof. intros H. unfold response_to. rewrite H. reflexivity. Qed.

Lemma is_str_JStr k id : is_str (Some (JStr k)) id = true <-> k = id.
Proof. cbn. apply String.eqb_eq. Qed.

(** While [id] is pending with promises of its own, the settlement of its
    promise over a run of frames is what the first response carrying [id]
    brings. *)
Lemma handle_all_settlement (JSON_parse : string -> option json) id pr frames w :
  pendingRequests (this w) !! id = Some pr ->
  id <> "" ->
  own_promise id pr (this w) ->
  settlements_of pr (trace_of (handle_all JSON_parse frames w)) =
  match responses_to JSON_parse id frames with
  | data :: _ => outcome_of JSON_parse pr data
  | [] => []
  end.
Proof.
  intros Hpr Hid. revert w Hpr.
  induction frames as [|data frames IH]; intros w Hpr Hown; [reflexivity|].
  rewrite handle_all_cons, trace_of_mk, settlements_of_app. unfold responses_to in *.
  destruct (handleMessage_cases JSON_parse data w)
    as [[-> Hp]|[(m & ev & Hp & Hev & _ & ->)|[(m & id' & pr' & Hp & Hev & Hf & Hl & ->)
                                              |(m & Hp & Hev & Hno & ->)]]].
  - rewrite world_of_mk, trace_of_mk, filter_cons_False.
    + rewrite IH by assumption. reflexivity.
    + unfold response_to. destruct Hp as [-> | ->]; cbn; discriminate.
  - rewrite emitEvent_eq, !world_of_mk, !trace_of_mk, filter_cons_False, IH.
    + rewrite settlements_of_dispatch by apply handled_dispatch. reflexivity.
    + cbn [this]. destruct (buffered ev); exact Hpr.
    + intros i p Hne Hp'. apply (Hown i p Hne). cbn [this] in Hp'.
      destruct (buffered ev); exact Hp'.
    + rewrite (response_to_spec _ _ _ _ Hp), Hev. cbn. discriminate.
  - rewrite world_of_mk, trace_of_mk. destruct (decide (id' = id)) as [->|Hne].
    + assert (pr' = pr) as -> by congruence.
      rewrite filter_cons_True.
      2:{ rewrite (response_to_spec _ _ _ _ Hp), Hev, Hf. cbn. apply String.eqb_refl. }
      rewrite handle_all_quiet.
      * unfold outcome_of. rewrite Hp, <- settlements_of_outcome.
        unfold settlements_of. rewrite filter_cons_False by (cbn; discriminate).
        rewrite app_nil_r. reflexivity.
      * intros i p Hp'. cbn [this pendingRequests set_pendingRequests] in Hp'.
        apply lookup_delete_Some in Hp' as [Hi Hp']. exact (Hown i p (not_eq_sym Hi) Hp').
    + rewrite filter_cons_False.
      2:{ rewrite (response_to_spec _ _ _ _ Hp), Hev, Hf. cbn.
          destruct (String.eqb_spec id' id); [contradiction|discriminate]. }
      rewrite IH.
      * destruct (Hown _ _ Hne Hl) as [H1 H2].
        unfold settlements_of. rewrite filter_cons_False by (cbn; discriminate).
        rewrite filter_cons_False; [reflexivity|].
        rewrite (settles_outcome_other _ _ _ H1 H2). discriminate.
      * cbn [this pendingRequests set_pendingRequests].
        rewrite lookup_delete_ne by congruence. exact Hpr.
      * intros i p Hi Hp'. cbn [this pendingRequests set_pendingRequests] in Hp'.
        apply lookup_delete_Some in Hp' as [_ Hp']. exact (Hown i p Hi Hp').
  - rewrite world_of_mk, trace_of_mk, filter_cons_False.
    + rewrite IH by assumption. reflexivity.
    + rewrite (response_to_spec _ _ _ _ Hp), Hev, (Hno id Hid) by eauto. cbn. discriminate.
Qed.

(** A response carrying the id of a pending request. *)
Lemma handleMessage_response (JSON_parse : string -> option json) data message id pr w :
  JSON_parse data = Some message ->
  event_shaped message = false ->
  field message "id" = Some (JStr id) ->
  id <> "" ->
  pendingRequests (this w) !! id = Some pr ->
  handleMessage JSON_parse data w =
  (tt,
   {| this := set_pendingRequests (delete id (pendingRequests (this w))) (this w);
      rt := set_timers (delete (timeout pr) (timers (rt w))) (rt w) |},
   [ClearTimeout (timeout pr); outcome pr message]).
Proof.
  intros Hp Hev Hf Hid Hl.
  destruct (handleMessage_cases JSON_parse data w)
    as [[_ Hp']|[(m & ev & Hp' & Hev' & _)|[(m & id' & pr' & Hp' & _ & Hf' & Hl' & ->)
                                           |(m & Hp' & _ & Hno & _)]]].
  - destruct Hp' as [Hp'|Hp']; rewrite Hp in Hp'; [discriminate|].
    injection Hp' as ->. discriminate.
  - rewrite Hp in Hp'. injection Hp' as <-. congruence.
  - rewrite Hp in Hp'. injection Hp' as <-. rewrite Hf in Hf'. injection Hf' as <-.
    rewrite Hl in Hl'. injection Hl' as <-. reflexivity.
  - rewrite Hp in Hp'. injection Hp' as <-.
    specialize (Hno id Hid (ex_intro _ pr Hl)). rewrite Hf in Hno.
    cbn in Hno. rewrite String.eqb_refl in Hno. discriminate.
Qed.

(** C1. Let [id] be pending, with promises no other pending request
    shares. A response carrying [id] (a frame that is not an event) clears
    the timeout of the request, removes its entry and nothing else from the
    table, and settles its promise: resolved with [result] when the frame
    has no [error]; rejected when it has one (truthy: the object of the
    wire format) whose message converts to a string, as every string
    does. With an error whose message does not convert, [new Error]
    throws once the entry is gone: the caller is not settled and the
    [catch] logs its line. Over any run of inbound frames, the promise
    is settled by the first response carrying [id] and by no other frame;
    so when one frame of the run carries [id], the settlement is the same
    in whatever order the frames arrive. *)
Theorem responses_settle_by_id
    (JSON_parse : string -> option json) (w : World) (id : string) (pr : PendingRequest)
    (frames : list string) :
  pendingRequests (this w) !! id = Some pr ->
  id <> "" ->
  own_promise id pr (this w) ->
  (forall data message,
     JSON_parse data = Some message ->
     event_shaped message = false ->
     field message "id" = Some (JStr id) ->
     handleMessage JSON_parse data w =
       (tt,
        {| this := set_pendingRequests (delete id (pendingRequests (this w))) (this w);
           rt := set_timers (delete (timeout pr) (timers (rt w))) (rt w) |},
        [ClearTimeout (timeout pr); outcome pr message])
     /\ (field message "error" = None ->
         outcome pr message = Resolve (resolve pr) (of_opt (field message "result")))
     /\ (forall props, field message "error" = Some (JObj props) ->
         let text := js_or (assoc "message" props) (JStr "RPC error") in
         outcome pr message =
           if converts text then Reject (reject pr) (VError text)
           else Console LError "[Gateway] Failed to parse message:"))
  /\ settlements_of pr (trace_of (handle_all JSON_parse frames w)) =
       match responses_to JSON_parse id frames with
       | data :: _ => outcome_of JSON_parse pr data
       | [] => []
       end
  /\ (forall data arrival,
        responses_to JSON_parse id frames = [data] ->
        arrival ≡ₚ frames ->
        settlements_of pr (trace_of (handle_all JSON_parse arrival w))
          = outcome_of JSON_parse pr data).
Proof.
  intros Hl Hid Hown. split; [|split].
  - intros data message Hp Hev Hf. split; [|split].
    + exact (handleMessage_response _ _ _ _ _ _ Hp Hev Hf Hid Hl).
    + intros He. unfold outcome. rewrite He. reflexivity.
    + intros props He text. subst text. unfold outcome, error_text. rewrite He. reflexivity.
  - apply handle_all_settlement; assumption.
  - intros data arrival Hone Hperm.
    rewrite (handle_all_settlement _ _ _ _ _ Hl Hid Hown).
    assert (Hr : responses_to JSON_parse id arrival = [data]).
    { apply Permutation_singleton_r. rewrite <- Hone. unfold responses_to.
      rewrite Hperm. reflexivity. }
    rewrite Hr. reflexivity.
Qed.

Lemma own_promise_check id pr c :
  bool_decide (map_Forall (fun id' pr' =>
                 id' <> id -> resolve pr' <> resolve pr /\ reject pr' <> reject pr)
               (pendingRequests c)) = true ->
  own_promise id pr c.
Proof.
  intros H id' pr' Hne Hl. apply bool_decide_eq_true_1 in H. exact (H id' pr' Hl Hne).
Qed.

Lemma responses_settle_by_id_witness :
  pendingRequests (this sample_busy) !! "c1"
    = Some {| resolve := 1%nat; reject := 1%nat; timeout := 1%nat |}
  /\ settlements_of {| resolve := 1%nat; reject := 1%nat; timeout := 1%nat |}
       (trace_of (handle_all sample_parse [frame_error; frame_event; frame_result] sample_busy))
     = match responses_to sample_parse "c1" [frame_error; frame_event; frame_result] with
       | data :: _ =>
           outcome_of sample_parse {| resolve := 1%nat; reject := 1%nat; timeout := 1%nat |} data
       | [] => []
       end.
Proof.
  assert (H1 : pendingRequests (this sample_busy) !! "c1"
               = Some {| resolve := 1%nat; reject := 1%nat; timeout := 1%nat |})
    by (vm_compute; reflexivity).
  assert (H2 : "c1" <> "") by discriminate.
  assert (H3 : own_promise "c1" {| resolve := 1%nat; reject := 1%nat; timeout := 1%nat |}
                 (this sample_busy))
    by (apply own_promise_check; vm_compute; reflexivity).
  split; [exact H1|].
  exact (proj1 (proj2 (responses_settle_by_id sample_parse sample_busy "c1" _
                         [frame_error; frame_event; frame_result] H1 H2 H3))).
Defined.

(** ** Stepping through handlers *)

Lemma ok_ret {A} (I : World -> Prop) φ (a : A) w : I w -> ok I φ (mret a) w.
Proof. intros H. split; [exact H|constructor]. Qed.

Lemma ok_bind {A B} (I : World -> Prop) φ (m : M A) (k : A -> M B) w :
  Forall φ (trace_of (m w)) ->
  ok I φ (k (value_of (m w))) (world_of (m w)) ->
  ok I φ (m ≫= k) w.
Proof.
  intros Ht [Hw Hk]. unfold ok. rewrite bind_eq, world_of_mk, trace_of_mk.
  split; [exact Hw|]. apply Forall_app. split; assumption.
Qed.

Lemma ok_bind_ok {A B} (I : World -> Prop) φ (m : M A) (k : A -> M B) w :
  ok I φ m w ->
  (I (world_of (m w)) -> ok I φ (k (value_of (m w))) (world_of (m w))) ->
  ok I φ (m ≫= k) w.
Proof.
  intros [Hw Ht] Hk. apply ok_bind; [exact Ht|]. apply Hk, Hw.
Qed.

Lemma bind_assoc {A B C} (m : M A) (k : A -> M B) (k' : B -> M C) w :
  ((m ≫= k) ≫= k') w = (m ≫= (fun a => k a ≫= k')) w.
Proof.
  unfold mbind, M_bind, bind. destruct (m w) as [[a w1] t1].
  destruct (k a w1) as [[b w2] t2]. destruct (k' b w2) as [[c w3] t3].
  rewrite app_assoc. reflexivity.
Qed.

Lemma ok_assoc {A B C} (I : World -> Prop) φ (m : M A) (k : A -> M B) (k' : B -> M C) w :
  ok I φ (m ≫= (fun a => k a ≫= k')) w -> ok I φ ((m ≫= k) ≫= k') w.
Proof. unfold ok. rewrite bind_assoc. auto. Qed.

Lemma ok_for_each {A} (I : World -> Prop) φ (l : list A) (f : A -> M unit) w :
  (forall x w, I w -> ok I φ (f x) w) -> I w -> ok I φ (for_each l f) w.
Proof.
  intros Hf. revert w. induction l as [|x l IH]; intros w Hw.
  - apply ok_ret, Hw.
  - cbn [for_each]. apply ok_bind_ok; [apply Hf, Hw|]. apply IH.
Qed.

Lemma ok_mono {A} (I : World -> Prop) (φ ψ : effect -> Prop) (m : M A) w :
  (forall e, φ e -> ψ e) -> ok I φ m w -> ok I ψ m w.
Proof. intros H [Hw Ht]. split; [exact Hw|]. eapply Forall_impl; eauto. Qed.

Lemma world_of_ret {A} (a : A) w : world_of (ret a w) = w.
Proof. reflexivity. Qed.

Lemma value_of_ret {A} (a : A) w : value_of (ret a w) = a.
Proof. reflexivity. Qed.

Lemma world_of_mret {A} (a : A) w : world_of ((mret a : M A) w) = w.
Proof. reflexivity. Qed.

Lemma value_of_mret {A} (a : A) w : value_of ((mret a : M A) w) = a.
Proof. reflexivity. Qed.

(** Unfolds the services of the runtime where they are applied. *)
Ltac prim :=
  rewrite ?world_of_ret, ?value_of_ret, ?world_of_mret, ?value_of_mret;
  unfold upd_this, upd_rt, tell, get, new_promise, setTimeout, clearTimeout,
    set_socket_state, new_WebSocket, value_of, world_of, trace_of;
  cbn [fst snd this rt].

(** One step through a handler: a branch is taken apart, a sequence is
    entered through its first computation, which is either a handler
    already dealt with (found among the hypotheses or by [tac]) or a
    service of the runtime. *)
Ltac ok_step tac :=
  lazymatch goal with
  | |- ok _ _ (mret _) _ => apply ok_ret
  | |- ok _ _ (ret _) _ => apply ok_ret
  | |- ok _ _ (when ?b _) _ => unfold when at 1; destruct b eqn:?
  | |- ok _ _ (if ?b then _ else _) _ => destruct b eqn:?
  | |- ok _ _ (match ?x with _ => _ end) _ => destruct x eqn:?
  | |- ok _ _ ((_ ≫= _) ≫= _) _ => apply ok_assoc
  | |- ok _ _ ((when ?b _) ≫= _) _ => unfold when at 1; destruct b eqn:?
  | |- ok _ _ ((if ?b then _ else _) ≫= _) _ => destruct b eqn:?
  | |- ok _ _ ((match ?x with _ => _ end) ≫= _) _ => destruct x eqn:?
  | |- ok _ _ ((mret _) ≫= _) _ => apply ok_bind; [constructor|prim]
  | |- ok _ _ ((ret _) ≫= _) _ => apply ok_bind; [constructor|prim]
  | |- ok _ _ (_ ≫= _) _ =>
      first [ apply ok_bind_ok; [solve [tac]|intros ?]
            | apply ok_bind; [prim; repeat constructor|prim] ]
  | |- ok _ _ _ _ => first [solve [tac] | split; [prim|prim; repeat constructor]]
  end.

(** Whether the computation [m] is an application of [c]. *)
Ltac head_is m c :=
  lazymatch m with
  | c => idtac
  | ?f _ => head_is f c
  end.

(** [tac], where the computation at hand is an application of [c]. *)
Ltac at_head c tac :=
  idtac;
  lazymatch goal with
  | |- ok _ _ ?m _ => head_is m c; tac
  end.

(** ** Handlers that leave the reconnect policy alone *)

Section Quiet.

(** What is kept is any reading [obs] of the policy fields and of the
    clock. *)
Variable T : Type.
Variable obs : Z * Z * Z * bool -> Z -> T.
Variable b : T.

Let I : World -> Prop := fun w => obs (policy (this w)) (now (rt w)) = b.

Lemma emitEvent_effects_silent e d c : Forall silent (emitEvent_effects e d c).
Proof.
  unfold emitEvent_effects. destruct (converts e); [|constructor].
  rewrite !Forall_app. repeat split.
  - destruct (negb _); repeat constructor.
  - destruct (listeners_for c e); [|repeat constructor].
    apply Forall_cons. split; [split; reflexivity|].
    apply Forall_forall. intros x Hx. apply list_elem_of_fmap in Hx as [? [-> _]].
    split; reflexivity.
  - apply Forall_forall. intros x Hx. apply list_elem_of_fmap in Hx as [? [-> _]].
    split; reflexivity.
Qed.

Lemma silent_invokes {A} (f : A -> callback) (g : A -> value) l :
  Forall silent (map (fun x => Invoke (f x) (g x)) l).
Proof.
  apply Forall_forall. intros x Hx. apply list_elem_of_fmap in Hx as [? [-> _]].
  split; reflexivity.
Qed.

Lemma emitEvent_quiet e d w : I w -> ok I silent (emitEvent e d) w.
Proof.
  intros Hw. unfold ok. rewrite emitEvent_eq, world_of_mk, trace_of_mk.
  split; [|apply emitEvent_effects_silent].
  unfold I in *. cbn [this]. destruct (buffered e); exact Hw.
Qed.

Lemma on_quiet topic cb w : I w -> ok I silent (on topic cb) w.
Proof.
  intros Hw. unfold on. destruct (String.eqb topic "*").
  - repeat ok_step ltac:(fail); try exact Hw.
    apply (silent_invokes (fun _ => cb) (fun e => entry e.1 e.2)).
  - repeat ok_step ltac:(fail).
    unfold I in *. destruct (eventListeners _ !! topic); cbn;
      destruct (eventListeners _ !! topic); exact Hw.
Qed.

Ltac quiet_leaf :=
  first [ assumption
        | apply silent_invokes
        | unfold I, policy in *; cbn in *; assumption
        | split; reflexivity ].

Lemma off_quiet topic cb w : I w -> ok I silent (off topic cb) w.
Proof.
  intros Hw. unfold off. repeat ok_step ltac:(fail); try quiet_leaf.
  unfold I, policy in *. destruct (eventListeners _ !! topic); exact Hw.
Qed.

Lemma ws_send_quiet s payload w : I w -> ok I silent (ws_send s payload) w.
Proof. intros Hw. unfold ws_send. repeat ok_step ltac:(fail); quiet_leaf. Qed.

Lemma ws_close_quiet s w : I w -> ok I silent (ws_close s) w.
Proof.
  intros Hw. unfold ws_close. repeat ok_step ltac:(fail); try quiet_leaf.
  all: unfold I, policy in *; cbn; destruct (sockets _ !! s); exact Hw.
Qed.

Lemma call_quiet id method params w : I w -> ok I silent (call id method params) w.
Proof.
  intros Hw. unfold call.
  repeat ok_step ltac:(eauto using ws_send_quiet); try quiet_leaf.
Qed.

Lemma rpc_timeout_quiet id p w : I w -> ok I silent (rpc_timeout id p) w.
Proof. intros Hw. unfold rpc_timeout. repeat ok_step ltac:(fail); quiet_leaf. Qed.

Lemma connect_quiet w : I w -> ok I silent connect w.
Proof. intros Hw. unfold connect. repeat ok_step ltac:(fail); quiet_leaf. Qed.

Lemma auth_succeeded_quiet w : I w -> ok I silent auth_succeeded w.
Proof.
  intros Hw. unfold auth_succeeded.
  repeat ok_step ltac:(eauto using emitEvent_quiet); try quiet_leaf.
Qed.

Lemma auth_failed_quiet p e w : I w -> ok I silent (auth_failed p e) w.
Proof.
  intros Hw. unfold auth_failed.
  repeat ok_step ltac:(eauto using emitEvent_quiet, ws_close_quiet); try quiet_leaf.
Qed.

Lemma settle_handshake_quiet i o w : I w -> ok I silent (settle_handshake i o) w.
Proof.
  intros Hw. unfold settle_handshake.
  repeat ok_step ltac:(eauto using auth_succeeded_quiet, auth_failed_quiet); try quiet_leaf.
Qed.

Lemma authenticate_quiet id p w : I w -> ok I silent (authenticate id p) w.
Proof.
  intros Hw. unfold authenticate.
  repeat ok_step ltac:(eauto using auth_failed_quiet, settle_handshake_quiet, ws_send_quiet);
    try quiet_leaf.
Qed.

Lemma onerror_quiet p e w : I w -> ok I silent (onerror p e) w.
Proof.
  intros Hw. unfold onerror.
  repeat ok_step ltac:(eauto using emitEvent_quiet); try quiet_leaf.
Qed.

Lemma run_task_quiet task w : I w -> ok I silent (run_task task) w.
Proof.
  intros Hw. destruct task; cbn [run_task].
  - apply rpc_timeout_quiet, Hw.
  - repeat ok_step ltac:(eauto using connect_quiet); quiet_leaf.
  - apply settle_handshake_quiet, Hw.
Qed.

Variable JSON_parse : string -> option json.

Lemma handleMessage_quiet data w : I w -> ok I silent (handleMessage JSON_parse data) w.
Proof.
  intros Hw. unfold handleMessage.
  repeat ok_step ltac:(eauto using emitEvent_quiet); try quiet_leaf.
Qed.

Lemma handleAuthResponse_quiet i data w :
  I w -> ok I silent (handleAuthResponse JSON_parse i data) w.
Proof.
  intros Hw. unfold handleAuthResponse.
  repeat ok_step ltac:(eauto using settle_handshake_quiet); try quiet_leaf.
Qed.

Lemma onmessage_quiet s data w : I w -> ok I silent (onmessage JSON_parse s data) w.
Proof.
  intros Hw. unfold onmessage.
  apply ok_bind_ok; [apply handleMessage_quiet, Hw|]. intros Hw1.
  ok_step ltac:(fail). apply ok_for_each; [|exact Hw1].
  intros i w' Hw'.
  repeat ok_step ltac:(eauto using handleAuthResponse_quiet); try quiet_leaf.
Qed.

Lemma exec_still e w :
  policy_event e = false -> (forall dt, e <> Elapse dt) -> I w ->
  ok I silent (exec JSON_parse e) w.
Proof.
  intros He Hne Hw. destruct e; try discriminate; cbn [exec].
  - repeat ok_step ltac:(eauto using connect_quiet); quiet_leaf.
  - repeat ok_step ltac:(eauto using call_quiet); quiet_leaf.
  - apply on_quiet, Hw.
  - apply off_quiet, Hw.
  - repeat ok_step ltac:(eauto using onmessage_quiet); try quiet_leaf.
  - repeat ok_step ltac:(eauto using onerror_quiet); try quiet_leaf.
  - destruct (Hne dt eq_refl).
  - repeat ok_step ltac:(fail); quiet_leaf.
Qed.

(** From here on the reading does not look at the clock. *)
Hypothesis obs_clock : forall p n n', obs p n = obs p n'.

Lemma fire_quiet h w : I w -> ok I silent (fire h) w.
Proof.
  intros Hw. unfold fire.
  assert (Hrun : forall t z,
            ok I silent (run_task t)
              {| this := this w;
                 rt := set_timers (delete h (timers (rt w)))
                         (set_now (Z.max (now (rt w)) z) (rt w)) |}).
  { intros t z. apply run_task_quiet. unfold I in *. cbn [this rt now set_timers set_now].
    rewrite (obs_clock _ _ (now (rt w))). exact Hw. }
  repeat ok_step ltac:(apply Hrun); try quiet_leaf.
Qed.

Lemma elapse_quiet dt w : I w -> ok I silent (elapse dt) w.
Proof.
  intros Hw. unfold elapse.
  repeat ok_step ltac:(eauto using ok_for_each, fire_quiet); try quiet_leaf.
  unfold I in *. cbn [this rt now set_now].
  match goal with H : obs _ _ = b |- _ => rewrite <- H end. apply obs_clock.
Qed.

Lemma exec_quiet e w :
  policy_event e = false -> I w -> ok I silent (exec JSON_parse e) w.
Proof.
  intros He Hw. destruct e; try (apply exec_still; [assumption|discriminate|assumption]).
  apply elapse_quiet, Hw.
Qed.

End Quiet.

(** The two readings used below: the policy alone, and the clock alone. *)
Lemma exec_keeps_policy (JSON_parse : string -> option json) e w :
  policy_event e = false ->
  ok (fun w' => policy (this w') = policy (this w)) silent (exec JSON_parse e) w.
Proof.
  intros He.
  exact (exec_quiet _ (fun p _ => p) (policy (this w)) JSON_parse
           (fun _ _ _ => eq_refl) e w He eq_refl).
Qed.

Lemma exec_keeps_clock (JSON_parse : string -> option json) e w :
  policy_event e = false -> (forall dt, e <> Elapse dt) ->
  ok (fun w' => now (rt w') = now (rt w)) silent (exec JSON_parse e) w.
Proof.
  intros He Hne.
  exact (exec_still _ (fun _ n => n) (now (rt w)) JSON_parse e w He Hne eq_refl).
Qed.

Lemma authenticate_keeps id p w :
  ok (fun w' => (policy (this w'), now (rt w')) = (policy (this w), now (rt w))) silent
     (authenticate id p) w.
Proof. exact (authenticate_quiet _ (fun p n => (p, n)) _ id p w eq_refl). Qed.

(** ** Reconnect policy *)

Lemma closures_app t1 t2 : closures (t1 ++ t2) = (closures t1 + closures t2)%nat.
Proof. unfold closures. rewrite filter_app, length_app. reflexivity. Qed.

Lemma reconnect_delays_app t1 t2 :
  reconnect_delays (t1 ++ t2) = reconnect_delays t1 ++ reconnect_delays t2.
Proof. apply omap_app. Qed.

Lemma silent_trace t :
  Forall silent t -> closures t = 0%nat /\ reconnect_delays t = [].
Proof.
  induction 1 as [|x l [Hc Hr] _ [IH1 IH2]]; [split; reflexivity|].
  unfold closures, reconnect_delays in *. rewrite filter_cons_False by congruence.
  split; [exact IH1|]. cbn [omap list_omap].
  destruct x as [| | | | |? ? []| |]; try discriminate; exact IH2.
Qed.

Lemma dispatch_silent t :
  Forall silent t -> Forall silent (Console LLog "[Gateway] Connection closed" :: t) -> False.
Proof. intros _ H. apply Forall_cons in H as [[H _] _]. discriminate. Qed.

(** What one run of [onclose] does under the policy. *)
Lemma onclose_policy (k : nat) w :
  (k <= 5)%nat ->
  policy (this w) = (Z.of_nat k, 5, delay_after k, false) ->
  policy (this (world_of (onclose w)))
    = (Z.of_nat (Nat.min 5 (S k)), 5, delay_after (Nat.min 5 (S k)), false)
  /\ closures (trace_of (onclose w)) = 1%nat
  /\ reconnect_delays (trace_of (onclose w)) = take 1 (drop k backoff_delays).
Proof.
  intros Hk Hp. pose proof (onclose_eq w) as Hc. cbv zeta in Hc. rewrite Hc.
  rewrite world_of_mk, trace_of_mk. unfold policy in Hp. injection Hp as Ha Hm Hd Hi.
  assert (Hw : will_reconnect (this w) = negb (Nat.eqb k 5)).
  { unfold will_reconnect. rewrite Hi, Ha, Hm. cbn [negb andb].
    destruct (Z.ltb_spec (Z.of_nat k) 5), (Nat.eqb_spec k 5); try reflexivity; lia. }
  rewrite Hw.
  assert (Hsil := emitEvent_effects_silent (JStr "disconnected") (VRecord [])
                    (set_authenticated false (this w))).
  destruct (silent_trace _ Hsil) as [Hc0 Hr0].
  change (Console LLog "[Gateway] Connection closed" :: ?t ++ ?u)
    with ([Console LLog "[Gateway] Connection closed"] ++ t ++ u).
  rewrite !closures_app, !reconnect_delays_app, Hc0, Hr0.
  destruct (Nat.eqb_spec k 5) as [->|Hne]; cbn [negb].
  - unfold policy. cbn. rewrite Ha, Hm, Hd, Hi. repeat split.
  - unfold policy. cbn [this reconnectAttempts maxReconnectAttempts reconnectDelay
                         intentionalDisconnect set_reconnectDelay set_reconnectAttempts
                         set_connectionPromise set_authenticated].
    rewrite Ha, Hm, Hd, Hi.
    assert (Hk' : (k < 5)%nat) by lia.
    replace (Nat.min 5 (S k)) with (S k) by lia.
    do 5 (destruct k as [|k]; [repeat split|]). lia.
Qed.

Section Backoff.

Variable JSON_parse : string -> option json.

Lemma exec_SockClose s w :
  exec JSON_parse (SockClose s) w =
  match socket_state w s with
  | Some CLOSED | None => (tt, w, [])
  | Some _ => onclose (world_of (set_socket_state s CLOSED w))
  end.
Proof.
  cbn [exec]. rewrite bind_eq.
  change (value_of (get w)) with w. change (world_of (get w)) with w.
  change (trace_of (get w)) with (@nil effect). cbn [app].
  destruct (socket_state w s) as [[]|]; try reflexivity.
  all: rewrite bind_eq; unfold value_of, world_of, trace_of;
    destruct (onclose _) as [[[] w2] t2]; reflexivity.
Qed.

(** What one event does under the policy, short of an [open] and of
    [disconnect()]: a closure moves the policy one step and schedules the
    delay of that step, any other event leaves it alone. *)
Lemma exec_policy (k : nat) e w :
  keeps_backoff e = true ->
  (k <= 5)%nat ->
  policy (this w) = (Z.of_nat k, 5, delay_after k, false) ->
  let t := trace_of (exec JSON_parse e w) in
  let k' := Nat.min 5 (k + closures t) in
  (closures t <= 1)%nat
  /\ policy (this (world_of (exec JSON_parse e w))) = (Z.of_nat k', 5, delay_after k', false)
  /\ reconnect_delays t = take (closures t) (drop k backoff_delays).
Proof.
  intros He Hk Hp t k'. subst t k'.
  assert (Hid : forall r : unit * World * trace,
            Forall silent (trace_of r) ->
            policy (this (world_of r)) = (Z.of_nat k, 5, delay_after k, false) ->
            (closures (trace_of r) <= 1)%nat
            /\ policy (this (world_of r))
               = (Z.of_nat (Nat.min 5 (k + closures (trace_of r))), 5,
                  delay_after (Nat.min 5 (k + closures (trace_of r))), false)
            /\ reconnect_delays (trace_of r)
               = take (closures (trace_of r)) (drop k backoff_delays)).
  { intros r Ht Hr. destruct (silent_trace _ Ht) as [Hc Hd].
    rewrite Hc, Hd, Nat.add_0_r, Nat.min_r by lia. auto with lia. }
  destruct (policy_event e) eqn:Hpe.
  - destruct e; try discriminate. rewrite exec_SockClose.
    assert (Hgo : (closures (trace_of (onclose (world_of (set_socket_state s CLOSED w)))) <= 1)%nat
              /\ policy (this (world_of (onclose (world_of (set_socket_state s CLOSED w)))))
                 = (Z.of_nat (Nat.min 5 (k + closures (trace_of
                      (onclose (world_of (set_socket_state s CLOSED w)))))), 5,
                    delay_after (Nat.min 5 (k + closures (trace_of
                      (onclose (world_of (set_socket_state s CLOSED w)))))), false)
              /\ reconnect_delays (trace_of (onclose (world_of (set_socket_state s CLOSED w))))
                 = take (closures (trace_of
                      (onclose (world_of (set_socket_state s CLOSED w)))))
                     (drop k backoff_delays)).
    { destruct (onclose_policy k (world_of (set_socket_state s CLOSED w)) Hk Hp)
        as (H1 & H2 & H3).
      rewrite H2, H3. replace (k + 1)%nat with (S k) by lia. auto. }
    destruct (socket_state w s) as [[]|]; try exact Hgo;
      apply Hid; try constructor; exact Hp.
  - destruct (exec_keeps_policy JSON_parse e w Hpe) as [Hw Ht].
    apply Hid; [assumption|]. rewrite Hw. exact Hp.
Qed.

Lemma run_cons e evs w :
  run JSON_parse (e :: evs) w =
  (tt, world_of (run JSON_parse evs (world_of (exec JSON_parse e w))),
   trace_of (exec JSON_parse e w)
   ++ trace_of (run JSON_parse evs (world_of (exec JSON_parse e w)))).
Proof.
  cbn [run]. rewrite bind_eq. destruct (run JSON_parse evs _) as [[[] w'] t]. reflexivity.
Qed.

(** Over events with no [open] and no [disconnect()], the reconnects
    scheduled are those of the steps the closures took. *)
Lemma run_policy (k : nat) evs w :
  Forall (fun e => keeps_backoff e = true) evs ->
  (k <= 5)%nat ->
  policy (this w) = (Z.of_nat k, 5, delay_after k, false) ->
  reconnect_delays (trace_of (run JSON_parse evs w))
    = take (closures (trace_of (run JSON_parse evs w))) (drop k backoff_delays).
Proof.
  intros Hevs. revert k w. induction Hevs as [|e evs He _ IH]; intros k w Hk Hp.
  - reflexivity.
  - rewrite run_cons, trace_of_mk, reconnect_delays_app, closures_app.
    destruct (exec_policy k e w He Hk Hp) as (Hc & Hp' & Hr).
    rewrite Hr, (IH _ _ (Nat.le_min_l _ _) Hp').
    destruct (closures (trace_of (exec JSON_parse e w))) as [|[|c]]; [| |lia].
    + rewrite Nat.add_0_r, Nat.min_r by lia. reflexivity.
    + cbn [Nat.add]. replace (k + 1)%nat with (S k) by lia.
      generalize (closures (trace_of (run JSON_parse evs (world_of (exec JSON_parse e w))))).
      intros n. unfold backoff_delays.
      do 5 (destruct k as [|k]; [reflexivity|]).
      destruct k; [|lia]. cbn. destruct n; reflexivity.
Qed.

End Backoff.

(** [onopen] puts the counter and the delay back before the handshake
    starts, and nothing in the handshake touches them. *)
Lemma onopen_ok auth_id p w :
  ok (fun w' => policy (this w')
                = (0, maxReconnectAttempts (this w), 1000, intentionalDisconnect (this w))
                /\ now (rt w') = now (rt w))
     silent (onopen auth_id p) w.
Proof.
  unfold onopen.
  do 3 (apply ok_bind; [prim; repeat constructor|prim]).
  match goal with
  | |- ok _ _ _ ?w1 => destruct (authenticate_keeps auth_id p w1) as [Hw Ht]
  end.
  split; [|exact Ht].
  pose proof (f_equal fst Hw) as H1. pose proof (f_equal snd Hw) as H2.
  cbn [fst snd] in H1, H2. rewrite H1, H2. split; reflexivity.
Qed.

Lemma onopen_policy auth_id p w :
  policy (this (world_of (onopen auth_id p w)))
    = (0, maxReconnectAttempts (this w), 1000, intentionalDisconnect (this w)).
Proof. exact (proj1 (proj1 (onopen_ok auth_id p w))). Qed.

Lemma auth_succeeded_policy w :
  policy (this (world_of (auth_succeeded w))) = policy (this w).
Proof. exact (proj1 (auth_succeeded_quiet _ (fun p _ => p) (policy (this w)) w eq_refl)). Qed.

(** C5, as the code has it. From the counter and delay a new client
    starts with, and as long as no socket opens (and [disconnect()] is
    not called), the reconnects scheduled over any course of events are
    those of the first closures, after 1, 2, 4, 8 and 16 seconds in this
    order: each closure schedules one after the current delay, which then
    doubles up to 30 seconds, and once five are scheduled a closure
    schedules none. The counter and the delay are put back when a socket
    opens, before the handshake and whatever its result; a handshake that
    succeeds leaves them as they are. *)
Theorem reconnect_backoff
    (JSON_parse : string -> option json) (w : World) (evs : list event) :
  policy (this w) = (0, 5, 1000, false) ->
  Forall (fun e => keeps_backoff e = true) evs ->
  let t := trace_of (run JSON_parse evs w) in
  policy new_GatewayClient = (0, 5, 1000, false)
  /\ backoff_delays = [1000; 2000; 4000; 8000; 16000]
  /\ reconnect_delays t = take (closures t) backoff_delays
  /\ (forall w',
        trace_of (onclose w') =
          Console LLog "[Gateway] Connection closed"
          :: emitEvent_effects (JStr "disconnected") (VRecord [])
               (set_authenticated false (this w'))
          ++ (if will_reconnect (this w') then
                [Console LLog "[Gateway] Reconnecting in ${this.reconnectDelay}ms (attempt ${this.reconnectAttempts})";
                 SetTimeout (next_timer (rt w')) (reconnectDelay (this w')) Reconnect]
              else [])
        /\ (will_reconnect (this w') = true ->
            reconnectAttempts (this (world_of (onclose w'))) = reconnectAttempts (this w') + 1
            /\ reconnectDelay (this (world_of (onclose w')))
               = Z.min (reconnectDelay (this w') * 2) 30000))
  /\ (forall w' auth_id p,
        policy (this (world_of (onopen auth_id p w')))
          = (0, maxReconnectAttempts (this w'), 1000, intentionalDisconnect (this w')))
  /\ (forall w', policy (this (world_of (auth_succeeded w'))) = policy (this w')).
Proof.
  intros Hp Hevs t. subst t. split; [reflexivity|]. split; [reflexivity|]. split.
  { exact (run_policy JSON_parse 0 evs w Hevs (Nat.le_0_l 5) Hp). }
  split.
  { intros w'. pose proof (onclose_eq w') as Hc. cbv zeta in Hc. rewrite Hc.
    rewrite world_of_mk, trace_of_mk. split; [reflexivity|].
    intros ->. split; reflexivity. }
  split; [intros; apply onopen_policy|intros; apply auth_succeeded_policy].
Qed.

Lemma reconnect_backoff_witness :
  policy (this (fresh_world (Some "token"))) = (0, 5, 1000, false)
  /\ closures (trace_of (run sample_parse (unreachable_attempts 8) (fresh_world (Some "token"))))
     = 6%nat
  /\ reconnect_delays
       (trace_of (run sample_parse (unreachable_attempts 8) (fresh_world (Some "token"))))
     = take (closures (trace_of (run sample_parse (unreachable_attempts 8)
                                   (fresh_world (Some "token")))))
         backoff_delays.
Proof.
  assert (H1 : policy (this (fresh_world (Some "token"))) = (0, 5, 1000, false))
    by reflexivity.
  assert (H2 : Forall (fun e => keeps_backoff e = true) (unreachable_attempts 8)).
  { unfold unreachable_attempts. cbn [seq flat_map app]. repeat constructor. }
  split; [exact H1|]. split; [vm_compute; reflexivity|].
  exact (proj1 (proj2 (proj2 (reconnect_backoff sample_parse (fresh_world (Some "token"))
                                (unreachable_attempts 8) H1 H2)))).
Defined.

(** C5 as stated fails: on a page with no token stored every attempt
    opens the socket, fails the handshake and is closed; seven such
    attempts in a row are each retried after one second, the delay never
    doubles, and the retries do not stop after the fifth. *)
Lemma failed_handshakes_retry_every_second :
  auth_failures (trace_of (run sample_parse (tokenless_attempts 7) (fresh_world None))) = 7%nat
  /\ closures (trace_of (run sample_parse (tokenless_attempts 7) (fresh_world None))) = 7%nat
  /\ reconnect_delays (trace_of (run sample_parse (tokenless_attempts 7) (fresh_world None)))
     = [1000; 1000; 1000; 1000; 1000; 1000; 1000]
  /\ policy (this (world_of (run sample_parse (tokenless_attempts 7) (fresh_world None))))
     = (1, 5, 2000, false).
Proof. repeat split; vm_compute; reflexivity. Qed.

(** ** After [disconnect()] *)

Lemma silent_no_reconnect t : Forall silent t -> Forall (fun e => is_reconnect e = false) t.
Proof. intros H. eapply Forall_impl; [exact H|]. intros e [_ He]. exact He. Qed.

Lemma policy_intentional c b : policy c = b -> intentionalDisconnect c = b.2.
Proof. intros <-. reflexivity. Qed.

Lemma onopen_intended auth_id p w :
  intentionalDisconnect (this w) = true ->
  ok (fun w' => intentionalDisconnect (this w') = true) (fun e => is_reconnect e = false)
     (onopen auth_id p) w.
Proof.
  intros Hi. destruct (onopen_ok auth_id p w) as [[Hw _] Ht].
  split; [|apply silent_no_reconnect, Ht].
  apply policy_intentional in Hw. rewrite Hw. exact Hi.
Qed.

(** Once the closure is marked as intended it stays so, and no event
    schedules a reconnect. *)
Lemma exec_intended (JSON_parse : string -> option json) e w :
  intentionalDisconnect (this w) = true ->
  ok (fun w' => intentionalDisconnect (this w') = true) (fun e => is_reconnect e = false)
     (exec JSON_parse e) w.
Proof.
  intros Hi. destruct (policy_event e) eqn:Hpe.
  - destruct e; try discriminate.
    + cbn [exec]. destruct (disconnect_spec w) as (Hthis & _ & Htrace). split.
      * rewrite Hthis. reflexivity.
      * rewrite Htrace. apply Forall_app. split; [destruct (ws (this w)); repeat constructor|].
        apply Forall_forall. intros x Hx. apply list_elem_of_In, in_flat_map in Hx as [kv [_ Hx]].
        destruct Hx as [<-|[<-|[]]]; reflexivity.
    + cbn [exec].
      repeat ok_step ltac:(eauto using onopen_intended); try assumption.
      all: cbn [this rt]; try assumption.
      all: apply onopen_intended; destruct (sockets _ !! s); exact Hi.
    + unfold ok. rewrite exec_SockClose.
      assert (Hgo : ok (fun w' => intentionalDisconnect (this w') = true)
                      (fun e => is_reconnect e = false) onclose
                      (world_of (set_socket_state s CLOSED w))).
      { unfold ok. pose proof (onclose_eq (world_of (set_socket_state s CLOSED w))) as Hc.
        cbv zeta in Hc. rewrite Hc, world_of_mk, trace_of_mk.
        assert (Hno : will_reconnect (this (world_of (set_socket_state s CLOSED w))) = false).
        { unfold will_reconnect. cbn [this world_of set_socket_state upd_rt fst snd].
          rewrite Hi. reflexivity. }
        rewrite Hno. split; [exact Hi|].
        apply Forall_cons. split; [reflexivity|]. rewrite app_nil_r.
        apply silent_no_reconnect, emitEvent_effects_silent. }
      destruct (socket_state w s) as [[]|]; try exact Hgo; split; try exact Hi; constructor.
  - destruct (exec_keeps_policy JSON_parse e w Hpe) as [Hw Ht].
    split; [|apply silent_no_reconnect, Ht].
    apply policy_intentional in Hw. rewrite Hw. exact Hi.
Qed.

Lemma run_intended (JSON_parse : string -> option json) evs w :
  intentionalDisconnect (this w) = true ->
  ok (fun w' => intentionalDisconnect (this w') = true) (fun e => is_reconnect e = false)
     (run JSON_parse evs) w.
Proof.
  revert w. induction evs as [|e evs IH]; intros w Hi.
  - split; [exact Hi|constructor].
  - cbn [run]. apply ok_bind_ok; [apply exec_intended, Hi|]. apply IH.
Qed.

Lemma no_reconnect_delays t :
  Forall (fun e => is_reconnect e = false) t -> reconnect_delays t = [].
Proof.
  induction 1 as [|x l Hx _ IH]; [reflexivity|].
  unfold reconnect_delays in *. cbn [omap list_omap].
  destruct x as [| | | | |? ? []| |]; try discriminate; exact IH.
Qed.

(** X19. An unexpected closure ([onclose]) settles no promise and leaves
    the table of pending requests as it was, each request with its timer
    still armed; when that timer fires, the request is removed and its
    promise rejected with the timeout error. [disconnect()] in the same
    state rejects the promise of every pending request with
    [Connection closed] (and settles nothing else), disarms its timer,
    empties the table and the event buffer, and marks the closure as
    intended, after which [onclose] schedules no reconnect, nor does
    anything else that may happen to the client later. A reconnect that
    was scheduled before is another matter: its timer is not among those
    [disconnect()] disarms. *)
Theorem closure_waits_disconnect_rejects
    (w : World) (id : string) (pr : PendingRequest) (due : Z) :
  pendingRequests (this w) !! id = Some pr ->
  timers (rt w) !! timeout pr = Some (due, RpcTimeout id (reject pr)) ->
  timers_allocated w ->
  let wc := world_of (onclose w) in
  let wd := world_of (disconnect w) in
  (pendingRequests (this wc) = pendingRequests (this w)
   /\ timers (rt wc) !! timeout pr = Some (due, RpcTimeout id (reject pr))
   /\ Forall (fun e => is_settlement e = false) (trace_of (onclose w))
   /\ pendingRequests (this (world_of (fire (timeout pr) wc))) !! id = None
   /\ trace_of (fire (timeout pr) wc) = [Reject (reject pr) (VError (JStr "RPC call timed out"))])
  /\ (In (Reject (reject pr) (VError (JStr "Connection closed"))) (trace_of (disconnect w))
      /\ (forall e, In e (trace_of (disconnect w)) -> is_settlement e = true ->
            exists id' pr', pendingRequests (this w) !! id' = Some pr'
                            /\ e = Reject (reject pr') (VError (JStr "Connection closed")))
      /\ pendingRequests (this wd) = ∅
      /\ eventBuffer (this wd) = []
      /\ timers (rt wd) !! timeout pr = None
      /\ intentionalDisconnect (this wd) = true
      /\ reconnect_delays (trace_of (onclose wd)) = []
      /\ timers (rt (world_of (onclose wd))) = timers (rt wd)
      /\ (forall (JSON_parse : string -> option json) evs,
            reconnect_delays (trace_of (run JSON_parse evs wd)) = []
            /\ intentionalDisconnect (this (world_of (run JSON_parse evs wd))) = true)).
Proof.
  intros Hpend Htimer Halloc wc wd. subst wc wd.
  pose proof (onclose_eq w) as Hc. cbv zeta in Hc.
  destruct (disconnect_spec w) as (Hdthis & Hdtimers & Hdtrace).
  assert (Hwc : pendingRequests (this (world_of (onclose w))) = pendingRequests (this w)
                /\ timers (rt (world_of (onclose w))) !! timeout pr
                   = Some (due, RpcTimeout id (reject pr))).
  { rewrite Hc, world_of_mk. destruct (will_reconnect (this w)); cbn; split; auto.
    rewrite lookup_insert_ne; [exact Htimer|].
    apply Halloc in Htimer. lia. }
  destruct Hwc as [Hwc1 Hwc2]. split.
  - split; [exact Hwc1|]. split; [exact Hwc2|]. split.
    + rewrite Hc, trace_of_mk. apply Forall_cons. split; [reflexivity|].
      apply Forall_app. split.
      * apply dispatch_no_settlement, emitEvent_effects_dispatch.
      * destruct (will_reconnect (this w)); repeat constructor.
    + rewrite (fire_rpc_timeout _ _ _ _ _ Hwc2), world_of_mk, trace_of_mk. cbn [this pendingRequests set_pendingRequests].
      split; [apply lookup_delete_eq|reflexivity].
  - split.
    { rewrite Hdtrace. apply in_or_app. right.
      eapply pending_in_order_reject_in. exact Hpend. }
    split.
    { intros e He Hs. rewrite Hdtrace in He. apply in_app_or in He as [He|He].
      - destruct (ws (this w)); cbn in He; [destruct He as [<-|[]]|destruct He].
        discriminate.
      - apply in_flat_map in He as [[id' pr'] [Hin He]].
        apply list_elem_of_In, elem_of_pending_in_order in Hin.
        exists id', pr'. split; [exact Hin|].
        destruct He as [<-|[<-|[]]]; [discriminate|reflexivity]. }
    rewrite Hdthis. cbn [pendingRequests eventBuffer intentionalDisconnect].
    split; [reflexivity|]. split; [reflexivity|]. split.
    { rewrite Hdtimers, foldl_delete_lookup, bool_decide_eq_true_2; [reflexivity|].
      apply list_elem_of_fmap. exists (id, pr). split; [reflexivity|].
      apply elem_of_pending_in_order. exact Hpend. }
    split; [reflexivity|].
    pose proof (onclose_eq (world_of (disconnect w))) as Hc'. cbv zeta in Hc'.
    assert (Hno : will_reconnect (this (world_of (disconnect w))) = false).
    { rewrite Hdthis. reflexivity. }
    rewrite Hc', Hno, world_of_mk, trace_of_mk, app_nil_r. split; [|split; [reflexivity|]].
    { apply (dispatch_no_reconnect (_ :: _)). apply Forall_cons. split; [reflexivity|].
      apply emitEvent_effects_dispatch. }
    intros JSON_parse evs.
    assert (Hi : intentionalDisconnect (this (world_of (disconnect w))) = true)
      by (rewrite Hdthis; reflexivity).
    destruct (run_intended JSON_parse evs _ Hi) as [Hw Ht].
    split; [apply no_reconnect_delays, Ht|exact Hw].
Qed.

Lemma closure_waits_disconnect_rejects_witness :
  pendingRequests (this sample_busy) !! "c1"
    = Some {| resolve := 1%nat; reject := 1%nat; timeout := 1%nat |}
  /\ timers (rt sample_busy) !! 1%nat = Some (30000, RpcTimeout "c1" 1%nat)
  /\ pendingRequests (this (world_of (onclose sample_busy))) = pendingRequests (this sample_busy)
  /\ In (Reject 1%nat (VError (JStr "Connection closed"))) (trace_of (disconnect sample_busy)).
Proof.
  assert (H1 : pendingRequests (this sample_busy) !! "c1"
               = Some {| resolve := 1%nat; reject := 1%nat; timeout := 1%nat |})
    by (vm_compute; reflexivity).
  assert (H2 : timers (rt sample_busy) !! 1%nat = Some (30000, RpcTimeout "c1" 1%nat))
    by (vm_compute; reflexivity).
  assert (H3 : timers_allocated sample_busy)
    by (apply timers_allocated_check; vm_compute; reflexivity).
  pose proof (closure_waits_disconnect_rejects sample_busy "c1" _ 30000 H1 H2 H3) as H.
  split; [exact H1|]. split; [exact H2|]. split.
  - exact (proj1 (proj1 H)).
  - exact (proj1 (proj2 H)).
Defined.

(** C7. [disconnect()] does not suppress a reconnect that is already
    scheduled. The socket of a connected client with two calls pending
    closes unexpectedly, and [onclose] arms the timer of a reconnect in one
    second; [disconnect()] then rejects the two calls, empties the table,
    drops the socket and marks the closure as intended, but the handle of
    that timer was never kept and the timer stays armed. When the second
    has passed, [connect()] runs: it finds no socket and no attempt in
    progress, and opens a new socket; once that socket is open the client
    sends its authentication request, unasked. *)
Lemma disconnect_misses_the_armed_reconnect :
  let closure := exec sample_parse (SockClose 0%nat) sample_busy in
  let w2 := world_of (exec sample_parse AppDisconnect (world_of closure)) in
  let r3 := exec sample_parse (Elapse 1000) w2 in
  let r4 := exec sample_parse (SockOpen 1%nat "a2") (world_of r3) in
  reconnect_delays (trace_of closure) = [1000]
  /\ timers (rt (world_of closure)) !! 3%nat = Some (1000, Reconnect)
  /\ intentionalDisconnect (this w2) = true
  /\ ws (this w2) = None
  /\ map_to_list (pendingRequests (this w2)) = []
  /\ timers (rt w2) !! 3%nat = Some (1000, Reconnect)
  /\ ws (this (world_of r3)) = Some 1%nat
  /\ socket_state (world_of r3) 1%nat = Some CONNECTING
  /\ In (WsSend 1%nat
           (VRecord [("jsonrpc", VJson (JStr "2.0")); ("id", VJson (JStr "a2"));
                     ("method", VJson (JStr "auth"));
                     ("params", VRecord [("token", VJson (JStr "token"))])]))
        (trace_of r4).
Proof.
  cbv zeta. split_and!; try (vm_compute; reflexivity).
  vm_compute. do 3 right. left. reflexivity.
Qed.

(** ** A waiting call stays waiting *)

Section Awaiting.

Variable id : string.
Variable p : promise.
Variable h : timer_handle.
Variable due : Z.

Let I : World -> Prop := awaiting id p h due.

Ltac aw_hyps :=
  repeat match goal with
  | H : I _ |- _ => unfold I in H
  | H : awaiting _ _ _ _ _ |- _ =>
      let H1 := fresh "Hpend" in let H2 := fresh "Htimer" in let H3 := fresh "Hh" in
      let H4 := fresh "Hp" in let H5 := fresh "Hothers" in let H6 := fresh "Htasks" in
      let H7 := fresh "Hhs" in let H8 := fresh "Hsock" in let H9 := fresh "Hres" in
      destruct H as (H1 & H2 & H3 & H4 & H5 & H6 & H7 & H8 & H9)
  end.

Ltac aw_split :=
  repeat match goal with
  | H : <[_:=_]> _ !! _ = Some _ |- _ =>
      apply lookup_insert_Some in H as [[? ?]|[? ?]]; subst
  | H : delete _ _ !! _ = Some _ |- _ => apply lookup_delete_Some in H as [? ?]
  | H : _ ∈ _ ++ _ |- _ => apply elem_of_app in H as [?|?]
  | H : _ ∈ [_] |- _ => apply list_elem_of_singleton in H; subst
  | H : Some _ = Some _ |- _ => injection H as ?; subst
  | H : (_, _) = (_, _) |- _ => injection H as ? ?; subst
  end.

(** Uses what the invariant says of each entry found in a table. *)
Ltac aw_sat :=
  repeat match goal with
  | Ho : (forall id' pr', pendingRequests ?c !! id' = Some pr' -> _),
    Hl : pendingRequests ?c !! _ = Some _ |- _ =>
      let H := fresh "Hf" in pose proof (Ho _ _ Hl) as H; clear Hl
  | Ht : (forall h' d' id' p', timers ?r !! h' = Some (d', RpcTimeout id' p') -> _),
    Hl : timers ?r !! _ = Some (_, RpcTimeout _ _) |- _ =>
      let H := fresh "Hf" in pose proof (Ht _ _ _ _ Hl) as H; clear Hl
  | Hs : (forall hs, hs ∈ ?l -> _), Hl : _ ∈ ?l |- _ =>
      let H := fresh "Hf" in pose proof (Hs _ Hl) as H; clear Hl
  | Hs : (forall s sock, sockets ?r !! s = Some sock -> _),
    Hl : sockets ?r !! _ = Some _ |- _ =>
      let H := fresh "Hf" in pose proof (Hs _ _ Hl) as H; clear Hl
  end.

Ltac aw_leaf :=
  aw_hyps; unfold I, awaiting, unsettled; unfold world_of, value_of, trace_of in *;
  cbn [this rt pendingRequests connectionResolve timers next_timer next_promise handshakes
       sockets set_ws set_pendingRequests set_eventListeners set_wildcardListeners
       set_reconnectAttempts set_reconnectDelay set_intentionalDisconnect
       set_connectionPromise set_connectionResolve set_authenticated set_eventBuffer
       set_sockets set_timers set_handshakes set_next_socket set_next_timer
       set_next_promise set_now settles_promise];
  try split_and!;
  try apply Nat.eqb_neq;
  first [ assumption
        | reflexivity
        | lia
        | rewrite lookup_insert_ne by (congruence || lia); assumption
        | rewrite lookup_delete_ne by (congruence || lia); assumption
        | discriminate
        | (intros Hc; injection Hc; lia)
        | (intros; aw_split; cbn in *; aw_sat;
           intuition (try lia; try congruence); fail)
        | idtac ].

(** A step through a handler already dealt with, named by its lemma. *)
Ltac aw_by lem := apply lem; try assumption; aw_leaf.

Lemma unsettled_dispatch t : Forall (fun x => is_dispatch x = true) t -> Forall (unsettled p) t.
Proof.
  intros H. eapply Forall_impl; [exact H|]. intros [] Hx; try discriminate; reflexivity.
Qed.

Lemma emitEvent_awaiting e d w : I w -> ok I (unsettled p) (emitEvent e d) w.
Proof.
  intros Hw. unfold ok. rewrite emitEvent_eq, world_of_mk, trace_of_mk.
  split; [|apply unsettled_dispatch, emitEvent_effects_dispatch].
  destruct (buffered e); [|destruct w; exact Hw]. aw_leaf.
Qed.

Lemma unsettled_invokes {A} (f : A -> callback) (g : A -> value) l :
  Forall (unsettled p) (map (fun x => Invoke (f x) (g x)) l).
Proof.
  apply Forall_forall. intros x Hx. apply list_elem_of_fmap in Hx as [? [-> _]]. reflexivity.
Qed.

Lemma on_awaiting topic cb w : I w -> ok I (unsettled p) (on topic cb) w.
Proof.
  intros Hw. unfold on. destruct (String.eqb topic "*").
  - repeat ok_step ltac:(fail); try apply unsettled_invokes; aw_leaf.
  - repeat ok_step ltac:(fail).
    destruct (eventListeners _ !! topic); cbn [this eventListeners set_eventListeners];
      try rewrite lookup_insert_eq; try destruct (eventListeners _ !! topic); aw_leaf.
Qed.

Lemma off_awaiting topic cb w : I w -> ok I (unsettled p) (off topic cb) w.
Proof.
  intros Hw. unfold off. repeat ok_step ltac:(fail).
  all: try destruct (eventListeners _ !! topic); aw_leaf.
Qed.

Lemma ws_send_awaiting s payload w : I w -> ok I (unsettled p) (ws_send s payload) w.
Proof. intros Hw. unfold ws_send. repeat ok_step ltac:(fail); aw_leaf. Qed.

Lemma ws_close_awaiting s w : I w -> ok I (unsettled p) (ws_close s) w.
Proof.
  intros Hw. unfold ws_close. repeat ok_step ltac:(fail); try aw_leaf.
  all: destruct (sockets _ !! s) eqn:Es; aw_leaf.
Qed.

Lemma call_awaiting id' method params w :
  id' <> id -> I w -> ok I (unsettled p) (call id' method params) w.
Proof.
  intros Hne Hw. unfold call.
  repeat ok_step ltac:(aw_by ws_send_awaiting); try aw_leaf.
Qed.

Lemma rpc_timeout_awaiting id' p' w :
  id' <> id -> p' <> p -> I w -> ok I (unsettled p) (rpc_timeout id' p') w.
Proof.
  intros Hid Hp' Hw. unfold rpc_timeout. repeat ok_step ltac:(fail); aw_leaf.
Qed.

Lemma connect_awaiting w : I w -> ok I (unsettled p) connect w.
Proof.
  intros Hw. unfold connect. repeat ok_step ltac:(fail); aw_leaf.
Qed.

Lemma auth_succeeded_awaiting w : I w -> ok I (unsettled p) auth_succeeded w.
Proof.
  intros Hw. unfold auth_succeeded.
  repeat ok_step ltac:(aw_by emitEvent_awaiting); try aw_leaf.
Qed.

Lemma auth_failed_awaiting q e w :
  q <> p -> I w -> ok I (unsettled p) (auth_failed q e) w.
Proof.
  intros Hq Hw. unfold auth_failed.
  repeat ok_step ltac:(first [ at_head emitEvent ltac:(aw_by emitEvent_awaiting)
                             | at_head ws_close ltac:(aw_by ws_close_awaiting) ]);
    try aw_leaf.
Qed.

Lemma elem_of_list_insert {A} (l : list A) i x y :
  y ∈ <[i:=x]> l -> y = x \/ y ∈ l.
Proof.
  intros Hy. apply list_elem_of_lookup in Hy as [j Hj].
  destruct (decide (i = j)) as [->|Hne].
  - destruct (decide (j < length l)%nat) as [Hlt|Hge].
    + rewrite list_lookup_insert_eq in Hj by exact Hlt. left. congruence.
    + rewrite list_insert_ge in Hj by lia. right. eapply list_elem_of_lookup_2, Hj.
  - rewrite list_lookup_insert_ne in Hj by exact Hne. right.
    eapply list_elem_of_lookup_2, Hj.
Qed.

Lemma settle_handshake_awaiting i o w :
  I w -> ok I (unsettled p) (settle_handshake i o) w.
Proof.
  intros Hw. unfold settle_handshake.
  assert (Hin : forall hs, handshakes (rt w) !! i = Some hs -> hs_reject hs <> p).
  { intros hs Hl. apply list_elem_of_lookup_2 in Hl. aw_hyps. apply (Hhs hs Hl). }
  assert (Hupd : forall hs,
            handshakes (rt w) !! i = Some hs ->
            I {| this := this w;
                 rt := set_handshakes
                         (<[i := {| hs_id := hs_id hs; hs_timeout := hs_timeout hs;
                                    hs_listener := hs_listener hs; hs_settled := true;
                                    hs_reject := hs_reject hs |}]> (handshakes (rt w)))
                         (rt w) |}).
  { intros hs Hl. apply list_elem_of_lookup_2 in Hl. aw_hyps. unfold I, awaiting.
    cbn [this rt pendingRequests connectionResolve timers next_timer next_promise handshakes
         sockets set_handshakes].
    split_and!; try assumption.
    intros hs' Hin'. apply elem_of_list_insert in Hin' as [->|Hin']; [|exact (Hhs _ Hin')].
    cbn. exact (Hhs _ Hl). }
  repeat ok_step ltac:(first [ at_head auth_succeeded
                                 ltac:(apply auth_succeeded_awaiting; apply Hupd;
                                       first [assumption|reflexivity])
                             | at_head auth_failed
                                 ltac:(apply auth_failed_awaiting;
                                       [apply Hin|apply Hupd];
                                       first [assumption|reflexivity]) ]);
    try assumption.
Qed.

Lemma authenticate_awaiting a q w :
  q <> p -> I w -> ok I (unsettled p) (authenticate a q) w.
Proof.
  intros Hq Hw. unfold authenticate.
  repeat ok_step ltac:(first [ at_head auth_failed ltac:(aw_by auth_failed_awaiting)
                             | at_head settle_handshake ltac:(aw_by settle_handshake_awaiting)
                             | at_head ws_send ltac:(aw_by ws_send_awaiting) ]);
    try aw_leaf.
Qed.

Lemma onopen_awaiting a q w :
  q <> p -> I w -> ok I (unsettled p) (onopen a q) w.
Proof.
  intros Hq Hw. unfold onopen.
  repeat ok_step ltac:(aw_by authenticate_awaiting); try aw_leaf.
Qed.

Lemma onclose_awaiting w : I w -> ok I (unsettled p) onclose w.
Proof.
  intros Hw. unfold onclose.
  repeat ok_step ltac:(aw_by emitEvent_awaiting); try aw_leaf.
Qed.

Lemma onerror_awaiting q e w :
  q <> p -> I w -> ok I (unsettled p) (onerror q e) w.
Proof.
  intros Hq Hw. unfold onerror.
  repeat ok_step ltac:(aw_by emitEvent_awaiting); try aw_leaf.
Qed.

Lemma run_task_awaiting task w :
  (forall id' p', task = RpcTimeout id' p' -> id' <> id /\ p' <> p) ->
  I w -> ok I (unsettled p) (run_task task) w.
Proof.
  intros Htask Hw. destruct task as [id' p'| |i]; cbn [run_task].
  - destruct (Htask id' p' eq_refl). apply rpc_timeout_awaiting; assumption.
  - repeat ok_step ltac:(aw_by connect_awaiting); aw_leaf.
  - apply settle_handshake_awaiting, Hw.
Qed.

Lemma fire_awaiting h' w : h' <> h -> I w -> ok I (unsettled p) (fire h') w.
Proof.
  intros Hne Hw. unfold fire.
  assert (Hrun : forall d task,
            timers (rt w) !! h' = Some (d, task) ->
            ok I (unsettled p) (run_task task)
              {| this := this w;
                 rt := set_timers (delete h' (timers (rt w)))
                         (set_now (Z.max (now (rt w)) d) (rt w)) |}).
  { intros d task Hl. apply run_task_awaiting.
    - intros id' p' ->. aw_hyps. exact (Htasks _ _ _ _ Hl Hne).
    - aw_leaf. }
  repeat ok_step ltac:(apply Hrun; first [assumption|reflexivity]); try assumption.
  all: try (subst; apply Hrun; assumption).
Qed.

Lemma ok_for_each_in {A} (J : World -> Prop) φ (P : A -> Prop) (l : list A)
    (f : A -> M unit) w :
  Forall P l -> (forall x w, P x -> J w -> ok J φ (f x) w) -> J w -> ok J φ (for_each l f) w.
Proof.
  intros Hl Hf. revert w. induction Hl as [|x l Hx _ IH]; intros w Hw.
  - apply ok_ret, Hw.
  - cbn [for_each]. apply ok_bind_ok; [apply Hf; assumption|]. apply IH.
Qed.

Lemma due_timers_elem target w h' :
  h' ∈ due_timers target w ->
  exists d task, timers (rt w) !! h' = Some (d, task) /\ d <= target.
Proof.
  unfold due_timers. intros Hin. apply list_elem_of_fmap in Hin as [[k [d task]] [-> Hin]].
  rewrite merge_sort_Permutation in Hin. apply list_elem_of_filter in Hin as [Hd Hin].
  apply elem_of_map_to_list in Hin. exists d, task. split; assumption.
Qed.

Lemma elapse_awaiting dt w :
  now (rt w) + Z.max 0 dt < due -> I w -> ok I (unsettled p) (elapse dt) w.
Proof.
  intros Hdt Hw. unfold elapse.
  assert (Hl : Forall (fun h' => h' <> h) (due_timers (now (rt w) + Z.max 0 dt) w)).
  { apply Forall_forall. intros h' Hin ->.
    apply due_timers_elem in Hin as (d & task & Hl & Hd).
    aw_hyps. rewrite Htimer in Hl. injection Hl as <- _. lia. }
  apply ok_bind; [prim; constructor|prim].
  apply ok_bind_ok.
  - apply (ok_for_each_in I _ _ _ _ _ Hl); [|exact Hw].
    intros h' w' Hne Hw'. apply fire_awaiting; assumption.
  - intros Hw'. split; [prim; aw_leaf|prim; constructor].
Qed.

Variable JSON_parse : string -> option json.

Lemma unsettled_outcome pr message :
  resolve pr <> p -> reject pr <> p -> unsettled p (outcome pr message).
Proof.
  intros H1 H2. unfold unsettled, outcome.
  destruct (truthy _); [destruct (converts _)|]; cbn; try reflexivity;
    apply Nat.eqb_neq; assumption.
Qed.

Lemma handleMessage_awaiting data w :
  response_to JSON_parse id data = false ->
  I w -> ok I (unsettled p) (handleMessage JSON_parse data) w.
Proof.
  intros Hr Hw. unfold ok.
  destruct (handleMessage_cases JSON_parse data w)
    as [[-> _]|[(m & ev & _ & _ & _ & ->)|[(m & id' & pr' & Hp & Hev & Hf & Hl & ->)
                                          |(m & _ & _ & _ & ->)]]].
  - rewrite world_of_mk, trace_of_mk. split; [exact Hw|repeat constructor].
  - rewrite world_of_mk, trace_of_mk.
    destruct (emitEvent_awaiting ev (of_opt (field m "data")) w Hw) as [H1 H2].
    split; [exact H1|]. apply Forall_app. split; [exact H2|].
    apply unsettled_dispatch, caught_dispatch.
  - rewrite world_of_mk, trace_of_mk.
    assert (Hne : id' <> id).
    { intros ->. rewrite (response_to_spec _ _ _ _ Hp), Hev, Hf in Hr. cbn in Hr.
      rewrite String.eqb_refl in Hr. discriminate. }
    assert (Hpr : timeout pr' <> h /\ resolve pr' <> p /\ reject pr' <> p).
    { aw_hyps. exact (Hothers _ _ Hl Hne). }
    destruct Hpr as (Ht & Hres' & Hrej'). split; [aw_leaf|].
    repeat constructor. apply unsettled_outcome; assumption.
  - rewrite world_of_mk, trace_of_mk. split; [exact Hw|constructor].
Qed.

Lemma elem_of_list_alter {A} (f : A -> A) (l : list A) i y :
  y ∈ alter f i l -> y ∈ l \/ exists x, x ∈ l /\ y = f x.
Proof.
  intros Hy. apply list_elem_of_lookup in Hy as [j Hj].
  destruct (decide (i = j)) as [->|Hne].
  - rewrite list_lookup_alter_eq in Hj. destruct (l !! j) as [x|] eqn:Hx; [|discriminate].
    cbn in Hj. injection Hj as <-. right. exists x. split; [|reflexivity].
    eapply list_elem_of_lookup_2, Hx.
  - rewrite list_lookup_alter_ne in Hj by exact Hne. left.
    eapply list_elem_of_lookup_2, Hj.
Qed.

Lemma handleAuthResponse_awaiting i data w :
  I w -> ok I (unsettled p) (handleAuthResponse JSON_parse i data) w.
Proof.
  intros Hw. unfold handleAuthResponse.
  assert (Hin : forall hs, handshakes (rt w) !! i = Some hs -> hs_timeout hs <> h).
  { intros hs Hl. apply list_elem_of_lookup_2 in Hl. aw_hyps. apply (Hhs hs Hl). }
  assert (Halt : forall (r : Runtime) (c : GatewayClient),
            I {| this := c; rt := r |} ->
            I {| this := c;
                 rt := set_handshakes
                         (alter (fun hs => {| hs_id := hs_id hs; hs_timeout := hs_timeout hs;
                                              hs_listener := None; hs_settled := hs_settled hs;
                                              hs_reject := hs_reject hs |}) i (handshakes r))
                         r |}).
  { intros r c Hrc. aw_hyps. unfold I, awaiting.
    cbn [this rt pendingRequests connectionResolve timers next_timer next_promise handshakes
         sockets set_handshakes] in *.
    split_and!; try assumption.
    intros hs' Hin'. apply elem_of_list_alter in Hin' as [Hin'|(x & Hx & ->)];
      [exact (Hhs _ Hin')|]. cbn. exact (Hhs _ Hx). }
  assert (Hclr : forall hs,
            handshakes (rt w) !! i = Some hs ->
            I {| this := this w;
                 rt := set_timers (delete (hs_timeout hs) (timers (rt w))) (rt w) |}).
  { intros hs Hl. specialize (Hin hs Hl). aw_leaf. }
  repeat ok_step ltac:(first [ apply settle_handshake_awaiting;
                               first [ apply Halt; apply Hclr; first [assumption|reflexivity]
                                     | apply Hclr; first [assumption|reflexivity] ] ]);
    try assumption;
    first [ apply Halt; apply Hclr; first [assumption|reflexivity]
          | apply Hclr; first [assumption|reflexivity] ].
Qed.

Lemma onmessage_awaiting s data w :
  response_to JSON_parse id data = false ->
  I w -> ok I (unsettled p) (onmessage JSON_parse s data) w.
Proof.
  intros Hr Hw. unfold onmessage.
  apply ok_bind_ok; [apply handleMessage_awaiting; assumption|]. intros Hw1.
  ok_step ltac:(fail). apply ok_for_each; [|exact Hw1].
  intros i w' Hw'.
  repeat ok_step ltac:(aw_by handleAuthResponse_awaiting); try assumption.
Qed.

Lemma set_socket_state_awaiting s st w : I w -> ok I (unsettled p) (set_socket_state s st) w.
Proof.
  intros Hw. split; [|prim; constructor].
  unfold set_socket_state, upd_rt, world_of. cbn [fst snd this rt].
  destruct (sockets (rt w) !! s) as [sock|] eqn:Es; [|destruct w; exact Hw].
  aw_leaf.
Qed.

Lemma exec_awaiting e w :
  leaves_waiting JSON_parse id e = true ->
  (forall dt, e = Elapse dt -> now (rt w) + Z.max 0 dt < due) ->
  I w -> ok I (unsettled p) (exec JSON_parse e) w.
Proof.
  intros He Hdt Hw. destruct e; cbn [leaves_waiting] in He; try discriminate; cbn [exec].
  - repeat ok_step ltac:(aw_by connect_awaiting); aw_leaf.
  - apply negb_true_iff, String.eqb_neq in He.
    repeat ok_step ltac:(aw_by call_awaiting); aw_leaf.
  - apply on_awaiting, Hw.
  - apply off_awaiting, Hw.
  - apply ok_bind; [prim; constructor|prim].
    destruct (sockets (rt w) !! s) as [sock|] eqn:Es; [|apply ok_ret, Hw].
    assert (Hq : ws_reject sock <> p) by (aw_hyps; exact (Hsock _ _ Es)).
    destruct (ws_readyState sock); try (apply ok_ret, Hw).
    apply ok_bind_ok; [apply set_socket_state_awaiting, Hw|]. intros Hw'.
    apply onopen_awaiting; assumption.
  - apply negb_true_iff in He. apply ok_bind; [prim; constructor|prim].
    destruct (socket_state w s) as [[]|]; try (apply ok_ret, Hw);
      apply onmessage_awaiting; assumption.
  - apply ok_bind; [prim; constructor|prim].
    destruct (sockets (rt w) !! s) as [sock|] eqn:Es; [|apply ok_ret, Hw].
    assert (Hq : ws_reject sock <> p) by (aw_hyps; exact (Hsock _ _ Es)).
    destruct (ws_readyState sock); try (apply ok_ret, Hw);
      apply onerror_awaiting; assumption.
  - apply ok_bind; [prim; constructor|prim].
    destruct (socket_state w s) as [[]|]; try (apply ok_ret, Hw);
      (apply ok_bind_ok; [apply set_socket_state_awaiting, Hw|]; intros Hw';
       apply onclose_awaiting, Hw').
  - apply elapse_awaiting; [apply Hdt; reflexivity|exact Hw].
  - split; [prim; aw_leaf|prim; constructor].
Qed.

End Awaiting.

(** ** The clock along a course of events *)

Lemma total_elapsed_nonneg evs : 0 <= total_elapsed evs.
Proof. unfold total_elapsed. induction evs as [|[] evs IH]; cbn [foldr]; lia. Qed.

Lemma set_socket_state_clock s st w :
  now (rt (world_of (set_socket_state s st w))) = now (rt w).
Proof.
  unfold set_socket_state, upd_rt, world_of. cbn [fst snd rt].
  destruct (sockets (rt w) !! s); reflexivity.
Qed.

Lemma exec_clock (JSON_parse : string -> option json) e w :
  e <> AppDisconnect ->
  now (rt (world_of (exec JSON_parse e w))) = now (rt w) + total_elapsed [e].
Proof.
  intros Hne.
  assert (Hstill : policy_event e = false -> (forall dt, e <> Elapse dt) ->
                   total_elapsed [e] = 0 ->
                   now (rt (world_of (exec JSON_parse e w))) = now (rt w) + total_elapsed [e]).
  { intros Hp He ->. destruct (exec_keeps_clock JSON_parse e w Hp He) as [Hn _]. lia. }
  destruct e; try (apply Hstill; [reflexivity|discriminate|reflexivity]).
  - congruence.
  - cbn [exec total_elapsed foldr]. rewrite bind_eq, world_of_mk.
    change (value_of (get w)) with w. change (world_of (get w)) with w.
    destruct (sockets (rt w) !! s) as [sock|]; [|cbn; lia].
    destruct (ws_readyState sock); try (cbn; lia).
    rewrite bind_eq, world_of_mk.
    destruct (onopen_ok auth_id (ws_reject sock) (world_of (set_socket_state s OPEN w)))
      as [[_ Hn] _].
    rewrite Hn, set_socket_state_clock. lia.
  - rewrite exec_SockClose. cbn [total_elapsed foldr].
    assert (Hc : now (rt (world_of (onclose (world_of (set_socket_state s CLOSED w)))))
                 = now (rt w) + 0).
    { rewrite onclose_eq, world_of_mk.
      destruct (will_reconnect _); cbn [rt now set_next_timer set_timers];
        rewrite set_socket_state_clock; lia. }
    destruct (socket_state w s) as [[]|]; try exact Hc; cbn; lia.
  - cbn [exec total_elapsed foldr]. unfold elapse. rewrite bind_eq, world_of_mk.
    change (value_of (get w)) with w. change (world_of (get w)) with w.
    rewrite bind_eq, world_of_mk. unfold upd_rt, world_of. cbn [fst snd rt now set_now]. lia.
Qed.

Lemma total_elapsed_cons e evs :
  total_elapsed (e :: evs) = total_elapsed [e] + total_elapsed evs.
Proof. unfold total_elapsed. cbn [foldr]. destruct e; lia. Qed.

Lemma leaves_waiting_not_disconnect (JSON_parse : string -> option json) id e :
  leaves_waiting JSON_parse id e = true -> e <> AppDisconnect.
Proof. intros He ->. discriminate. Qed.

Lemma run_awaiting (JSON_parse : string -> option json) id p h due evs w :
  Forall (fun e => leaves_waiting JSON_parse id e = true) evs ->
  now (rt w) + total_elapsed evs < due ->
  awaiting id p h due w ->
  ok (awaiting id p h due) (unsettled p) (run JSON_parse evs) w
  /\ now (rt (world_of (run JSON_parse evs w))) = now (rt w) + total_elapsed evs.
Proof.
  intros Hl. revert w. induction Hl as [|e evs He Hl IH]; intros w Hdue Hw.
  - split; [apply ok_ret, Hw|]. cbn. lia.
  - rewrite total_elapsed_cons in *. cbn [run].
    pose proof (total_elapsed_nonneg evs) as Hpos.
    assert (Hex : ok (awaiting id p h due) (unsettled p) (exec JSON_parse e) w).
    { apply exec_awaiting; [exact He| |exact Hw].
      intros dt ->. unfold total_elapsed in Hdue. cbn [foldr] in Hdue.
      fold (total_elapsed evs) in Hdue. lia. }
    pose proof (exec_clock JSON_parse e w (leaves_waiting_not_disconnect _ _ _ He)) as Hc.
    destruct (IH (world_of (exec JSON_parse e w))) as [Hrun Hn]; [lia|apply Hex|].
    split.
    + apply ok_bind_ok; [exact Hex|]. intros _. exact Hrun.
    + rewrite bind_eq, world_of_mk, Hn, Hc. lia.
Qed.

(** ** An entry that is gone stays gone while timers fire *)

Section Gone.

Variable id : string.

Let K : World -> Prop := fun w => pendingRequests (this w) !! id = None.
Let any : effect -> Prop := fun _ => True.

Ltac gone_leaf :=
  unfold K, any in *; unfold world_of, value_of, trace_of in *;
  cbn [this rt pendingRequests set_ws set_pendingRequests set_eventListeners
       set_wildcardListeners set_reconnectAttempts set_reconnectDelay
       set_intentionalDisconnect set_connectionPromise set_connectionResolve
       set_authenticated set_eventBuffer] in *;
  first [ assumption | exact Logic.I
        | apply lookup_delete_None; auto; fail
        | apply Forall_forall; intros; exact Logic.I
        | idtac ].

Ltac gone_by lem := apply lem; try assumption; gone_leaf.

Lemma emitEvent_gone e d w : K w -> ok K any (emitEvent e d) w.
Proof.
  intros Hw. unfold ok. rewrite emitEvent_eq, world_of_mk, trace_of_mk.
  split; [|apply Forall_forall; intros; exact Logic.I].
  destruct (buffered e); [|destruct w; exact Hw]. gone_leaf.
Qed.

Lemma ws_close_gone s w : K w -> ok K any (ws_close s) w.
Proof.
  intros Hw. unfold ws_close. repeat ok_step ltac:(fail); try gone_leaf.
  all: destruct (sockets _ !! s) eqn:Es; gone_leaf.
Qed.

Lemma connect_gone w : K w -> ok K any connect w.
Proof. intros Hw. unfold connect. repeat ok_step ltac:(fail); gone_leaf. Qed.

Lemma auth_succeeded_gone w : K w -> ok K any auth_succeeded w.
Proof.
  intros Hw. unfold auth_succeeded.
  repeat ok_step ltac:(gone_by emitEvent_gone); try gone_leaf.
Qed.

Lemma auth_failed_gone q e w : K w -> ok K any (auth_failed q e) w.
Proof.
  intros Hw. unfold auth_failed.
  repeat ok_step ltac:(first [ at_head emitEvent ltac:(gone_by emitEvent_gone)
                             | at_head ws_close ltac:(gone_by ws_close_gone) ]);
    try gone_leaf.
Qed.

Lemma settle_handshake_gone i o w : K w -> ok K any (settle_handshake i o) w.
Proof.
  intros Hw. unfold settle_handshake.
  repeat ok_step ltac:(first [ at_head auth_succeeded ltac:(gone_by auth_succeeded_gone)
                             | at_head auth_failed ltac:(gone_by auth_failed_gone) ]);
    try gone_leaf.
Qed.

Lemma rpc_timeout_gone id' p' w : K w -> ok K any (rpc_timeout id' p') w.
Proof. intros Hw. unfold rpc_timeout. repeat ok_step ltac:(fail); gone_leaf. Qed.

Lemma run_task_gone task w : K w -> ok K any (run_task task) w.
Proof.
  intros Hw. destruct task as [id' p'| |i]; cbn [run_task].
  - apply rpc_timeout_gone, Hw.
  - repeat ok_step ltac:(gone_by connect_gone); gone_leaf.
  - apply settle_handshake_gone, Hw.
Qed.

Lemma fire_gone h w : K w -> ok K any (fire h) w.
Proof.
  intros Hw. unfold fire.
  repeat ok_step ltac:(gone_by run_task_gone); try gone_leaf.
Qed.

Variable JSON_parse : string -> option json.

Lemma on_gone topic cb w : K w -> ok K any (on topic cb) w.
Proof.
  intros Hw. unfold on. destruct (String.eqb topic "*").
  - repeat ok_step ltac:(fail); gone_leaf.
  - repeat ok_step ltac:(fail).
    destruct (eventListeners _ !! topic); gone_leaf;
      destruct (eventListeners _ !! topic); gone_leaf.
Qed.

Lemma off_gone topic cb w : K w -> ok K any (off topic cb) w.
Proof.
  intros Hw. unfold off. repeat ok_step ltac:(fail).
  all: try destruct (eventListeners _ !! topic); gone_leaf.
Qed.

Lemma ws_send_gone s payload w : K w -> ok K any (ws_send s payload) w.
Proof. intros Hw. unfold ws_send. repeat ok_step ltac:(fail); gone_leaf. Qed.

Lemma call_gone id' method params w :
  id' <> id -> K w -> ok K any (call id' method params) w.
Proof.
  intros Hne Hw. unfold call.
  repeat ok_step ltac:(apply ws_send_gone; gone_leaf;
                       rewrite lookup_insert_ne by exact Hne; assumption);
    try gone_leaf.
  all: try (rewrite lookup_insert_ne by exact Hne; assumption).
Qed.

Lemma authenticate_gone a q w : K w -> ok K any (authenticate a q) w.
Proof.
  intros Hw. unfold authenticate.
  repeat ok_step ltac:(first [ gone_by auth_failed_gone
                             | gone_by settle_handshake_gone
                             | gone_by ws_send_gone ]);
    try gone_leaf.
Qed.

Lemma onopen_gone a q w : K w -> ok K any (onopen a q) w.
Proof.
  intros Hw. unfold onopen.
  repeat ok_step ltac:(gone_by authenticate_gone); try gone_leaf.
Qed.

Lemma onclose_gone w : K w -> ok K any onclose w.
Proof.
  intros Hw. unfold onclose.
  repeat ok_step ltac:(gone_by emitEvent_gone); try gone_leaf.
Qed.

Lemma onerror_gone q e w : K w -> ok K any (onerror q e) w.
Proof.
  intros Hw. unfold onerror.
  repeat ok_step ltac:(gone_by emitEvent_gone); try gone_leaf.
Qed.

Lemma any_trace (t : trace) : Forall any t.
Proof. apply Forall_forall. intros; exact Logic.I. Qed.

Lemma handleMessage_gone data w : K w -> ok K any (handleMessage JSON_parse data) w.
Proof.
  intros Hw. unfold ok. split; [|apply any_trace].
  destruct (handleMessage_cases JSON_parse data w)
    as [[-> _]|[(m & ev & _ & _ & _ & ->)|[(m & id' & pr' & _ & _ & _ & _ & ->)
                                          |(m & _ & _ & _ & ->)]]].
  - exact Hw.
  - rewrite world_of_mk. apply emitEvent_gone, Hw.
  - rewrite world_of_mk. gone_leaf.
  - exact Hw.
Qed.

Lemma handleAuthResponse_gone i data w :
  K w -> ok K any (handleAuthResponse JSON_parse i data) w.
Proof.
  intros Hw. unfold handleAuthResponse.
  repeat ok_step ltac:(gone_by settle_handshake_gone); try gone_leaf.
Qed.

Lemma onmessage_gone s data w : K w -> ok K any (onmessage JSON_parse s data) w.
Proof.
  intros Hw. unfold onmessage.
  apply ok_bind_ok; [apply handleMessage_gone, Hw|]. intros Hw1.
  ok_step ltac:(fail). apply ok_for_each; [|exact Hw1].
  intros i w' Hw'.
  repeat ok_step ltac:(gone_by handleAuthResponse_gone); try gone_leaf.
Qed.

Lemma disconnect_gone w : K w -> ok K any disconnect w.
Proof.
  intros _. split; [|apply any_trace].
  destruct (disconnect_spec w) as (Hc & _). unfold K. rewrite Hc. apply lookup_empty.
Qed.

Lemma elapse_gone dt w : K w -> ok K any (elapse dt) w.
Proof.
  intros Hw. unfold elapse.
  apply ok_bind; [prim; constructor|prim].
  apply ok_bind_ok; [apply ok_for_each; [apply fire_gone|exact Hw]|].
  intros Hw'. split; [prim; gone_leaf|apply any_trace].
Qed.

Lemma set_socket_state_gone s st w : K w -> ok K any (set_socket_state s st) w.
Proof.
  intros Hw. split; [|apply any_trace].
  unfold set_socket_state, upd_rt, world_of. cbn [fst snd this rt].
  destruct (sockets (rt w) !! s); destruct w; exact Hw.
Qed.

Lemma exec_gone e w : is_call_with id e = false -> K w -> ok K any (exec JSON_parse e) w.
Proof.
  intros He Hw. destruct e; cbn [is_call_with] in He; cbn [exec].
  - repeat ok_step ltac:(gone_by connect_gone); gone_leaf.
  - apply disconnect_gone, Hw.
  - apply String.eqb_neq in He.
    repeat ok_step ltac:(gone_by call_gone); gone_leaf.
  - apply on_gone, Hw.
  - apply off_gone, Hw.
  - apply ok_bind; [prim; constructor|prim].
    destruct (sockets (rt w) !! s) as [sock|]; [|apply ok_ret, Hw].
    destruct (ws_readyState sock); try (apply ok_ret, Hw).
    apply ok_bind_ok; [apply set_socket_state_gone, Hw|]. intros Hw'.
    apply onopen_gone, Hw'.
  - apply ok_bind; [prim; constructor|prim].
    destruct (socket_state w s) as [[]|]; try (apply ok_ret, Hw);
      apply onmessage_gone; assumption.
  - apply ok_bind; [prim; constructor|prim].
    destruct (sockets (rt w) !! s) as [sock|]; [|apply ok_ret, Hw].
    destruct (ws_readyState sock); try (apply ok_ret, Hw);
      apply onerror_gone; assumption.
  - apply ok_bind; [prim; constructor|prim].
    destruct (socket_state w s) as [[]|]; try (apply ok_ret, Hw);
      (apply ok_bind_ok; [apply set_socket_state_gone, Hw|]; intros Hw';
       apply onclose_gone, Hw').
  - apply elapse_gone, Hw.
  - split; [prim; gone_leaf|apply any_trace].
Qed.

Lemma run_gone evs w :
  Forall (fun e => is_call_with id e = false) evs ->
  K w -> ok K any (run JSON_parse evs) w.
Proof.
  intros Hl. revert w. induction Hl as [|e evs He Hl IH]; intros w Hw.
  - apply ok_ret, Hw.
  - cbn [run]. apply ok_bind_ok; [apply exec_gone; assumption|]. intros Hw'. apply IH, Hw'.
Qed.

End Gone.

(** ** The timeout of a call *)

Lemma for_each_app {A} (l1 l2 : list A) (f : A -> M unit) w :
  for_each (l1 ++ l2) f w = (for_each l1 f ≫= fun _ => for_each l2 f) w.
Proof.
  revert w. induction l1 as [|x l1 IH]; intros w.
  - cbn [app for_each]. unfold mbind, M_bind, bind, ret.
    destruct (for_each l2 f w) as [[u w'] t]. reflexivity.
  - cbn [app for_each]. rewrite bind_assoc.
    rewrite (bind_eq (f x)), (bind_eq (f x)), IH. reflexivity.
Qed.

Lemma due_timers_in target w h d task :
  timers (rt w) !! h = Some (d, task) -> d <= target -> h ∈ due_timers target w.
Proof.
  intros Hl Hd. unfold due_timers. apply list_elem_of_fmap. exists (h, (d, task)).
  split; [reflexivity|]. rewrite merge_sort_Permutation. apply list_elem_of_filter.
  split; [exact Hd|]. apply elem_of_map_to_list, Hl.
Qed.

Lemma elapse_times_out id p h due dt w :
  awaiting id p h due w ->
  due <= now (rt w) + Z.max 0 dt ->
  exists t1 t2,
    trace_of (elapse dt w) = t1 ++ Reject p (VError (JStr "RPC call timed out")) :: t2
    /\ Forall (unsettled p) t1
    /\ pendingRequests (this (world_of (elapse dt w))) !! id = None.
Proof.
  intros Hw Hdue. unfold elapse. rewrite bind_eq, world_of_mk, trace_of_mk.
  change (value_of (get w)) with w. change (world_of (get w)) with w.
  change (trace_of (get w)) with (@nil effect). cbn [app].
  rewrite bind_eq, world_of_mk, trace_of_mk.
  assert (Hin : h ∈ due_timers (now (rt w) + Z.max 0 dt) w).
  { destruct Hw as (_ & Ht & _). eapply due_timers_in; [exact Ht|exact Hdue]. }
  apply list_elem_of_split_l in Hin as (l1 & l2 & -> & Hl1).
  rewrite for_each_app, bind_eq, world_of_mk, trace_of_mk. cbn [for_each].
  destruct (ok_for_each_in (awaiting id p h due) (unsettled p) (fun h' => h' <> h) l1 fire w)
    as [Hw1 Ht1]; [| |exact Hw|].
  { apply Forall_forall. intros h' Hh' ->. exact (Hl1 Hh'). }
  { intros h' w' Hne Hw'. apply fire_awaiting; assumption. }
  set (w1 := world_of (for_each l1 fire w)) in *.
  rewrite bind_eq, world_of_mk, trace_of_mk.
  assert (Ht : timers (rt w1) !! h = Some (due, RpcTimeout id p)) by (apply Hw1).
  rewrite (fire_rpc_timeout _ _ _ _ _ Ht), world_of_mk, trace_of_mk.
  match goal with
  | |- context [for_each l2 fire ?w2] =>
      destruct (ok_for_each (fun w => pendingRequests (this w) !! id = None)
                  (fun _ => True) l2 fire w2) as [Hw3 _];
        [intros h' w' Hw'; apply fire_gone, Hw'
        |cbn [this pendingRequests set_pendingRequests]; apply lookup_delete_eq|]
  end.
  eexists _, _. split; [|split; [exact Ht1|]].
  - rewrite <- app_assoc. cbn [app]. reflexivity.
  - unfold upd_rt, world_of at 1. cbn [fst snd this]. exact Hw3.
Qed.

Lemma call_awaits id method params w :
  ws_is_open w = true ->
  allocated w -> unused_id id w ->
  value_of (call id method params w) = next_promise (rt w)
  /\ Forall (unsettled (next_promise (rt w))) (trace_of (call id method params w))
  /\ now (rt (world_of (call id method params w))) = now (rt w)
  /\ awaiting id (next_promise (rt w)) (next_timer (rt w)) (now (rt w) + 30000)
       (world_of (call id method params w)).
Proof.
  intros Hopen (Ha1 & Ha2 & Ha3 & Ha4 & Ha5 & Ha6) (Hu1 & Hu2).
  apply ws_is_open_spec in Hopen as (s & Hs & Hst).
  rewrite (call_open _ _ _ _ _ Hs Hst), value_of_mk, world_of_mk, trace_of_mk.
  split; [reflexivity|]. split; [repeat constructor|]. split; [reflexivity|].
  unfold awaiting.
  cbn [this rt pendingRequests connectionResolve timers next_timer next_promise handshakes
       sockets set_pendingRequests set_timers set_next_timer set_next_promise].
  split_and!.
  - apply lookup_insert_eq.
  - apply lookup_insert_eq.
  - lia.
  - lia.
  - intros id' pr' Hl Hne. rewrite lookup_insert_ne in Hl by congruence.
    destruct (Ha3 _ _ Hl) as (? & ? & ?). split_and!; lia.
  - intros h' d' id' p' Hl Hne. rewrite lookup_insert_ne in Hl by congruence.
    split.
    + intros ->. exact (Hu2 _ _ _ Hl).
    + pose proof (Ha2 _ _ _ _ Hl). lia.
  - intros hs Hin. destruct (Ha4 _ Hin). split; lia.
  - intros s' sock Hl. pose proof (Ha5 _ _ Hl). lia.
  - intros Hc. pose proof (Ha6 _ Hc). lia.
Qed.

Lemma is_call_with_of_is_call id e : is_call e = false -> is_call_with id e = false.
Proof. destruct e; cbn; congruence. Qed.

Lemma call_times_out_allocated (JSON_parse : string -> option json)
    id method params evs dt w :
  ws_is_open w = true ->
  allocated w ->
  unused_id id w ->
  Forall (fun e => leaves_waiting JSON_parse id e = true) evs ->
  total_elapsed evs < 30000 ->
  30000 <= total_elapsed evs + Z.max 0 dt ->
  let p := value_of (call id method params w) in
  let w1 := world_of (call id method params w) in
  let before := run JSON_parse evs w1 in
  let after := exec JSON_parse (Elapse dt) (world_of before) in
  is_Some (pendingRequests (this (world_of before)) !! id)
  /\ Forall (unsettled p) (trace_of (call id method params w) ++ trace_of before)
  /\ (exists t1 t2,
        trace_of after = t1 ++ Reject p (VError (JStr "RPC call timed out")) :: t2
        /\ Forall (unsettled p) t1)
  /\ pendingRequests (this (world_of after)) !! id = None
  /\ (pendingRequests (this w) = ∅ ->
      Forall (fun e => is_call e = false) evs ->
      pendingRequests (this (world_of after)) = ∅).
Proof.
  intros Hopen Hall Hun Hevs Hlt Hge p w1 before after.
  destruct (call_awaits id method params w Hopen Hall Hun) as (Hp & Htc & Hnow & Haw).
  fold w1 in Hnow, Haw. fold p in Hp. rewrite <- Hp in Htc, Haw.
  destruct (run_awaiting JSON_parse id p (next_timer (rt w)) (now (rt w) + 30000) evs w1)
    as [[Hw2 Ht2] Hclock]; [exact Hevs|lia|exact Haw|].
  fold before in Hw2, Ht2, Hclock.
  destruct (elapse_times_out id p _ _ dt (world_of before) Hw2) as (t1 & t2 & Ht & Ht1 & Hgone);
    [lia|].
  split_and!.
  - destruct Hw2 as [Hl _]. rewrite Hl. eexists; reflexivity.
  - apply Forall_app. split; assumption.
  - exists t1, t2. split; assumption.
  - exact Hgone.
  - intros Hempty Hcalls. apply map_eq. intros id'. rewrite lookup_empty.
    destruct (decide (id' = id)) as [->|Hne]; [exact Hgone|].
    assert (H0 : pendingRequests (this w) !! id' = None) by (rewrite Hempty; apply lookup_empty).
    assert (Hid : id <> id') by congruence.
    destruct (call_gone id' id method params w Hid H0) as [H1 _]. fold w1 in H1.
    destruct (run_gone id' JSON_parse evs w1) as [H2 _]; [|exact H1|].
    { eapply Forall_impl; [exact Hcalls|]. intros e. apply is_call_with_of_is_call. }
    fold before in H2.
    destruct (exec_gone id' JSON_parse (Elapse dt) (world_of before) eq_refl H2) as [H3 _].
    exact H3.
Qed.

(** ** Handles and promises are handed out once *)

Section Allocated.

Let any : effect -> Prop := fun _ => True.

Ltac al_hyps :=
  repeat match goal with
  | H : allocated _ |- _ =>
      let H1 := fresh "Ha1" in let H2 := fresh "Ha2" in let H3 := fresh "Ha3" in
      let H4 := fresh "Ha4" in let H5 := fresh "Ha5" in let H6 := fresh "Ha6" in
      destruct H as (H1 & H2 & H3 & H4 & H5 & H6)
  end.

Ltac al_split :=
  repeat match goal with
  | H : <[_:=_]> _ !! _ = Some _ |- _ =>
      apply lookup_insert_Some in H as [[? ?]|[? ?]]; subst
  | H : delete _ _ !! _ = Some _ |- _ => apply lookup_delete_Some in H as [? ?]
  | H : ∅ !! _ = Some _ |- _ => rewrite lookup_empty in H; discriminate H
  | H : _ ∈ _ ++ _ |- _ => apply elem_of_app in H as [?|?]
  | H : _ ∈ [_] |- _ => apply list_elem_of_singleton in H; subst
  | H : _ ∈ <[_:=_]> _ |- _ => apply elem_of_list_insert in H as [?|?]; subst
  | H : _ ∈ alter _ _ _ |- _ => apply elem_of_list_alter in H as [?|(? & ? & ?)]; subst
  | H : Some _ = Some _ |- _ => injection H as ?; subst
  | H : (_, _) = (_, _) |- _ => injection H as ? ?; subst
  | H : RpcTimeout _ _ = RpcTimeout _ _ |- _ => injection H as ? ?; subst
  | H : Reconnect = RpcTimeout _ _ |- _ => discriminate H
  | H : AuthTimeout _ = RpcTimeout _ _ |- _ => discriminate H
  end.

Ltac al_sat :=
  repeat match goal with
  | H1 : (forall h t, timers ?r !! h = Some t -> _),
    H2 : (forall h d id p, timers ?r !! h = Some (d, RpcTimeout id p) -> _),
    Hl : timers ?r !! _ = Some (_, RpcTimeout _ _) |- _ =>
      pose proof (H1 _ _ Hl); pose proof (H2 _ _ _ _ Hl); clear Hl
  | H1 : (forall h t, timers ?r !! h = Some t -> _), Hl : timers ?r !! _ = Some _ |- _ =>
      pose proof (H1 _ _ Hl); clear Hl
  | H3 : (forall id pr, pendingRequests ?c !! id = Some pr -> _),
    Hl : pendingRequests ?c !! _ = Some _ |- _ =>
      pose proof (H3 _ _ Hl); clear Hl
  | H4 : (forall hs, hs ∈ ?l -> _), Hl : _ ∈ ?l |- _ =>
      pose proof (H4 _ Hl); clear Hl
  | H4 : (forall hs, hs ∈ ?l -> _), Hl : ?l !! _ = Some _ |- _ =>
      pose proof (H4 _ (list_elem_of_lookup_2 _ _ _ Hl)); clear Hl
  | H5 : (forall s sock, sockets ?r !! s = Some sock -> _),
    Hl : sockets ?r !! _ = Some _ |- _ =>
      pose proof (H5 _ _ Hl); clear Hl
  | H6 : (forall p, connectionResolve ?c = Some p -> _),
    Hl : connectionResolve ?c = Some _ |- _ =>
      pose proof (H6 _ Hl); clear Hl
  end.

Ltac al_leaf :=
  al_hyps; unfold allocated, any; unfold world_of, value_of, trace_of in *;
  cbn [this rt pendingRequests connectionResolve timers next_timer next_promise handshakes
       sockets set_ws set_pendingRequests set_eventListeners set_wildcardListeners
       set_reconnectAttempts set_reconnectDelay set_intentionalDisconnect
       set_connectionPromise set_connectionResolve set_authenticated set_eventBuffer
       set_sockets set_timers set_handshakes set_next_socket set_next_timer
       set_next_promise set_now];
  try split_and!;
  first [ assumption
        | exact Logic.I
        | lia
        | (intros; al_split; cbn in *; al_sat;
           intuition (try lia; try congruence); fail)
        | idtac ].

Ltac al_by lem := apply lem; try assumption; al_leaf.

Lemma emitEvent_allocated e d w : allocated w -> ok allocated any (emitEvent e d) w.
Proof.
  intros Hw. unfold ok. rewrite emitEvent_eq, world_of_mk, trace_of_mk.
  split; [|apply any_trace].
  destruct (buffered e); [|destruct w; exact Hw]. al_leaf.
Qed.

Lemma on_allocated topic cb w : allocated w -> ok allocated any (on topic cb) w.
Proof.
  intros Hw. unfold on. destruct (String.eqb topic "*").
  - repeat ok_step ltac:(fail); try apply any_trace; al_leaf.
  - repeat ok_step ltac:(fail).
    destruct (eventListeners _ !! topic); cbn [this eventListeners set_eventListeners];
      try rewrite lookup_insert_eq; try destruct (eventListeners _ !! topic); al_leaf.
Qed.

Lemma off_allocated topic cb w : allocated w -> ok allocated any (off topic cb) w.
Proof.
  intros Hw. unfold off. repeat ok_step ltac:(fail).
  all: try destruct (eventListeners _ !! topic); al_leaf.
Qed.

Lemma ws_send_allocated s payload w : allocated w -> ok allocated any (ws_send s payload) w.
Proof. intros Hw. unfold ws_send. repeat ok_step ltac:(fail); al_leaf. Qed.

Lemma ws_close_allocated s w : allocated w -> ok allocated any (ws_close s) w.
Proof.
  intros Hw. unfold ws_close. repeat ok_step ltac:(fail); try al_leaf.
  all: destruct (sockets _ !! s) eqn:Es; al_leaf.
Qed.

Lemma call_allocated id method params w :
  allocated w -> ok allocated any (call id method params) w.
Proof.
  intros Hw. unfold call.
  repeat ok_step ltac:(al_by ws_send_allocated); try al_leaf.
Qed.

Lemma rpc_timeout_allocated id p w : allocated w -> ok allocated any (rpc_timeout id p) w.
Proof. intros Hw. unfold rpc_timeout. repeat ok_step ltac:(fail); al_leaf. Qed.

Lemma connect_allocated w : allocated w -> ok allocated any connect w.
Proof. intros Hw. unfold connect. repeat ok_step ltac:(fail); al_leaf. Qed.

Lemma auth_succeeded_allocated w : allocated w -> ok allocated any auth_succeeded w.
Proof.
  intros Hw. unfold auth_succeeded.
  repeat ok_step ltac:(al_by emitEvent_allocated); try al_leaf.
Qed.

Lemma auth_failed_allocated q e w : allocated w -> ok allocated any (auth_failed q e) w.
Proof.
  intros Hw. unfold auth_failed.
  repeat ok_step ltac:(first [ at_head emitEvent ltac:(al_by emitEvent_allocated)
                             | at_head ws_close ltac:(al_by ws_close_allocated) ]);
    try al_leaf.
Qed.

Lemma settle_handshake_allocated i o w :
  allocated w -> ok allocated any (settle_handshake i o) w.
Proof.
  intros Hw. unfold settle_handshake.
  assert (Hupd : forall hs,
            handshakes (rt w) !! i = Some hs ->
            allocated
              {| this := this w;
                 rt := set_handshakes
                         (<[i := {| hs_id := hs_id hs; hs_timeout := hs_timeout hs;
                                    hs_listener := hs_listener hs; hs_settled := true;
                                    hs_reject := hs_reject hs |}]> (handshakes (rt w)))
                         (rt w) |}).
  { intros hs Hl. al_leaf. }
  repeat ok_step ltac:(first [ at_head auth_succeeded
                                 ltac:(apply auth_succeeded_allocated; apply Hupd;
                                       first [assumption|reflexivity])
                             | at_head auth_failed
                                 ltac:(apply auth_failed_allocated; apply Hupd;
                                       first [assumption|reflexivity]) ]);
    try assumption.
Qed.

Lemma authenticate_allocated a q w :
  (q < next_promise (rt w))%nat ->
  allocated w -> ok allocated any (authenticate a q) w.
Proof.
  intros Hq Hw. unfold authenticate.
  repeat ok_step ltac:(first [ al_by auth_failed_allocated
                             | al_by settle_handshake_allocated
                             | al_by ws_send_allocated ]);
    try al_leaf.
Qed.

Lemma onopen_allocated a q w :
  (q < next_promise (rt w))%nat ->
  allocated w -> ok allocated any (onopen a q) w.
Proof.
  intros Hq Hw. unfold onopen.
  repeat ok_step ltac:(al_by authenticate_allocated); try al_leaf.
Qed.

Lemma onclose_allocated w : allocated w -> ok allocated any onclose w.
Proof.
  intros Hw. unfold onclose.
  repeat ok_step ltac:(al_by emitEvent_allocated); try al_leaf.
Qed.

Lemma onerror_allocated q e w : allocated w -> ok allocated any (onerror q e) w.
Proof.
  intros Hw. unfold onerror.
  repeat ok_step ltac:(al_by emitEvent_allocated); try al_leaf.
Qed.

Lemma run_task_allocated task w : allocated w -> ok allocated any (run_task task) w.
Proof.
  intros Hw. destruct task as [id' p'| |i]; cbn [run_task].
  - apply rpc_timeout_allocated, Hw.
  - repeat ok_step ltac:(al_by connect_allocated); al_leaf.
  - apply settle_handshake_allocated, Hw.
Qed.

Lemma fire_allocated h w : allocated w -> ok allocated any (fire h) w.
Proof.
  intros Hw. unfold fire.
  repeat ok_step ltac:(al_by run_task_allocated); try al_leaf.
Qed.

Lemma elapse_allocated dt w : allocated w -> ok allocated any (elapse dt) w.
Proof.
  intros Hw. unfold elapse.
  apply ok_bind; [prim; constructor|prim].
  apply ok_bind_ok; [apply ok_for_each; [apply fire_allocated|exact Hw]|].
  intros Hw'. split; [prim; al_leaf|apply any_trace].
Qed.

Lemma disconnect_allocated w : allocated w -> ok allocated any disconnect w.
Proof.
  intros Hw. unfold disconnect.
  assert (Hloop : forall (l : list (string * PendingRequest)) w',
            allocated w' ->
            ok allocated any
              (for_each l (fun kv =>
                 clearTimeout (timeout kv.2) ;;
                 tell [Reject (reject kv.2) (VError (JStr "Connection closed"))])) w').
  { intros l w' Hw'. apply ok_for_each; [|exact Hw'].
    intros kv w2 Hw2. unfold ok. rewrite clear_then_tell, world_of_mk, trace_of_mk.
    split; [al_leaf|apply any_trace]. }
  repeat ok_step ltac:(first [ al_by ws_close_allocated | al_by Hloop ]); try al_leaf.
Qed.

Lemma set_socket_state_allocated s st w :
  allocated w -> ok allocated any (set_socket_state s st) w.
Proof.
  intros Hw. split; [|apply any_trace].
  unfold set_socket_state, upd_rt, world_of. cbn [fst snd this rt].
  destruct (sockets (rt w) !! s) as [sock|] eqn:Es; [|destruct w; exact Hw].
  al_leaf.
Qed.

Lemma set_socket_state_next_promise s st w :
  next_promise (rt (world_of (set_socket_state s st w))) = next_promise (rt w).
Proof.
  unfold set_socket_state, upd_rt, world_of. cbn [fst snd rt].
  destruct (sockets (rt w) !! s); reflexivity.
Qed.

Variable JSON_parse : string -> option json.

Lemma handleMessage_allocated data w :
  allocated w -> ok allocated any (handleMessage JSON_parse data) w.
Proof.
  intros Hw. unfold ok. split; [|apply any_trace].
  destruct (handleMessage_cases JSON_parse data w)
    as [[-> _]|[(m & ev & _ & _ & _ & ->)|[(m & id' & pr' & _ & _ & _ & _ & ->)
                                          |(m & _ & _ & _ & ->)]]].
  - exact Hw.
  - rewrite world_of_mk. apply emitEvent_allocated, Hw.
  - rewrite world_of_mk. al_leaf.
  - exact Hw.
Qed.

Lemma handleAuthResponse_allocated i data w :
  allocated w -> ok allocated any (handleAuthResponse JSON_parse i data) w.
Proof.
  intros Hw. unfold handleAuthResponse.
  assert (Halt : forall (r : Runtime) (c : GatewayClient),
            allocated {| this := c; rt := r |} ->
            allocated
              {| this := c;
                 rt := set_handshakes
                         (alter (fun hs => {| hs_id := hs_id hs; hs_timeout := hs_timeout hs;
                                              hs_listener := None; hs_settled := hs_settled hs;
                                              hs_reject := hs_reject hs |}) i (handshakes r))
                         r |}).
  { intros r c Hrc. al_leaf. }
  assert (Hclr : forall h,
            allocated {| this := this w;
                         rt := set_timers (delete h (timers (rt w))) (rt w) |}).
  { intros h. al_leaf. }
  repeat ok_step ltac:(first [ apply settle_handshake_allocated;
                               first [ apply Halt; apply Hclr | apply Hclr ] ]);
    try assumption; first [ apply Halt; apply Hclr | apply Hclr ].
Qed.

Lemma onmessage_allocated s data w :
  allocated w -> ok allocated any (onmessage JSON_parse s data) w.
Proof.
  intros Hw. unfold onmessage.
  apply ok_bind_ok; [apply handleMessage_allocated; assumption|]. intros Hw1.
  ok_step ltac:(fail). apply ok_for_each; [|exact Hw1].
  intros i w' Hw'.
  repeat ok_step ltac:(al_by handleAuthResponse_allocated); try assumption.
Qed.

Lemma exec_allocated e w : allocated w -> ok allocated any (exec JSON_parse e) w.
Proof.
  intros Hw. destruct e; cbn [exec].
  - repeat ok_step ltac:(al_by connect_allocated); al_leaf.
  - apply disconnect_allocated, Hw.
  - repeat ok_step ltac:(al_by call_allocated); al_leaf.
  - apply on_allocated, Hw.
  - apply off_allocated, Hw.
  - apply ok_bind; [prim; constructor|prim].
    destruct (sockets (rt w) !! s) as [sock|] eqn:Es; [|apply ok_ret, Hw].
    assert (Hq : (ws_reject sock < next_promise (rt w))%nat)
      by (al_hyps; exact (Ha5 _ _ Es)).
    destruct (ws_readyState sock); try (apply ok_ret, Hw).
    apply ok_bind_ok; [apply set_socket_state_allocated, Hw|]. intros Hw'.
    apply onopen_allocated; [|exact Hw'].
    pose proof (set_socket_state_next_promise s OPEN w) as E.
    unfold set_socket_state in E. rewrite E. exact Hq.
  - apply ok_bind; [prim; constructor|prim].
    destruct (socket_state w s) as [[]|]; try (apply ok_ret, Hw);
      apply onmessage_allocated; assumption.
  - apply ok_bind; [prim; constructor|prim].
    destruct (sockets (rt w) !! s) as [sock|]; [|apply ok_ret, Hw].
    destruct (ws_readyState sock); try (apply ok_ret, Hw);
      apply onerror_allocated; assumption.
  - apply ok_bind; [prim; constructor|prim].
    destruct (socket_state w s) as [[]|]; try (apply ok_ret, Hw);
      (apply ok_bind_ok; [apply set_socket_state_allocated, Hw|]; intros Hw';
       apply onclose_allocated, Hw').
  - apply elapse_allocated, Hw.
  - split; [prim; al_leaf|apply any_trace].
Qed.

Lemma run_allocated evs w : allocated w -> ok allocated any (run JSON_parse evs) w.
Proof.
  revert w. induction evs as [|e evs IH]; intros w Hw.
  - apply ok_ret, Hw.
  - cbn [run]. apply ok_bind_ok; [apply exec_allocated; assumption|]. intros Hw'. apply IH, Hw'.
Qed.

Lemma fresh_world_allocated token : allocated (fresh_world token).
Proof.
  unfold allocated, fresh_world, fresh_runtime, new_GatewayClient. cbn.
  split_and!; intros; al_split; try discriminate.
  all: match goal with H : _ ∈ [] |- _ => apply elem_of_nil in H; destruct H end.
Qed.

End Allocated.

(** ** A call that nobody answers *)

(** X1. A call made on an open socket, in any state the client can reach,
    with an id not in use: as long as [disconnect()] is not called, no
    call draws the same id and no response carries it, the entry stays in
    the table and the promise stays unsettled until 30 seconds have
    passed; the step of time that reaches them rejects the promise with
    [RPC call timed out], before anything else settles it, and removes the
    entry. When the table was empty and no other call was made, it is
    empty again. *)
Theorem unanswered_call_times_out
    (JSON_parse : string -> option json) (token : option string) (history : list event)
    (id method : string) (params : value) (evs : list event) (dt : Z) :
  let w := world_of (run JSON_parse history (fresh_world token)) in
  ws_is_open w = true ->
  unused_id id w ->
  Forall (fun e => leaves_waiting JSON_parse id e = true) evs ->
  total_elapsed evs < 30000 ->
  30000 <= total_elapsed evs + Z.max 0 dt ->
  let p := value_of (call id method params w) in
  let w1 := world_of (call id method params w) in
  let before := run JSON_parse evs w1 in
  let after := exec JSON_parse (Elapse dt) (world_of before) in
  is_Some (pendingRequests (this (world_of before)) !! id)
  /\ Forall (unsettled p) (trace_of (call id method params w) ++ trace_of before)
  /\ (exists t1 t2,
        trace_of after = t1 ++ Reject p (VError (JStr "RPC call timed out")) :: t2
        /\ Forall (unsettled p) t1)
  /\ pendingRequests (this (world_of after)) !! id = None
  /\ (pendingRequests (this w) = ∅ ->
      Forall (fun e => is_call e = false) evs ->
      pendingRequests (this (world_of after)) = ∅).
Proof.
  intros w Hopen Hun Hevs Hlt Hge.
  apply call_times_out_allocated; try assumption.
  apply run_allocated, fresh_world_allocated.
Qed.

Lemma unanswered_call_times_out_witness :
  let w := world_of (run sample_parse
                       [AppOn "*" 1%nat; AppConnect; SockOpen 0%nat "a1";
                        SockMessage 0%nat frame_auth_ok]
                       (fresh_world (Some "token"))) in
  let evs := [Elapse 10000; SockMessage 0%nat frame_event; SockMessage 0%nat frame_error;
              AppCall "c2" "getPrice" VUndefined; SockClose 0%nat; Elapse 19999] in
  let after := exec sample_parse (Elapse 1)
                 (world_of (run sample_parse evs
                    (world_of (call "c1" "getBalance" VUndefined w)))) in
  pendingRequests (this (world_of after)) !! "c1" = None
  /\ exists t1 t2,
       trace_of after
       = t1 ++ Reject (value_of (call "c1" "getBalance" VUndefined w))
                 (VError (JStr "RPC call timed out")) :: t2
       /\ Forall (unsettled (value_of (call "c1" "getBalance" VUndefined w))) t1.
Proof.
  intros w evs after.
  assert (Hopen : ws_is_open w = true) by (vm_compute; reflexivity).
  assert (Hun : unused_id "c1" w).
  { split; [vm_compute; reflexivity|].
    intros h d p.
    assert (E : timers (rt w) = ∅) by (vm_compute; reflexivity).
    rewrite E, lookup_empty. discriminate. }
  assert (Hevs : Forall (fun e => leaves_waiting sample_parse "c1" e = true) evs)
    by (repeat (constructor; [vm_compute; reflexivity|]); constructor).
  assert (Hlt : total_elapsed evs < 30000) by (vm_compute; reflexivity).
  assert (Hge : 30000 <= total_elapsed evs + Z.max 0 1) by (vm_compute; discriminate).
  pose proof (unanswered_call_times_out sample_parse (Some "token")
              [AppOn "*" 1%nat; AppConnect; SockOpen 0%nat "a1";
               SockMessage 0%nat frame_auth_ok]
              "c1" "getBalance" VUndefined evs 1 Hopen Hun Hevs Hlt Hge) as H.
  destruct H as (_ & _ & Hrej & Hgone & _).
  split; [exact Hgone|exact Hrej].
Defined.

(** ** The socket opening restarts the backoff *)

(** X3. Whatever the counter and the delay have come to, also after the
    five reconnects are used up, the [open] event of a connecting socket
    puts them back to 0 and 1 second before the handshake starts; from
    there on, as long as no further socket opens and [disconnect()] is not
    called, the closures are retried after 1, 2, 4, 8 and 16 seconds
    again, whether the handshake succeeded or not. *)
Theorem open_socket_restarts_backoff
    (JSON_parse : string -> option json) (w : World) (s : socket_ref) (sock : WebSocket)
    (auth_id : string) (evs : list event) :
  sockets (rt w) !! s = Some sock ->
  ws_readyState sock = CONNECTING ->
  maxReconnectAttempts (this w) = 5 ->
  intentionalDisconnect (this w) = false ->
  Forall (fun e => keeps_backoff e = true) evs ->
  let w1 := world_of (exec JSON_parse (SockOpen s auth_id) w) in
  let t := trace_of (run JSON_parse evs w1) in
  policy (this w1) = (0, 5, 1000, false)
  /\ reconnect_delays t = take (closures t) backoff_delays.
Proof.
  intros Hs Hst Hmax Hint Hevs w1 t.
  assert (Hp : policy (this w1) = (0, 5, 1000, false)).
  { subst w1. cbn [exec]. rewrite bind_eq, world_of_mk.
    change (value_of (get w)) with w. change (world_of (get w)) with w.
    rewrite Hs, Hst, bind_eq, world_of_mk, onopen_policy.
    unfold set_socket_state, upd_rt, world_of. cbn [fst snd this].
    rewrite Hmax, Hint. reflexivity. }
  split; [exact Hp|].
  exact (run_policy JSON_parse 0 evs w1 Hevs ltac:(lia) Hp).
Qed.

Lemma open_socket_restarts_backoff_witness :
  let w := world_of (run sample_parse (unreachable_attempts 6 ++ [AppConnect])
                       (fresh_world (Some "token"))) in
  let w1 := world_of (exec sample_parse (SockOpen 6%nat "a1") w) in
  policy (this w) = (5, 5, 30000, false)
  /\ policy (this w1) = (0, 5, 1000, false)
  /\ reconnect_delays (trace_of (run sample_parse [SockClose 6%nat] w1)) = [1000].
Proof.
  intros w w1.
  assert (Hs : sockets (rt w) !! 6%nat = Some {| ws_readyState := CONNECTING; ws_reject := 6%nat |})
    by (vm_compute; reflexivity).
  assert (Hev : Forall (fun e => keeps_backoff e = true) [SockClose 6%nat])
    by (repeat constructor).
  destruct (open_socket_restarts_backoff sample_parse w 6%nat _ "a1" [SockClose 6%nat]
              Hs eq_refl ltac:(vm_compute; reflexivity) ltac:(vm_compute; reflexivity) Hev)
    as [H1 H2].
  split; [vm_compute; reflexivity|]. split; [exact H1|].
  subst w1. rewrite H2. vm_compute. reflexivity.
Defined.

(** ** One connection attempt at a time *)

(** What [connect()] does when the client is not connected. *)
Lemma connect_eq w :
  isConnected w = false ->
  connect w =
  match connectionPromise (this w) with
  | Some p => (p, w, [])
  | None =>
      let p := next_promise (rt w) in
      let s := next_socket (rt w) in
      if url_ok (rt w) then
        (p,
         {| this := set_connectionPromise (Some p)
                      (set_ws (Some s) (set_connectionResolve (Some p) (this w)));
            rt := set_next_socket (S s)
                    (set_sockets (<[s := {| ws_readyState := CONNECTING; ws_reject := p |}]>
                                    (sockets (rt w)))
                       (set_next_promise (S p) (rt w))) |},
         [])
      else
        (p,
         {| this := set_connectionPromise (Some p)
                      (set_connectionPromise None (set_connectionResolve (Some p) (this w)));
            rt := set_next_promise (S p) (rt w) |},
         [Reject p (VHost "SyntaxError")])
  end.
Proof.
  unfold isConnected. intros H. unfold connect, mbind, M_bind, bind, get. rewrite H.
  destruct (connectionPromise (this w)); [reflexivity|].
  unfold new_promise, upd_this, ret. cbn [this rt].
  destruct (url_ok (rt w)); reflexivity.
Qed.

(** X4. While the client is not connected, [connect()] called again
    returns the promise of the attempt in progress: it creates no second
    socket, draws no promise, does nothing to the outside and leaves the
    client as it is. This holds as well after the [WebSocket] constructor
    threw: the rejected promise is the one every later [connect()]
    returns. *)
Theorem connect_joins_the_attempt_in_progress (w : World) :
  isConnected w = false ->
  let r1 := connect w in
  let r2 := connect (world_of r1) in
  connectionPromise (this (world_of r1)) = Some (value_of r1)
  /\ value_of r2 = value_of r1
  /\ world_of r2 = world_of r1
  /\ trace_of r2 = []
  /\ (next_socket (rt (world_of r1)) <= S (next_socket (rt w)))%nat.
Proof.
  intros H r1 r2.
  assert (H1 : connectionPromise (this (world_of r1)) = Some (value_of r1)
               /\ isConnected (world_of r1) = false
               /\ (next_socket (rt (world_of r1)) <= S (next_socket (rt w)))%nat).
  { subst r1. rewrite (connect_eq w H).
    destruct (connectionPromise (this w)) eqn:Hcp.
    - rewrite world_of_mk, value_of_mk. auto.
    - cbn zeta. destruct (url_ok (rt w)); rewrite world_of_mk, value_of_mk.
      + split; [reflexivity|]. split; [|cbn; lia].
        unfold isConnected, ws_is_open, socket_state.
        cbn [this rt ws set_ws set_connectionPromise sockets set_next_socket set_sockets].
        rewrite lookup_insert_eq. reflexivity.
      + split; [reflexivity|]. split; [exact H|cbn; lia]. }
  destruct H1 as (Hcp & Hnc & Hsock).
  split; [exact Hcp|]. subst r2. rewrite (connect_eq _ Hnc), Hcp.
  rewrite value_of_mk, world_of_mk, trace_of_mk. auto.
Qed.

Lemma connect_joins_the_attempt_in_progress_witness :
  let w := fresh_world (Some "token") in
  value_of (connect (world_of (connect w))) = value_of (connect w)
  /\ world_of (connect (world_of (connect w))) = world_of (connect w)
  /\ trace_of (connect (world_of (connect w))) = [].
Proof.
  intros w.
  destruct (connect_joins_the_attempt_in_progress w eq_refl) as (_ & H1 & H2 & H3 & _).
  split_and!; assumption.
Defined.

(** ** The closure of any socket *)

(** X5. The [close] event of any socket the client ever created, the
    current one or one it has left behind, marks the client as not
    authenticated and forgets the attempt in progress: [isConnected()] is
    false afterwards. The handler does not look at which socket closed, so
    [this.ws] and the other sockets stay as they are. *)
Theorem closure_of_any_socket_unauthenticates
    (JSON_parse : string -> option json) (w : World) (s : socket_ref) (st : readyState) :
  socket_state w s = Some st ->
  st <> CLOSED ->
  let w' := world_of (exec JSON_parse (SockClose s) w) in
  authenticated (this w') = false
  /\ isConnected w' = false
  /\ connectionPromise (this w') = None
  /\ ws (this w') = ws (this w)
  /\ (forall s', s' <> s -> socket_state w' s' = socket_state w s').
Proof.
  intros Hst Hne w'. subst w'. rewrite exec_SockClose, Hst.
  assert (Hgo : let w' := world_of (onclose (world_of (set_socket_state s CLOSED w))) in
                authenticated (this w') = false
                /\ isConnected w' = false
                /\ connectionPromise (this w') = None
                /\ ws (this w') = ws (this w)
                /\ (forall s', s' <> s -> socket_state w' s' = socket_state w s')).
  { intros w'. subst w'. rewrite onclose_eq, world_of_mk.
    assert (Hsock : forall s', s' <> s ->
              socket_state (world_of (set_socket_state s CLOSED w)) s' = socket_state w s').
    { intros s' Hs'. unfold set_socket_state, upd_rt, world_of, socket_state.
      cbn [fst snd rt this]. destruct (sockets (rt w) !! s); [|reflexivity].
      cbn [sockets set_sockets]. rewrite lookup_insert_ne by congruence. reflexivity. }
    unfold isConnected.
    destruct (will_reconnect _); cbn [this rt authenticated connectionPromise ws
      set_reconnectDelay set_reconnectAttempts set_connectionPromise set_authenticated];
      rewrite andb_false_r; split_and!; try reflexivity.
    all: try (unfold set_socket_state, upd_rt, world_of; cbn [fst snd this]; reflexivity).
    all: intros s' Hs'; rewrite <- (Hsock s' Hs'); reflexivity. }
  destruct st; try exact Hgo. congruence.
Qed.

Lemma closure_of_any_socket_unauthenticates_witness :
  let w := world_of (run sample_parse
                       [AppConnect; SockOpen 0%nat "a1"; SockMessage 0%nat frame_auth_ok;
                        AppDisconnect; AppConnect; SockOpen 1%nat "a1";
                        SockMessage 1%nat frame_auth_ok]
                       (fresh_world (Some "token"))) in
  let w' := world_of (exec sample_parse (SockClose 0%nat) w) in
  (isConnected w = true /\ ws (this w) = Some 1%nat /\ socket_state w 0%nat = Some CLOSING)
  /\ isConnected w' = false
  /\ ws (this w') = Some 1%nat
  /\ socket_state w' 1%nat = Some OPEN.
Proof.
  intros w w'.
  assert (Hst : socket_state w 0%nat = Some CLOSING) by (vm_compute; reflexivity).
  destruct (closure_of_any_socket_unauthenticates sample_parse w 0%nat CLOSING Hst
              ltac:(discriminate)) as (_ & H2 & _ & H4 & H5).
  split; [split_and!; vm_compute; reflexivity|].
  split; [exact H2|]. split.
  - subst w'. rewrite H4. vm_compute. reflexivity.
  - subst w'. rewrite (H5 1%nat ltac:(discriminate)). vm_compute. reflexivity.
Defined.

(** ** The handshake *)

Lemma ws_close_eq s w :
  ws_close s w = (tt, world_of (ws_close s w), [WsClose s])
  /\ this (world_of (ws_close s w)) = this w
  /\ timers (rt (world_of (ws_close s w))) = timers (rt w)
  /\ handshakes (rt (world_of (ws_close s w))) = handshakes (rt w)
  /\ socket_state (world_of (ws_close s w)) s =
       match socket_state w s with
       | Some CONNECTING | Some OPEN => Some CLOSING
       | st => st
       end.
Proof.
  unfold ws_close, mbind, M_bind, bind, get, tell, socket_state.
  unfold fmap, option_fmap, option_map.
  destruct (sockets (rt w) !! s) as [[[] q]|] eqn:Es; cbn [ws_readyState];
    unfold set_socket_state, upd_rt, ret, world_of; cbn [fst snd this rt];
    rewrite ?Es; cbn [sockets set_sockets timers handshakes];
    rewrite ?lookup_insert_eq, ?Es; repeat split.
Qed.

(** The [catch] branch of [onopen]: the failure is logged and dispatched
    as [auth_failed], the current socket is closed, the promise of
    [connect()] is rejected; the fields of the client stay as they are. *)
Lemma auth_failed_eq q e w :
  let w' := match ws (this w) with Some s => world_of (ws_close s w) | None => w end in
  auth_failed q e w =
  (tt, w',
   Console LError "[Gateway] Authentication failed:"
   :: emitEvent_effects (JStr "auth_failed") (VRecord [("error", e)]) (this w)
   ++ match ws (this w) with Some s => [WsClose s] | None => [] end
   ++ [Reject q e])
  /\ this w' = this w
  /\ timers (rt w') = timers (rt w)
  /\ handshakes (rt w') = handshakes (rt w).
Proof.
  intros w'. subst w'. unfold auth_failed.
  rewrite bind_eq. change (tell ?t w) with (tt, w, t).
  rewrite ?world_of_mk, ?trace_of_mk, ?value_of_mk.
  rewrite bind_eq, emitEvent_lifecycle by reflexivity.
  rewrite ?world_of_mk, ?trace_of_mk, ?value_of_mk.
  rewrite bind_eq. rewrite bind_eq.
  change (value_of (get w)) with w. change (world_of (get w)) with w.
  change (trace_of (get w)) with (@nil effect).
  destruct (ws (this w)) as [s|].
  - destruct (ws_close_eq s w) as (E & Hthis & Ht & Hh & _).
    assert (Htr : trace_of (ws_close s w) = [WsClose s]) by (rewrite E; reflexivity).
    unfold tell. rewrite ?world_of_mk, ?trace_of_mk, ?value_of_mk, Htr. cbn [app].
    repeat split; assumption.
  - unfold tell, ret. rewrite ?world_of_mk, ?trace_of_mk, ?value_of_mk. cbn [app].
    repeat split.
Qed.


Lemma settle_handshake_eq i o w hs :
  handshakes (rt w) !! i = Some hs ->
  settle_handshake i o w =
  if hs_settled hs then (tt, w, [])
  else
    let w1 := {| this := this w;
                 rt := set_handshakes
                         (<[i := {| hs_id := hs_id hs; hs_timeout := hs_timeout hs;
                                    hs_listener := hs_listener hs; hs_settled := true;
                                    hs_reject := hs_reject hs |}]> (handshakes (rt w)))
                         (rt w) |} in
    match o with
    | None => auth_succeeded w1
    | Some e => auth_failed (hs_reject hs) e w1
    end.
Proof.
  intros H. unfold settle_handshake, mbind, M_bind, bind, get. rewrite H.
  destruct (hs_settled hs); [reflexivity|].
  unfold upd_rt. cbn [this rt]. cbv zeta.
  destruct o as [e|];
    [destruct (auth_failed _ _ _) as [[[] w2] t2]|destruct (auth_succeeded _) as [[[] w2] t2]];
    reflexivity.
Qed.

(** [handleAuthResponse] on a frame that carries the id of handshake [i]:
    the timer is disarmed, the listener is taken off the current socket if
    that is where it was put, and the handshake is settled by what the
    frame says, if [new Error] does not throw. *)
Lemma handleAuthResponse_eq (JSON_parse : string -> option json) i data w hs message :
  handshakes (rt w) !! i = Some hs ->
  JSON_parse data = Some message ->
  is_str (field message "id") (hs_id hs) = true ->
  let w2 :=
    {| this := this w;
       rt := if bool_decide (ws (this w) = hs_listener hs)
             then set_handshakes
                    (alter (fun hs => {| hs_id := hs_id hs; hs_timeout := hs_timeout hs;
                                         hs_listener := None; hs_settled := hs_settled hs;
                                         hs_reject := hs_reject hs |}) i (handshakes (rt w)))
                    (set_timers (delete (hs_timeout hs) (timers (rt w))) (rt w))
             else set_timers (delete (hs_timeout hs) (timers (rt w))) (rt w) |} in
  handleAuthResponse JSON_parse i data w =
  match auth_verdict message with
  | Some o =>
      (tt, world_of (settle_handshake i o w2),
       ClearTimeout (hs_timeout hs) :: trace_of (settle_handshake i o w2))
  | None => (tt, w2, [ClearTimeout (hs_timeout hs)])
  end.
Proof.
  intros Hhs Hp Hid w2. subst w2.
  unfold handleAuthResponse. rewrite bind_eq.
  change (value_of (get w)) with w. change (world_of (get w)) with w.
  change (trace_of (get w)) with (@nil effect).
  rewrite Hhs, Hp, Hid. rewrite bind_eq, clearTimeout_eq.
  rewrite ?world_of_mk, ?trace_of_mk, ?value_of_mk. rewrite bind_eq.
  unfold when, auth_verdict, auth_error_text.
  destruct (bool_decide (ws (this w) = hs_listener hs));
    unfold upd_rt, ret, world_of, trace_of, value_of;
    cbn [fst snd this rt handshakes timers set_timers set_handshakes app];
    (destruct (truthy (field message "error"));
     [destruct (converts _)
     |destruct (truthy (optional_field (field message "result") "authenticated"))]);
    try reflexivity;
    destruct (settle_handshake _ _ _) as [[[] w3] t3]; reflexivity.
Qed.




Lemma handleAuthResponse_other (JSON_parse : string -> option json) i data w hs message :
  handshakes (rt w) !! i = Some hs ->
  JSON_parse data = Some message ->
  is_str (field message "id") (hs_id hs) = false ->
  handleAuthResponse JSON_parse i data w = (tt, w, []).
Proof.
  intros Hhs Hp Hid. unfold handleAuthResponse, mbind, M_bind, bind, get.
  rewrite Hhs, Hp, Hid. reflexivity.
Qed.

(** X8. When the timer of a handshake still awaited fires, the failure
    [Authentication timed out] is dispatched as [auth_failed], the current
    socket is closed and the promise of [connect()] is rejected with it;
    the fields of the client stay as they are. The handshake is settled
    for good: a response that carries its id afterwards, a success
    included, settles nothing, calls no listener and leaves the client as
    it is (not authenticated if it was not). *)
Theorem auth_timeout_then_late_response
    (JSON_parse : string -> option json) (w : World) (h : timer_handle) (d : Z) (i : nat)
    (hs : Handshake) (data : string) (message : json) :
  timers (rt w) !! h = Some (d, AuthTimeout i) ->
  handshakes (rt w) !! i = Some hs ->
  hs_settled hs = false ->
  JSON_parse data = Some message ->
  let err := VError (JStr "Authentication timed out") in
  let r := fire h w in
  let r' := handleAuthResponse JSON_parse i data (world_of r) in
  trace_of r =
    Console LError "[Gateway] Authentication failed:"
    :: emitEvent_effects (JStr "auth_failed") (VRecord [("error", err)]) (this w)
    ++ match ws (this w) with Some s => [WsClose s] | None => [] end
    ++ [Reject (hs_reject hs) err]
  /\ this (world_of r) = this w
  /\ timers (rt (world_of r)) = delete h (timers (rt w))
  /\ this (world_of r') = this w
  /\ trace_of r' =
       if is_str (field message "id") (hs_id hs) then [ClearTimeout (hs_timeout hs)] else [].
Proof.
  intros Ht Hhs Hun Hp err r r'.
  set (w1 := {| this := this w;
                rt := set_timers (delete h (timers (rt w)))
                        (set_now (Z.max (now (rt w)) d) (rt w)) |}).
  assert (Hfire : fire h w = settle_handshake i (Some err) w1).
  { unfold fire, mbind, M_bind, bind, get. rewrite Ht. unfold upd_rt. cbn [this rt].
    cbn [run_task]. unfold auth_timeout. fold err. fold w1.
    destruct (settle_handshake i (Some err) w1) as [[[] w2] t2]. reflexivity. }
  assert (Hhs1 : handshakes (rt w1) !! i = Some hs) by exact Hhs.
  pose proof (settle_handshake_eq i (Some err) w1 hs Hhs1) as E.
  rewrite Hun in E. cbv zeta in E.
  match type of E with _ = auth_failed ?q ?e ?w2 =>
    destruct (auth_failed_eq q e w2) as (E2 & Hthis & Htm & Hh) end.
  cbv zeta in E2, Hthis, Htm, Hh.
  assert (Hlt : (i < length (handshakes (rt w)))%nat) by (eapply lookup_lt_Some, Hhs).
  assert (Hr : trace_of r =
                 Console LError "[Gateway] Authentication failed:"
                 :: emitEvent_effects (JStr "auth_failed") (VRecord [("error", err)]) (this w)
                 ++ match ws (this w) with Some s => [WsClose s] | None => [] end
                 ++ [Reject (hs_reject hs) err]).
  { subst r. rewrite Hfire, E, E2, trace_of_mk. reflexivity. }
  assert (Hw : this (world_of r) = this w).
  { subst r. rewrite Hfire, E, E2, world_of_mk, Hthis. reflexivity. }
  assert (Htimers : timers (rt (world_of r)) = delete h (timers (rt w))).
  { subst r. rewrite Hfire, E, E2, world_of_mk, Htm. reflexivity. }
  assert (Hhs' : handshakes (rt (world_of r)) !! i =
                 Some {| hs_id := hs_id hs; hs_timeout := hs_timeout hs;
                         hs_listener := hs_listener hs; hs_settled := true;
                         hs_reject := hs_reject hs |}).
  { subst r. rewrite Hfire, E, E2, world_of_mk, Hh. cbn [rt handshakes set_handshakes w1].
    apply list_lookup_insert_eq, Hlt. }
  split; [exact Hr|]. split; [exact Hw|]. split; [exact Htimers|].
  subst r'. destruct (is_str (field message "id") (hs_id hs)) eqn:Hid.
  - rewrite (handleAuthResponse_eq JSON_parse i data _ _ message Hhs' Hp Hid). cbv zeta.
    destruct (auth_verdict message) as [o|];
      [|rewrite world_of_mk, trace_of_mk; cbn [this]; split; [exact Hw|reflexivity]].
    rewrite world_of_mk, trace_of_mk.
    match goal with |- context [settle_handshake i ?o ?w2] =>
      assert (Es : settle_handshake i o w2 = (tt, w2, []));
        [|rewrite Es, world_of_mk, trace_of_mk; cbn [this]; split; [exact Hw|reflexivity]]
    end.
    match goal with |- settle_handshake i ?o ?w2 = _ =>
      assert (H2 : exists hs', handshakes (rt w2) !! i = Some hs' /\ hs_settled hs' = true)
    end.
    { cbn [rt hs_listener]. destruct (bool_decide _); cbn [handshakes set_handshakes set_timers].
      - rewrite list_lookup_alter_eq, Hhs'. eexists. split; reflexivity.
      - eexists. split; [exact Hhs'|reflexivity]. }
    destruct H2 as (hs' & Hl & Hs).
    rewrite (settle_handshake_eq i _ _ hs' Hl), Hs. reflexivity.
  - rewrite (handleAuthResponse_other JSON_parse i data _ _ message Hhs' Hp Hid).
    rewrite world_of_mk, trace_of_mk. split; [exact Hw|reflexivity].
Qed.

Lemma auth_timeout_then_late_response_witness :
  let w := sample_authenticating in
  let r := fire 0%nat w in
  let r' := handleAuthResponse sample_parse 0 frame_auth_ok (world_of r) in
  last (trace_of r) = Some (Reject 0%nat (VError (JStr "Authentication timed out")))
  /\ authenticated (this (world_of r')) = false
  /\ trace_of r' = [ClearTimeout 0%nat].
Proof.
  intros w r r'.
  destruct (auth_timeout_then_late_response sample_parse w 0%nat 10000 0
              {| hs_id := "a1"; hs_timeout := 0%nat; hs_listener := Some 0%nat;
                 hs_settled := false; hs_reject := 0%nat |}
              frame_auth_ok
              (JObj [("id", JStr "a1"); ("result", JObj [("authenticated", JBool true)])])
              ltac:(vm_compute; reflexivity) ltac:(vm_compute; reflexivity) eq_refl
              ltac:(vm_compute; reflexivity))
    as (H1 & _ & _ & H4 & H5).
  split; [subst r; rewrite H1; vm_compute; reflexivity|].
  split; [subst r' r; rewrite H4; vm_compute; reflexivity|exact H5].
Defined.

(** ** A page with no token *)

Lemma exec_SockOpen (JSON_parse : string -> option json) s auth_id w sock :
  sockets (rt w) !! s = Some sock ->
  ws_readyState sock = CONNECTING ->
  exec JSON_parse (SockOpen s auth_id) w =
  onopen auth_id (ws_reject sock) (world_of (set_socket_state s OPEN w)).
Proof.
  intros Hs Hst. cbn [exec]. unfold mbind, M_bind, bind at 1. unfold get at 1.
  rewrite Hs, Hst. unfold bind, set_socket_state, upd_rt, world_of. cbn [fst snd].
  destruct (onopen _ _ _) as [[[] w2] t2]. reflexivity.
Qed.

(** X6. On a page where [stark_token] is missing or empty, the [open]
    event of a socket ends the attempt at once: nothing is written to the
    socket, no timer is armed and no handshake is recorded; the failure
    [No auth token found] is dispatched as [auth_failed], the current
    socket is closed and the promise of [connect()] is rejected. The
    counter and the delay of the backoff have been put back before. *)
Theorem open_without_token_fails_at_once
    (JSON_parse : string -> option json) (w : World) (s : socket_ref) (sock : WebSocket)
    (auth_id : string) :
  sockets (rt w) !! s = Some sock ->
  ws_readyState sock = CONNECTING ->
  stark_token (rt w) = None \/ stark_token (rt w) = Some "" ->
  let err := VError (JStr "No auth token found. Please log in first.") in
  let r := exec JSON_parse (SockOpen s auth_id) w in
  trace_of r =
    [Console LLog "[Gateway] WebSocket connected to";
     Console LWarn "[Gateway] No auth token in localStorage - user may not be logged in";
     Console LError "[Gateway] Authentication failed:"]
    ++ emitEvent_effects (JStr "auth_failed") (VRecord [("error", err)]) (this w)
    ++ match ws (this w) with Some s' => [WsClose s'] | None => [] end
    ++ [Reject (ws_reject sock) err]
  /\ this (world_of r) = set_reconnectDelay 1000 (set_reconnectAttempts 0 (this w))
  /\ timers (rt (world_of r)) = timers (rt w)
  /\ handshakes (rt (world_of r)) = handshakes (rt w)
  /\ (ws (this w) = Some s -> socket_state (world_of r) s = Some CLOSING).
Proof.
  intros Hs Hst Htok err r. subst r.
  rewrite (exec_SockOpen JSON_parse s auth_id w sock Hs Hst).
  set (w0 := world_of (set_socket_state s OPEN w)).
  assert (H0 : this w0 = this w /\ timers (rt w0) = timers (rt w)
               /\ handshakes (rt w0) = handshakes (rt w)
               /\ stark_token (rt w0) = stark_token (rt w)
               /\ socket_state w0 s = Some OPEN).
  { subst w0. unfold set_socket_state, upd_rt, world_of, socket_state. cbn [fst snd this rt].
    rewrite Hs. cbn [sockets set_sockets timers handshakes stark_token].
    rewrite lookup_insert_eq. repeat split. }
  destruct H0 as (Hthis & Htm & Hh & Htk & Hopen).
  set (w1 := {| this := set_reconnectDelay 1000 (set_reconnectAttempts 0 (this w0));
                rt := rt w0 |}).
  assert (E : onopen auth_id (ws_reject sock) w0 =
              (tt, world_of (auth_failed (ws_reject sock) err w1),
               Console LLog "[Gateway] WebSocket connected to"
               :: Console LWarn
                    "[Gateway] No auth token in localStorage - user may not be logged in"
               :: trace_of (auth_failed (ws_reject sock) err w1))).
  { unfold onopen, mbind, M_bind, bind at 1 2 3. unfold tell at 1, upd_this at 1 2.
    cbn [this rt]. fold w1. unfold authenticate, mbind, M_bind, bind, get.
    assert (Htk1 : stark_token (rt w1) = None \/ stark_token (rt w1) = Some "")
      by (cbn [rt w1]; rewrite Htk; exact Htok).
    unfold world_of, trace_of.
    destruct Htk1 as [->| ->]; unfold tell; fold err;
      destruct (auth_failed (ws_reject sock) err w1) as [[[] w2] t2]; reflexivity. }
  destruct (auth_failed_eq (ws_reject sock) err w1) as (E2 & Hthis2 & Htm2 & Hh2).
  cbv zeta in E2, Hthis2, Htm2, Hh2.
  rewrite E, world_of_mk, trace_of_mk. rewrite E2 at 1. rewrite trace_of_mk.
  rewrite E2, world_of_mk, Hthis2, Htm2, Hh2. cbn [this rt w1].
  rewrite Hthis, Htm, Hh. cbn [ws set_reconnectDelay set_reconnectAttempts].
  split; [reflexivity|]. split; [reflexivity|]. split; [reflexivity|].
  split; [reflexivity|]. intros Hws. rewrite Hws.
  destruct (ws_close_eq s w1) as (_ & _ & _ & _ & Hst').
  rewrite Hst'. unfold socket_state in *. cbn [rt w1]. rewrite Hopen. reflexivity.
Qed.

Lemma open_without_token_fails_at_once_witness :
  let w := world_of (run sample_parse [AppOn "auth_failed" 3%nat; AppConnect] (fresh_world None)) in
  let r := exec sample_parse (SockOpen 0%nat "a1") w in
  received 3%nat (trace_of r)
    = [VRecord [("error", VError (JStr "No auth token found. Please log in first."))]]
  /\ timers (rt (world_of r)) = timers (rt w)
  /\ socket_state (world_of r) 0%nat = Some CLOSING.
Proof.
  intros w r.
  destruct (open_without_token_fails_at_once sample_parse w 0%nat
              {| ws_readyState := CONNECTING; ws_reject := 0%nat |} "a1"
              ltac:(vm_compute; reflexivity) eq_refl ltac:(left; vm_compute; reflexivity))
    as (H1 & _ & H3 & _ & H5).
  split; [subst r; rewrite H1; vm_compute; reflexivity|].
  split; [exact H3|]. apply H5. vm_compute. reflexivity.
Defined.

(** ** Properties of the client that the handlers keep

    A property [J] of the client's fields holds after a handler when it
    held before and is kept by each assignment the handler makes. Each
    lemma asks for the assignments of its handler only. *)

Section Kept.

Variable J : GatewayClient -> Prop.

Hypothesis J_ws : forall v c, J c -> J (set_ws v c).
Hypothesis J_pending_insert :
  forall id pr c, J c -> J (set_pendingRequests (<[id := pr]> (pendingRequests c)) c).
Hypothesis J_pending_delete :
  forall id c, J c -> J (set_pendingRequests (delete id (pendingRequests c)) c).
Hypothesis J_pending_clear : forall c, J c -> J (set_pendingRequests ∅ c).
Hypothesis J_eventListeners : forall v c, J c -> J (set_eventListeners v c).
Hypothesis J_wildcardListeners : forall v c, J c -> J (set_wildcardListeners v c).
Hypothesis J_reconnectAttempts : forall v c, J c -> J (set_reconnectAttempts v c).
Hypothesis J_reconnectDelay : forall v c, J c -> J (set_reconnectDelay v c).
Hypothesis J_intentionalDisconnect : forall c, J c -> J (set_intentionalDisconnect true c).
Hypothesis J_connectionPromise : forall v c, J c -> J (set_connectionPromise v c).
Hypothesis J_connectionResolve : forall v c, J c -> J (set_connectionResolve v c).
Hypothesis J_authenticated : forall c, J c -> J (set_authenticated true c).
Hypothesis J_unauthenticated : forall c, J c -> J (set_authenticated false c).
Hypothesis J_buffer_push :
  forall e c, buffered e.1 = true ->
    J c -> J (set_eventBuffer (push_event e (eventBuffer c)) c).
Hypothesis J_buffer_clear : forall c, J c -> J (set_eventBuffer [] c).

Let I : World -> Prop := fun w => J (this w).
Let any : effect -> Prop := fun _ => True.

Ltac kept_leaf :=
  unfold I, any in *; unfold world_of, value_of, trace_of in *; cbn [fst snd this] in *;
  repeat first [ apply J_ws | apply J_pending_insert | apply J_pending_delete
               | apply J_pending_clear | apply J_eventListeners
               | apply J_wildcardListeners | apply J_reconnectAttempts
               | apply J_reconnectDelay | apply J_intentionalDisconnect
               | apply J_connectionPromise | apply J_connectionResolve
               | apply J_authenticated | apply J_unauthenticated
               | apply J_buffer_clear ];
  first [ assumption | exact Logic.I | apply any_trace | idtac ].

Ltac kept_by lem := apply lem; try assumption; try reflexivity; kept_leaf.

Lemma emitEvent_kept e d w : I w -> ok I any (emitEvent e d) w.
Proof.
  intros Hw. unfold ok. rewrite emitEvent_eq, world_of_mk, trace_of_mk.
  split; [|apply any_trace]. destruct (buffered e) eqn:He; [|exact Hw].
  cbn [this]. apply J_buffer_push; [exact He|exact Hw].
Qed.

(** [connected], [disconnected], [auth_failed] and [error] are not
    buffered. *)
Lemma emitEvent_lifecycle_kept e d w :
  buffered e = false -> I w -> ok I any (emitEvent e d) w.
Proof.
  intros He Hw. unfold ok. rewrite (emitEvent_lifecycle e d w He), world_of_mk, trace_of_mk.
  split; [exact Hw|apply any_trace].
Qed.

Lemma on_kept topic cb w : I w -> ok I any (on topic cb) w.
Proof.
  intros Hw. unfold on. destruct (String.eqb topic "*").
  - repeat ok_step ltac:(fail); kept_leaf.
  - repeat ok_step ltac:(fail).
    destruct (eventListeners _ !! topic); kept_leaf;
      destruct (eventListeners _ !! topic); kept_leaf.
Qed.

Lemma off_kept topic cb w : I w -> ok I any (off topic cb) w.
Proof.
  intros Hw. unfold off. repeat ok_step ltac:(fail).
  all: try destruct (eventListeners _ !! topic); kept_leaf.
Qed.

Lemma ws_send_kept s payload w : I w -> ok I any (ws_send s payload) w.
Proof. intros Hw. unfold ws_send. repeat ok_step ltac:(fail); kept_leaf. Qed.

Lemma set_socket_state_kept s st w : I w -> ok I any (set_socket_state s st) w.
Proof. intros Hw. split; [exact Hw|apply any_trace]. Qed.

Lemma ws_close_kept s w : I w -> ok I any (ws_close s) w.
Proof.
  intros Hw. unfold ws_close.
  repeat ok_step ltac:(kept_by set_socket_state_kept); kept_leaf.
Qed.

Lemma call_kept id method params w : I w -> ok I any (call id method params) w.
Proof.
  intros Hw. unfold call.
  repeat ok_step ltac:(kept_by ws_send_kept); try kept_leaf.
Qed.

Lemma rpc_timeout_kept id p w : I w -> ok I any (rpc_timeout id p) w.
Proof. intros Hw. unfold rpc_timeout. repeat ok_step ltac:(fail); kept_leaf. Qed.

Lemma connect_kept w : I w -> ok I any connect w.
Proof. intros Hw. unfold connect. repeat ok_step ltac:(fail); kept_leaf. Qed.

Lemma auth_succeeded_kept w : I w -> ok I any auth_succeeded w.
Proof.
  intros Hw. unfold auth_succeeded.
  repeat ok_step ltac:(kept_by emitEvent_lifecycle_kept); try kept_leaf.
Qed.

Lemma auth_failed_kept q e w : I w -> ok I any (auth_failed q e) w.
Proof.
  intros Hw. unfold auth_failed.
  repeat ok_step ltac:(first [ at_head emitEvent ltac:(kept_by emitEvent_lifecycle_kept)
                             | at_head ws_close ltac:(kept_by ws_close_kept) ]);
    try kept_leaf.
Qed.

(** Settling a handshake with a failure, as [authenticate] and the timer
    do. *)
Lemma settle_handshake_failure_kept i e w : I w -> ok I any (settle_handshake i (Some e)) w.
Proof.
  intros Hw. unfold settle_handshake.
  repeat ok_step ltac:(kept_by auth_failed_kept); try kept_leaf.
Qed.

Lemma settle_handshake_kept i o w : I w -> ok I any (settle_handshake i o) w.
Proof.
  intros Hw. unfold settle_handshake.
  repeat ok_step ltac:(first [ at_head auth_succeeded ltac:(kept_by auth_succeeded_kept)
                             | at_head auth_failed ltac:(kept_by auth_failed_kept) ]);
    try kept_leaf.
Qed.

Lemma authenticate_kept a q w : I w -> ok I any (authenticate a q) w.
Proof.
  intros Hw. unfold authenticate.
  repeat ok_step ltac:(first [ kept_by auth_failed_kept
                             | kept_by settle_handshake_failure_kept
                             | kept_by ws_send_kept ]);
    try kept_leaf.
Qed.

Lemma onopen_kept a q w : I w -> ok I any (onopen a q) w.
Proof.
  intros Hw. unfold onopen.
  repeat ok_step ltac:(kept_by authenticate_kept); try kept_leaf.
Qed.

Lemma onclose_kept w : I w -> ok I any onclose w.
Proof.
  intros Hw. unfold onclose.
  repeat ok_step ltac:(kept_by emitEvent_lifecycle_kept); try kept_leaf.
Qed.

Lemma onerror_kept q e w : I w -> ok I any (onerror q e) w.
Proof.
  intros Hw. unfold onerror.
  repeat ok_step ltac:(kept_by emitEvent_lifecycle_kept); try kept_leaf.
Qed.

Lemma run_task_kept task w : I w -> ok I any (run_task task) w.
Proof.
  intros Hw. destruct task as [id' p'| |i]; cbn [run_task].
  - apply rpc_timeout_kept, Hw.
  - repeat ok_step ltac:(kept_by connect_kept); kept_leaf.
  - apply settle_handshake_failure_kept, Hw.
Qed.

Lemma fire_kept h w : I w -> ok I any (fire h) w.
Proof.
  intros Hw. unfold fire.
  repeat ok_step ltac:(kept_by run_task_kept); try kept_leaf.
Qed.

Lemma elapse_kept dt w : I w -> ok I any (elapse dt) w.
Proof.
  intros Hw. unfold elapse.
  apply ok_bind; [prim; constructor|prim].
  apply ok_bind_ok; [apply ok_for_each; [apply fire_kept|exact Hw]|].
  intros Hw'. split; [prim; kept_leaf|apply any_trace].
Qed.

Lemma disconnect_kept w : I w -> ok I any disconnect w.
Proof.
  intros Hw. split; [|apply any_trace].
  destruct (disconnect_spec w) as (Hc & _). unfold I in *. rewrite Hc.
  change (J (set_eventBuffer [] (set_connectionPromise None (set_pendingRequests ∅
               (set_ws None (set_authenticated false
                  (set_intentionalDisconnect true (this w)))))))).
  kept_leaf.
Qed.

Variable JSON_parse : string -> option json.

Lemma handleMessage_kept data w : I w -> ok I any (handleMessage JSON_parse data) w.
Proof.
  intros Hw. unfold ok. split; [|apply any_trace].
  destruct (handleMessage_cases JSON_parse data w)
    as [[-> _]|[(m & ev & _ & _ & _ & ->)|[(m & id' & pr' & _ & _ & _ & _ & ->)
                                          |(m & _ & _ & _ & ->)]]].
  - exact Hw.
  - rewrite world_of_mk. apply emitEvent_kept, Hw.
  - rewrite world_of_mk. kept_leaf.
  - exact Hw.
Qed.

Lemma handleAuthResponse_kept i data w :
  I w -> ok I any (handleAuthResponse JSON_parse i data) w.
Proof.
  intros Hw. unfold handleAuthResponse.
  assert (Hrt : forall r, I {| this := this w; rt := r |}) by (intros r; exact Hw).
  repeat ok_step ltac:(first [ apply settle_handshake_kept; apply Hrt ]); try assumption.
Qed.

Lemma onmessage_kept s data w : I w -> ok I any (onmessage JSON_parse s data) w.
Proof.
  intros Hw. unfold onmessage.
  apply ok_bind_ok; [apply handleMessage_kept; assumption|]. intros Hw1.
  ok_step ltac:(fail). apply ok_for_each; [|exact Hw1].
  intros i w' Hw'.
  repeat ok_step ltac:(kept_by handleAuthResponse_kept); try assumption.
Qed.

Ltac kept_socket Hw :=
  lazymatch goal with
  | |- ok _ _ (ret _) _ => apply ok_ret; exact Hw
  | |- ok _ _ (mret _) _ => apply ok_ret; exact Hw
  | |- ok _ _ (onmessage _ _ _) _ => apply onmessage_kept; exact Hw
  | |- ok _ _ (onerror _ _) _ => apply onerror_kept; exact Hw
  | |- ok _ _ (_ ≫= fun _ => onopen _ _) _ =>
      apply ok_bind_ok; [split; [exact Hw|apply any_trace]|intros ?; apply onopen_kept; assumption]
  | |- ok _ _ (_ ≫= fun _ => onclose) _ =>
      apply ok_bind_ok; [split; [exact Hw|apply any_trace]|intros ?; apply onclose_kept; assumption]
  end.

Ltac kept_event Hw :=
  lazymatch goal with
  | |- ok _ _ (connect ≫= _) _ => repeat ok_step ltac:(kept_by connect_kept); kept_leaf
  | |- ok _ _ disconnect _ => apply disconnect_kept; assumption
  | |- ok _ _ (call _ _ _ ≫= _) _ => repeat ok_step ltac:(kept_by call_kept); kept_leaf
  | |- ok _ _ (on _ _) _ => apply on_kept; assumption
  | |- ok _ _ (off _ _) _ => apply off_kept; assumption
  | |- ok _ _ (elapse _) _ => apply elapse_kept; assumption
  | |- ok _ _ (upd_rt _) _ => split; [assumption|apply any_trace]
  | |- ok _ _ (get ≫= _) ?w =>
      apply ok_bind; [prim; constructor|prim];
      first [ destruct (sockets (rt w) !! _) as [sock|]; [destruct (ws_readyState sock)|]
            | destruct (socket_state w _) as [[]|] ];
      kept_socket Hw
  end.

(** What every event keeps, when [J] is kept by every assignment. *)
Lemma exec_kept e w : I w -> ok I any (exec JSON_parse e) w.
Proof. intros Hw. destruct e; cbn [exec]; kept_event Hw. Qed.

(** ... when it is kept by every assignment but those of [on] and [off]. *)
Lemma exec_kept_unregistered e w :
  is_registration e = false -> I w -> ok I any (exec JSON_parse e) w.
Proof. intros He Hw. destruct e; try discriminate; cbn [exec]; kept_event Hw. Qed.

(** ... by every assignment but those an inbound frame leads to. *)
Lemma exec_kept_not_frame e w :
  is_frame e = false -> I w -> ok I any (exec JSON_parse e) w.
Proof. intros He Hw. destruct e; try discriminate; cbn [exec]; kept_event Hw. Qed.

(** ... by every assignment of the handlers that do not reach the table
    of pending requests. *)
Lemma exec_kept_apart e w :
  reaches_pending e = false -> I w -> ok I any (exec JSON_parse e) w.
Proof. intros He Hw. destruct e; try discriminate; cbn [exec]; kept_event Hw. Qed.

Lemma run_kept evs w : I w -> ok I any (run JSON_parse evs) w.
Proof.
  revert w. induction evs as [|e evs IH]; intros w Hw.
  - apply ok_ret, Hw.
  - cbn [run]. apply ok_bind_ok; [apply exec_kept; assumption|]. intros Hw'. apply IH, Hw'.
Qed.

End Kept.

(** An event other than those in [skip] keeps a property that the
    handlers of the others keep. *)
Lemma run_kept_but (JSON_parse : string -> option json) (J : GatewayClient -> Prop)
    (skip : event -> bool) evs w :
  (forall e w, skip e = false -> J (this w) -> J (this (world_of (exec JSON_parse e w)))) ->
  Forall (fun e => skip e = false) evs ->
  J (this w) -> J (this (world_of (run JSON_parse evs w))).
Proof.
  intros Hex Hevs. revert w. induction Hevs as [|e evs He Hevs IH]; intros w Hw.
  - exact Hw.
  - cbn [run]. rewrite bind_eq, world_of_mk. apply IH, Hex; assumption.
Qed.

(** ** Who listens *)

(** X9. Through any course of events other than [on] and [off] (calls,
    connection attempts, frames, errors, closures, timers,
    [disconnect()]) the listeners of every topic and the wildcard
    listeners stay exactly as they are. *)
Theorem only_on_and_off_change_listeners
    (JSON_parse : string -> option json) (evs : list event) (w : World) :
  Forall (fun e => is_registration e = false) evs ->
  let w' := world_of (run JSON_parse evs w) in
  eventListeners (this w') = eventListeners (this w)
  /\ wildcardListeners (this w') = wildcardListeners (this w).
Proof.
  intros Hevs w'.
  assert (H : (eventListeners (this w'), wildcardListeners (this w'))
              = (eventListeners (this w), wildcardListeners (this w))).
  { apply (run_kept_but JSON_parse
             (fun c => (eventListeners c, wildcardListeners c)
                       = (eventListeners (this w), wildcardListeners (this w)))
             is_registration evs w); [|exact Hevs|reflexivity].
    intros e w0 He Hw0.
    assert (Hok : ok (fun w1 => (eventListeners (this w1), wildcardListeners (this w1))
                                = (eventListeners (this w), wildcardListeners (this w)))
                    (fun _ => True) (exec JSON_parse e) w0)
      by (apply (exec_kept_unregistered
                   (fun c => (eventListeners c, wildcardListeners c)
                             = (eventListeners (this w), wildcardListeners (this w))));
          try assumption; intros; assumption).
    exact (proj1 Hok). }
  split; congruence.
Qed.

Lemma only_on_and_off_change_listeners_witness :
  let w := sample_listening in
  let w' := world_of (run sample_parse
                        [AppConnect; SockOpen 0%nat "a1"; SockMessage 0%nat frame_auth_ok;
                         AppCall "c1" "getBalance" VUndefined; SockMessage 0%nat frame_event;
                         SockClose 0%nat; Elapse 40000; AppDisconnect] w) in
  eventListeners (this w') = eventListeners (this w)
  /\ wildcardListeners (this w') = wildcardListeners (this w).
Proof.
  intros w w'.
  apply (only_on_and_off_change_listeners sample_parse). repeat constructor.
Defined.

(** ** Becoming authenticated *)

(** X10. A client that is not authenticated stays so through any course
    of events with no inbound frame: nothing the application calls, no
    opening, error or closure of a socket and no timer marks it
    authenticated; [isConnected()] stays false. Only a frame can, by
    answering a handshake. *)
Theorem authenticated_only_by_a_frame
    (JSON_parse : string -> option json) (evs : list event) (w : World) :
  authenticated (this w) = false ->
  Forall (fun e => is_frame e = false) evs ->
  let w' := world_of (run JSON_parse evs w) in
  authenticated (this w') = false /\ isConnected w' = false.
Proof.
  intros Hw Hevs w'.
  assert (H : authenticated (this w') = false).
  { apply (run_kept_but JSON_parse (fun c => authenticated c = false) is_frame evs w);
      [|exact Hevs|exact Hw].
    intros e w0 He Hw0.
    assert (Hok : ok (fun w1 => authenticated (this w1) = false) (fun _ => True)
                    (exec JSON_parse e) w0)
      by (apply (exec_kept_not_frame (fun c => authenticated c = false));
          try assumption; intros; first [assumption|reflexivity]).
    exact (proj1 Hok). }
  split; [exact H|]. unfold isConnected. rewrite H. apply andb_false_r.
Qed.

Lemma authenticated_only_by_a_frame_witness :
  let w' := world_of (run sample_parse
                        [AppConnect; SockOpen 0%nat "a1"; Elapse 5000;
                         AppCall "c1" "getBalance" VUndefined; Elapse 20000]
                        (fresh_world (Some "token"))) in
  authenticated (this w') = false /\ isConnected w' = false.
Proof.
  intros w'.
  apply (authenticated_only_by_a_frame sample_parse); [reflexivity|repeat constructor].
Defined.

(** ** The buffer in every state *)

Lemma push_event_in_order e buf :
  buffered e.1 = true ->
  (length buf <= EVENT_RING_BUFFER_SIZE)%nat ->
  Forall (fun e => buffered e.1 = true) buf ->
  (length (push_event e buf) <= EVENT_RING_BUFFER_SIZE)%nat
  /\ Forall (fun e => buffered e.1 = true) (push_event e buf).
Proof.
  intros He Hlen Hall. unfold push_event.
  assert (Hall' : Forall (fun e => buffered e.1 = true) (buf ++ [e])).
  { apply Forall_app. split; [exact Hall|]. constructor; [exact He|constructor]. }
  destruct (Nat.ltb_spec EVENT_RING_BUFFER_SIZE (length (buf ++ [e]))) as [Hlt|Hge].
  - split.
    + rewrite length_app in Hlt. cbn [length] in Hlt.
      destruct buf as [|x buf]; cbn [app tail length] in *; [cbn; lia|].
      rewrite length_app. cbn [length]. lia.
    + destruct (buf ++ [e]) as [|x l]; [constructor|].
      cbn [tail]. exact (Forall_inv_tail Hall').
  - split; [exact Hge|exact Hall'].
Qed.

(** X11. Whatever happens to the client, the buffer stays within its 500
    entries and holds no [connected], [disconnected], [auth_failed] or
    [error] event: both hold of a new client and are kept by every event.
    So a wildcard listener registered at any time is replayed at most 500
    events. *)
Theorem buffer_stays_in_order
    (JSON_parse : string -> option json) (evs : list event) (w : World) (cb : callback) :
  buffer_in_order (this w) ->
  let w' := world_of (run JSON_parse evs w) in
  buffer_in_order new_GatewayClient
  /\ buffer_in_order (this w')
  /\ (length (trace_of (on "*" cb w')) <= 500)%nat.
Proof.
  intros Hw w'.
  assert (H : buffer_in_order (this w')).
  { assert (Hok : ok (fun w1 => buffer_in_order (this w1)) (fun _ => True)
                    (run JSON_parse evs) w); [|exact (proj1 Hok)].
    apply (run_kept buffer_in_order); try (intros; assumption); try exact Hw.
    - intros e c He [Hlen Hall]. unfold buffer_in_order. cbn [eventBuffer set_eventBuffer].
      apply push_event_in_order; assumption.
    - intros c _. split; [cbn; lia|constructor]. }
  split; [split; [cbn; lia|constructor]|]. split; [exact H|].
  rewrite on_wildcard_eq, trace_of_mk, length_map. exact (proj1 H).
Qed.

Lemma buffer_stays_in_order_witness :
  let w' := world_of (run sample_parse
                        [AppConnect; SockOpen 0%nat "a1"; SockMessage 0%nat frame_auth_ok;
                         SockMessage 0%nat frame_event; SockClose 0%nat]
                        (fresh_world (Some "token"))) in
  buffer_in_order (this w') /\ (length (trace_of (on "*" 7%nat w')) <= 500)%nat.
Proof.
  intros w'.
  refine (proj2 (buffer_stays_in_order sample_parse _ (fresh_world (Some "token")) 7%nat _)).
  split; [cbn; lia|constructor].
Defined.

(** ** Registering and removing listeners *)

Lemma set_add_idem cb l : set_add cb (set_add cb l) = set_add cb l.
Proof.
  unfold set_add at 1. rewrite bool_decide_eq_true_2 by apply set_add_elem. reflexivity.
Qed.

Lemma set_add_other cb cb' l : cb' <> cb -> cb' ∈ set_add cb l <-> cb' ∈ l.
Proof.
  intros Hne. unfold set_add. destruct (bool_decide (cb ∈ l)); [reflexivity|].
  rewrite elem_of_app, list_elem_of_singleton. intuition congruence.
Qed.

Lemma set_delete_NoDup cb l : NoDup l -> NoDup (set_delete cb l).
Proof. apply NoDup_filter. Qed.

Lemma set_delete_elem cb cb' l : cb' ∈ set_delete cb l <-> cb' <> cb /\ cb' ∈ l.
Proof. unfold set_delete. apply (list_elem_of_filter (fun x => x <> cb)). Qed.

(** The listeners [on] leaves. *)
Lemma on_eq topic cb w :
  this (world_of (on topic cb w)) =
  if String.eqb topic "*" then
    set_wildcardListeners (set_add cb (wildcardListeners (this w))) (this w)
  else
    set_eventListeners
      (<[topic := set_add cb (listeners_of (this w) topic)]> (eventListeners (this w)))
      (this w).
Proof.
  unfold on, listeners_of. destruct (String.eqb topic "*").
  - unfold mbind, M_bind, bind, upd_this, get, when, world_of. cbn [this rt fst snd].
    destruct (Nat.ltb _ _); reflexivity.
  - unfold mbind, M_bind, bind, upd_this, world_of. cbn [this rt fst snd].
    destruct (eventListeners (this w) !! topic) as [l|] eqn:Hl.
    + rewrite Hl. reflexivity.
    + cbn [eventListeners set_eventListeners]. rewrite lookup_insert_eq.
      cbn [default]. unfold set_eventListeners at 1. cbn [eventListeners].
      rewrite insert_insert_eq. destruct (this w); reflexivity.
Qed.

(** The listeners [off] leaves. *)
Lemma off_eq topic cb w :
  off topic cb w =
  (tt,
   {| this :=
        if String.eqb topic "*" then
          set_wildcardListeners (set_delete cb (wildcardListeners (this w))) (this w)
        else
          match eventListeners (this w) !! topic with
          | Some l =>
              set_eventListeners (<[topic := set_delete cb l]> (eventListeners (this w)))
                (this w)
          | None => this w
          end;
      rt := rt w |},
   []).
Proof. unfold off, upd_this. destruct (String.eqb topic "*"); reflexivity. Qed.

Lemma listeners_of_insert c topic l t :
  listeners_of (set_eventListeners (<[topic := l]> (eventListeners c)) c) t =
  if String.eqb t topic then l else listeners_of c t.
Proof.
  unfold listeners_of. cbn [eventListeners set_eventListeners].
  destruct (String.eqb_spec t topic) as [->|Hne].
  - rewrite lookup_insert_eq. reflexivity.
  - rewrite lookup_insert_ne by congruence. reflexivity.
Qed.

Lemma sets_insert c topic l :
  listeners_are_sets c -> NoDup l ->
  listeners_are_sets (set_eventListeners (<[topic := l]> (eventListeners c)) c).
Proof.
  intros [Hw Ht] Hl. split; [exact Hw|].
  intros t l'. cbn [eventListeners set_eventListeners].
  destruct (decide (t = topic)) as [->|Hne].
  - rewrite lookup_insert_eq. intros [= <-]. exact Hl.
  - rewrite lookup_insert_ne by congruence. apply Ht.
Qed.

Lemma sets_listeners_of c topic : listeners_are_sets c -> NoDup (listeners_of c topic).
Proof.
  intros [_ Ht]. unfold listeners_of.
  destruct (eventListeners c !! topic) as [l|] eqn:Hl; [exact (Ht _ _ Hl)|constructor].
Qed.

Lemma on_sets topic cb w :
  listeners_are_sets (this w) -> listeners_are_sets (this (world_of (on topic cb w))).
Proof.
  intros Hw. rewrite on_eq. destruct (String.eqb topic "*").
  - destruct Hw as [Hwild Ht]. split; [apply set_add_NoDup, Hwild|exact Ht].
  - apply sets_insert; [exact Hw|]. apply set_add_NoDup, sets_listeners_of, Hw.
Qed.

Lemma off_sets topic cb w :
  listeners_are_sets (this w) -> listeners_are_sets (this (world_of (off topic cb w))).
Proof.
  intros Hw. rewrite off_eq, world_of_mk. cbn [this]. destruct (String.eqb topic "*").
  - destruct Hw as [Hwild Ht]. split; [apply set_delete_NoDup, Hwild|exact Ht].
  - destruct (eventListeners (this w) !! topic) as [l|] eqn:Hl; [|exact Hw].
    apply sets_insert; [exact Hw|]. apply set_delete_NoDup. exact (proj2 Hw _ _ Hl).
Qed.

(** X12. The listeners of a topic, like the wildcard listeners, are a
    set. Registering a callback a second time changes nothing.
    [off] removes the callback from the topic it names and from no other,
    and keeps the other callbacks of that topic in their order of
    registration; for a topic that was never registered it does nothing
    at all. *)
Theorem on_and_off_keep_sets (w : World) (topic : string) (cb : callback) :
  let w1 := world_of (on topic cb w) in
  let w2 := world_of (on topic cb w1) in
  let w3 := world_of (off topic cb w1) in
  this w2 = this w1
  /\ (topic <> "*" ->
      listeners_of (this w1) topic = set_add cb (listeners_of (this w) topic)
      /\ listeners_of (this w3) topic = set_delete cb (listeners_of (this w) topic)
      /\ (forall t, t <> topic ->
            listeners_of (this w1) t = listeners_of (this w) t
            /\ listeners_of (this w3) t = listeners_of (this w) t)
      /\ wildcardListeners (this w3) = wildcardListeners (this w)
      /\ (eventListeners (this w) !! topic = None -> off topic cb w = (tt, w, [])))
  /\ (topic = "*" ->
      wildcardListeners (this w1) = set_add cb (wildcardListeners (this w))
      /\ wildcardListeners (this w3) = set_delete cb (wildcardListeners (this w))
      /\ eventListeners (this w3) = eventListeners (this w)).
Proof.
  intros w1 w2 w3.
  assert (Hdel : forall l, set_delete cb (set_add cb l) = set_delete cb l).
  { intros l. unfold set_add. destruct (bool_decide (cb ∈ l)); [reflexivity|].
    unfold set_delete. rewrite filter_app. cbn [filter list_filter].
    rewrite decide_False by (intros H; apply H; reflexivity). apply app_nil_r. }
  split; [|split].
  - subst w2 w1. rewrite (on_eq topic cb (world_of _)), (on_eq topic cb w).
    destruct (String.eqb topic "*").
    + cbn [wildcardListeners set_wildcardListeners]. rewrite set_add_idem. reflexivity.
    + rewrite listeners_of_insert, String.eqb_refl, set_add_idem.
      cbn [eventListeners set_eventListeners]. rewrite insert_insert_eq. reflexivity.
  - intros Hne. apply String.eqb_neq in Hne.
    assert (H1 : this w1 = set_eventListeners
                   (<[topic := set_add cb (listeners_of (this w) topic)]>
                      (eventListeners (this w))) (this w)).
    { subst w1. rewrite on_eq, Hne. reflexivity. }
    assert (H3 : this w3 = set_eventListeners
                   (<[topic := set_delete cb (listeners_of (this w) topic)]>
                      (eventListeners (this w))) (this w)).
    { subst w3. rewrite off_eq, world_of_mk, Hne. cbn [this]. rewrite H1.
      cbn [eventListeners set_eventListeners]. rewrite lookup_insert_eq, insert_insert_eq, Hdel.
      reflexivity. }
    rewrite H1, H3. split_and!.
    + rewrite listeners_of_insert, String.eqb_refl. reflexivity.
    + rewrite listeners_of_insert, String.eqb_refl. reflexivity.
    + intros t Ht. apply String.eqb_neq in Ht. rewrite !listeners_of_insert, Ht. auto.
    + reflexivity.
    + intros Hnone. rewrite off_eq, Hne, Hnone. destruct w; reflexivity.
  - intros ->.
    assert (H1 : this w1 = set_wildcardListeners (set_add cb (wildcardListeners (this w)))
                             (this w)).
    { subst w1. rewrite on_eq. reflexivity. }
    subst w3. rewrite off_eq, world_of_mk. cbn [this String.eqb Ascii.eqb Bool.eqb].
    rewrite H1. cbn [wildcardListeners set_wildcardListeners eventListeners].
    rewrite Hdel. auto.
Qed.

(** ** Dispatch *)

Lemma received_invokes cb (a : value) l :
  NoDup l ->
  received cb (map (fun c => Invoke c a) l) = if bool_decide (cb ∈ l) then [a] else [].
Proof.
  intros Hl. destruct (decide (cb ∈ l)) as [Hin|Hout].
  - rewrite bool_decide_eq_true_2 by exact Hin. apply received_once; assumption.
  - rewrite bool_decide_eq_false_2 by exact Hout.
    apply (received_absent cb (fun _ => a)), Hout.
Qed.

Lemma run_sets (JSON_parse : string -> option json) evs w :
  listeners_are_sets (this w) -> listeners_are_sets (this (world_of (run JSON_parse evs w))).
Proof.
  revert w. induction evs as [|e evs IH]; intros w Hw; [exact Hw|].
  cbn [run]. rewrite bind_eq, world_of_mk. apply IH.
  destruct (is_registration e) eqn:He.
  - destruct e; try discriminate; cbn [exec]; [apply on_sets|apply off_sets]; exact Hw.
  - assert (Hok : ok (fun w1 => (eventListeners (this w1), wildcardListeners (this w1))
                                = (eventListeners (this w), wildcardListeners (this w)))
                    (fun _ => True) (exec JSON_parse e) w)
      by (apply (exec_kept_unregistered
                   (fun c => (eventListeners c, wildcardListeners c)
                             = (eventListeners (this w), wildcardListeners (this w))));
          try assumption; intros; first [assumption|reflexivity]).
    destruct Hok as [Hok _]. injection Hok as He1 He2.
    unfold listeners_are_sets. rewrite He1, He2. exact Hw.
Qed.

(** X13. In every state the client reaches from one where the listeners
    are sets (a new client is one), an event of topic [topic] calls each
    listener of that topic once with the data, in their order of
    registration, and then each wildcard listener once with the pair of
    the topic and the data; a callback that is neither is not called. *)
Theorem each_listener_is_called_once
    (JSON_parse : string -> option json) (evs : list event) (w0 : World)
    (topic : string) (d : value) (cb : callback) :
  listeners_are_sets (this w0) ->
  let w := world_of (run JSON_parse evs w0) in
  listeners_are_sets new_GatewayClient
  /\ listeners_are_sets (this w)
  /\ filter (fun e => is_console e = false) (trace_of (emitEvent (JStr topic) d w))
     = map (fun c => Invoke c d) (listeners_of (this w) topic)
       ++ map (fun c => Invoke c (entry (JStr topic) d)) (wildcardListeners (this w))
  /\ received cb (trace_of (emitEvent (JStr topic) d w))
     = (if bool_decide (cb ∈ listeners_of (this w) topic) then [d] else [])
       ++ (if bool_decide (cb ∈ wildcardListeners (this w)) then [entry (JStr topic) d]
           else []).
Proof.
  intros Hw0 w.
  assert (Hw : listeners_are_sets (this w)) by (apply run_sets, Hw0).
  assert (Hnew : listeners_are_sets new_GatewayClient).
  { split; [constructor|]. intros t l. cbn. rewrite lookup_empty. discriminate. }
  split; [exact Hnew|]. split; [exact Hw|].
  rewrite emitEvent_eq, trace_of_mk. unfold emitEvent_effects, listeners_of.
  cbn [listeners_for converts].
  assert (Hinv : forall (g : callback -> value) l,
            filter (fun e => is_console e = false) (map (fun c => Invoke c (g c)) l)
            = map (fun c => Invoke c (g c)) l).
  { intros g l. induction l as [|c l IH]; [reflexivity|].
    cbn [map]. rewrite filter_cons_True by reflexivity. rewrite IH. reflexivity. }
  split.
  - rewrite !filter_app, (Hinv (fun _ => entry (JStr topic) d)).
    destruct (negb _); destruct (eventListeners (this w) !! topic) as [l|];
      cbn [default map app];
      rewrite ?filter_cons_False by (cbn; discriminate);
      rewrite ?(Hinv (fun _ => d)); reflexivity.
  - rewrite !received_app.
    rewrite (received_invokes cb (entry (JStr topic) d)) by exact (proj1 Hw).
    assert (Hc : forall s, received cb [Console LLog s] = []) by reflexivity.
    destruct (negb _); rewrite ?Hc; cbn [app];
      destruct (eventListeners (this w) !! topic) as [l|] eqn:Hl; cbn [default].
    all: try (change (received cb (Console LLog ?s :: ?t)) with (received cb t)).
    all: try rewrite (received_invokes cb d l) by exact (proj2 Hw _ _ Hl).
    all: try rewrite Hc.
    all: try (rewrite bool_decide_eq_false_2 by apply not_elem_of_nil).
    all: reflexivity.
Qed.

Lemma each_listener_is_called_once_witness :
  let w := world_of (run sample_parse
                       [AppOn "*" 1%nat; AppOn "tick" 2%nat; AppOn "tick" 2%nat;
                        AppOn "tick" 1%nat; AppConnect]
                       (fresh_world (Some "token"))) in
  let d := VJson (JNum 1%float) in
  received 1%nat (trace_of (emitEvent (JStr "tick") d w)) = [d; entry (JStr "tick") d]
  /\ filter (fun e => is_console e = false) (trace_of (emitEvent (JStr "tick") d w))
     = [Invoke 2%nat d; Invoke 1%nat d; Invoke 1%nat (entry (JStr "tick") d)].
Proof.
  intros w d.
  assert (H0 : listeners_are_sets (this (fresh_world (Some "token")))).
  { split; [constructor|]. intros t l. cbn. rewrite lookup_empty. discriminate. }
  destruct (each_listener_is_called_once sample_parse
              [AppOn "*" 1%nat; AppOn "tick" 2%nat; AppOn "tick" 2%nat;
               AppOn "tick" 1%nat; AppConnect]
              (fresh_world (Some "token")) "tick" d 1%nat H0) as (_ & _ & H3 & H4).
  split.
  - subst w. rewrite H4. vm_compute. reflexivity.
  - subst w. rewrite H3. vm_compute. reflexivity.
Defined.

(** ** Disconnecting twice *)

(** [disconnect()] on a client with no socket and no pending request. *)
Lemma disconnect_idle w :
  ws (this w) = None ->
  pendingRequests (this w) = ∅ ->
  disconnect w =
  (tt,
   {| this := set_eventBuffer [] (set_connectionPromise None (set_pendingRequests ∅
                (set_authenticated false (set_intentionalDisconnect true (this w)))));
      rt := rt w |},
   []).
Proof.
  intros Hws Hp. unfold disconnect, pending_in_order, mbind, M_bind, bind, upd_this, get.
  cbn [this rt].
  change (ws (set_authenticated false (set_intentionalDisconnect true (this w))))
    with (ws (this w)).
  change (pendingRequests (set_authenticated false (set_intentionalDisconnect true (this w))))
    with (pendingRequests (this w)).
  rewrite Hws, Hp, map_to_list_empty. reflexivity.
Qed.

(** X14. [disconnect()] is idempotent: called again right after
    [disconnect()] it does nothing to the outside (no socket is closed, no
    promise rejected, no timer cleared) and leaves the client and the
    runtime exactly as the first call left them. *)
Theorem disconnect_is_idempotent (w : World) :
  let wd := world_of (disconnect w) in
  disconnect wd = (tt, wd, []).
Proof.
  intros wd. destruct (disconnect_spec w) as (Hc & _).
  fold wd in Hc. clearbody wd. destruct wd as [c r]. cbn [this] in Hc. subst c.
  rewrite disconnect_idle by reflexivity. reflexivity.
Qed.

(** ** Events that do not reach the pending requests *)

(** X15. The table of pending requests changes only through a call, an
    inbound frame, the passing of time and [disconnect()]: a course of
    other events ([connect()], [on], [off], a socket opening, failing or
    closing, the token being stored) leaves it exactly as it is, each
    request with its promise and its timer handle. *)
Theorem lifecycle_leaves_pending_requests
    (JSON_parse : string -> option json) (evs : list event) (w : World) :
  Forall (fun e => reaches_pending e = false) evs ->
  pendingRequests (this (world_of (run JSON_parse evs w))) = pendingRequests (this w).
Proof.
  intros Hevs.
  apply (run_kept_but JSON_parse (fun c => pendingRequests c = pendingRequests (this w))
           reaches_pending evs w); [|exact Hevs|reflexivity].
  intros e w0 He Hw0.
  assert (Hok : ok (fun w1 => pendingRequests (this w1) = pendingRequests (this w))
                  (fun _ => True) (exec JSON_parse e) w0)
    by (apply (exec_kept_apart (fun c => pendingRequests c = pendingRequests (this w)));
        try assumption; intros; assumption).
  exact (proj1 Hok).
Qed.

Lemma lifecycle_leaves_pending_requests_witness :
  let w := sample_busy in
  pendingRequests (this (world_of (run sample_parse
                                     [SockError 0%nat (VHost "Event"); SockClose 0%nat;
                                      AppConnect; SockOpen 1%nat "a2"; AppOn "tick" 4%nat]
                                     w)))
  = pendingRequests (this w).
Proof.
  intros w. apply (lifecycle_leaves_pending_requests sample_parse). repeat constructor.
Defined.

(** ** The instance of the module *)

(** X16. [getGateway()] constructs a client only when there is none: the
    client it returns is the one every later call returns, and a later
    call constructs nothing and logs nothing. After [resetGateway()],
    which disconnects the current client and lets go of it, the next
    [getGateway()] constructs a new one: with no listeners, an empty
    buffer, no pending request and the backoff of a new client, whatever
    was registered on the old one, which keeps its listeners but is no
    longer returned. With no current client [resetGateway()] does
    nothing. *)
Theorem getGateway_after_resetGateway (pg : Page) :
  instance_exists pg ->
  let g1 := getGateway pg in
  let g2 := getGateway g1.1.2 in
  let r := resetGateway g1.1.2 in
  let g3 := getGateway r.1.2 in
  g2 = (g1.1.1, g1.1.2, [])
  /\ gatewayInstance r.1.2 = None
  /\ resetGateway r.1.2 = (tt, r.1.2, [])
  /\ g3.1.1 <> g1.1.1
  /\ client <$> instances g3.1.2 !! g3.1.1 = Some new_GatewayClient
  /\ url <$> instances g3.1.2 !! g3.1.1 = Some (page_url (location pg))
  /\ (forall old, instances g1.1.2 !! g1.1.1 = Some old ->
        exists old',
          instances g3.1.2 !! g1.1.1 = Some old'
          /\ pendingRequests (client old') = ∅
          /\ intentionalDisconnect (client old') = true
          /\ eventListeners (client old') = eventListeners (client old)
          /\ wildcardListeners (client old') = wildcardListeners (client old)
          /\ r.2 = trace_of (disconnect {| this := client old; rt := page_rt g1.1.2 |})).
Proof.
  intros Hex g1 g2 r g3.
  assert (H1 : exists i, gatewayInstance g1.1.2 = Some i /\ g1.1.1 = i
                         /\ (i < length (instances g1.1.2))%nat
                         /\ location g1.1.2 = location pg).
  { subst g1. unfold getGateway. destruct (gatewayInstance pg) as [i|] eqn:Hg.
    - exists i. cbn [fst snd]. auto.
    - eexists. cbn [fst snd gatewayInstance instances location].
      split; [reflexivity|]. split; [reflexivity|]. split; [|reflexivity].
      rewrite length_app. cbn. lia. }
  destruct H1 as (i & Hg1 & Hi & Hlt & Hloc).
  destruct (lookup_lt_is_Some_2 _ _ Hlt) as [inst Hinst].
  assert (H2 : g2 = (g1.1.1, g1.1.2, [])).
  { subst g2. unfold getGateway at 1. rewrite Hg1, Hi. reflexivity. }
  set (rd := disconnect {| this := client inst; rt := page_rt g1.1.2 |}).
  assert (Hr : r = (tt,
                    {| gatewayInstance := None;
                       instances := <[i := {| url := url inst;
                                              client := this (world_of rd) |}]>
                                      (instances g1.1.2);
                       page_rt := rt (world_of rd);
                       location := location g1.1.2 |},
                    trace_of rd)).
  { subst r. unfold resetGateway. rewrite Hg1, Hinst. reflexivity. }
  assert (Hg3 : g3 = (length (instances g1.1.2),
                      {| gatewayInstance := Some (length (instances g1.1.2));
                         instances := <[i := {| url := url inst;
                                                client := this (world_of rd) |}]>
                                        (instances g1.1.2)
                                      ++ [{| url := page_url (location pg);
                                             client := new_GatewayClient |}];
                         page_rt := rt (world_of rd);
                         location := location g1.1.2 |},
                      [Console LLog "[Gateway] WebSocket connection:"])).
  { subst g3. rewrite Hr. unfold getGateway.
    cbn [fst snd gatewayInstance instances page_rt location GatewayClient_url].
    rewrite length_insert, Hloc. reflexivity. }
  split; [exact H2|]. rewrite Hr, Hg3. cbn [fst snd gatewayInstance instances].
  split; [reflexivity|]. split; [reflexivity|]. split; [rewrite Hi; lia|].
  assert (Hlen : length (<[i := {| url := url inst; client := this (world_of rd) |}]>
                           (instances g1.1.2)) = length (instances g1.1.2))
    by apply length_insert.
  split; [|split].
  - rewrite lookup_app_r by lia. rewrite Hlen, Nat.sub_diag. reflexivity.
  - rewrite lookup_app_r by lia. rewrite Hlen, Nat.sub_diag. reflexivity.
  - intros old Hold. rewrite Hi, Hinst in Hold. injection Hold as <-.
    eexists. rewrite Hi, lookup_app_l by lia.
    rewrite list_lookup_insert_eq by exact Hlt. split; [reflexivity|].
    cbn [client]. destruct (disconnect_spec {| this := client inst; rt := page_rt g1.1.2 |})
      as (Hc & _). fold rd in Hc. rewrite Hc. cbn. auto.
Qed.

Lemma getGateway_after_resetGateway_witness :
  let loc := {| protocol := "https:"; host := "example.org" |} in
  let pg := (on_instance 0 (on "*" 1%nat) (getGateway (new_Page loc (Some "token"))).1.2).1.2 in
  let g1 := getGateway pg in
  let g3 := getGateway (resetGateway g1.1.2).1.2 in
  g1.1.1 = 0%nat
  /\ g3.1.1 = 1%nat
  /\ client <$> instances g3.1.2 !! g3.1.1 = Some new_GatewayClient
  /\ url <$> instances g3.1.2 !! g3.1.1 = Some "wss://example.org/ws"
  /\ (wildcardListeners ∘ client) <$> instances g3.1.2 !! 0%nat = Some [1%nat].
Proof.
  intros loc pg g1 g3.
  assert (Hex : instance_exists pg).
  { intros i Hi. vm_compute in Hi. injection Hi as <-. vm_compute. lia. }
  destruct (getGateway_after_resetGateway pg Hex) as (_ & _ & _ & _ & H5 & H6 & _).
  split; [reflexivity|]. split; [vm_compute; reflexivity|].
  split; [exact H5|]. split; [exact H6|]. vm_compute. reflexivity.
Defined.


(** ** Every pending request has its timer *)

Section Backed.

Variable n : Z.
Variable at_time : Z -> Prop.

(** The clock has not passed [n]: what a call needs. *)
Hypothesis at_most : forall t, at_time t -> t <= n.
(** The clock may move on: what a timer needs. *)
Hypothesis later : forall t t', at_time t -> t <= t' -> at_time t'.

Let I : World -> Prop := backed n at_time.
Let any : effect -> Prop := fun _ => True.

Ltac bk_hyps :=
  repeat match goal with
  | H : I _ |- _ => unfold I in H
  | H : backed _ _ _ |- _ =>
      let H1 := fresh "Hb1" in let H2 := fresh "Hb2" in let H3 := fresh "Hb3" in
      let H4 := fresh "Hb4" in
      destruct H as (H1 & H2 & H3 & H4)
  end.

Ltac bk_split :=
  repeat match goal with
  | H : <[_:=_]> _ !! _ = Some _ |- _ =>
      apply lookup_insert_Some in H as [[? ?]|[? ?]]; subst
  | H : delete _ _ !! _ = Some _ |- _ => apply lookup_delete_Some in H as [? ?]
  | H : ∅ !! _ = Some _ |- _ => rewrite lookup_empty in H; discriminate H
  | H : _ ∈ _ ++ _ |- _ => apply elem_of_app in H as [?|?]
  | H : _ ∈ [_] |- _ => apply list_elem_of_singleton in H; subst
  | H : _ ∈ <[_:=_]> _ |- _ => apply elem_of_list_insert in H as [?|?]; subst
  | H : _ ∈ alter _ _ _ |- _ => apply elem_of_list_alter in H as [?|(? & ? & ?)]; subst
  | H : Some _ = Some _ |- _ => injection H as ?; subst
  | H : (_, _) = (_, _) |- _ => injection H as ? ?; subst
  end.

(** The three parts of [backed] for a world written out. *)
Ltac bk_timers Hb1 :=
  let h := fresh "h" in let t := fresh "t" in let Hl := fresh "Hl" in
  intros h t Hl; bk_split;
  try match goal with H : timers _ !! _ = Some _ |- _ => pose proof (Hb1 _ _ H) end;
  lia.

Ltac bk_pending Hb1 Hb2 :=
  let id := fresh "id" in let pr := fresh "pr" in let Hl := fresh "Hl" in
  intros id pr Hl; bk_split;
  first
    [ (* an entry that was there *)
      let due := fresh "due" in let Ht := fresh "Ht" in let Hd := fresh "Hd" in
      match goal with
      | H : pendingRequests _ !! _ = Some _ |- _ => destruct (Hb2 _ _ H) as (due & Ht & Hd)
      end;
      pose proof (Hb1 _ _ Ht);
      exists due; split;
      [ first [ exact Ht | rewrite lookup_insert_ne by lia; exact Ht ] | lia ]
    | (* the entry just made *)
      eexists; split; [cbn [timeout reject]; rewrite lookup_insert_eq; reflexivity|lia] ].

Ltac bk_handshakes Hb3 :=
  let hs := fresh "hs" in let d := fresh "d" in let id := fresh "id" in
  let p := fresh "p" in let Hin := fresh "Hin" in
  intros hs d id p Hin; bk_split;
  first
    [ (* the handshake just begun *)
      cbn [hs_timeout]; split; [lia|rewrite lookup_insert_eq; discriminate]
    | let Hlt := fresh "Hlt" in let Hne := fresh "Hne" in
      match goal with
      | H : _ ∈ _ |- _ => destruct (Hb3 _ d id p H) as [Hlt Hne]
      | H : _ !! _ = Some _ |- _ =>
          destruct (Hb3 _ d id p (list_elem_of_lookup_2 _ _ _ H)) as [Hlt Hne]
      end;
      cbn [hs_timeout] in *; split;
      [ first [exact Hlt | lia]
      | first [ exact Hne
              | rewrite lookup_insert_ne by lia; exact Hne
              | let Hc := fresh in
                intros Hc; apply lookup_delete_Some in Hc as [_ Hc]; exact (Hne Hc) ] ] ].

Ltac bk_norm :=
  unfold world_of, value_of, trace_of in *;
  cbn [fst snd this rt pendingRequests timers next_timer handshakes now
       set_ws set_pendingRequests set_eventListeners set_wildcardListeners
       set_reconnectAttempts set_reconnectDelay set_intentionalDisconnect
       set_connectionPromise set_connectionResolve set_authenticated set_eventBuffer
       set_sockets set_timers set_handshakes set_next_socket set_next_timer
       set_next_promise set_now] in *.

(** The invariant of the world at hand is the one stated last. *)
Ltac bk_try :=
  lazymatch goal with
  | |- Forall _ _ => apply any_trace
  | |- True => exact Logic.I
  | _ =>
      lazymatch goal with
      | H : I _ |- _ =>
          let H1 := fresh "Hb1" in let H2 := fresh "Hb2" in let H3 := fresh "Hb3" in
          let H4 := fresh "Hb4" in
          unfold I in H; destruct H as (H1 & H2 & H3 & H4);
          unfold I, backed, any; bk_norm;
          first
            [ exact Logic.I
            | split_and!;
              [ first [ assumption | bk_timers H1 ]
              | first [ assumption | bk_pending H1 H2 ]
              | first [ assumption | bk_handshakes H3 ]
              | assumption ] ]
      end
  end.

Ltac bk_leaf := first [ solve [bk_try] | idtac ].

(** A step through a handler already dealt with. *)
Ltac bk_at c lem :=
  idtac;
  lazymatch goal with
  | |- ok _ _ ?m _ => head_is m c; apply lem; try assumption; bk_leaf
  end.

Lemma emitEvent_backed e d w : I w -> ok I any (emitEvent e d) w.
Proof.
  intros Hw. unfold ok. rewrite emitEvent_eq, world_of_mk, trace_of_mk.
  split; [|apply any_trace].
  destruct (buffered e); [|destruct w; exact Hw]. bk_leaf.
Qed.

Lemma on_backed topic cb w : I w -> ok I any (on topic cb) w.
Proof.
  intros Hw. unfold on. destruct (String.eqb topic "*").
  - repeat ok_step ltac:(fail); try apply any_trace; bk_leaf.
  - repeat ok_step ltac:(fail).
    destruct (eventListeners _ !! topic); cbn [this eventListeners set_eventListeners];
      try rewrite lookup_insert_eq; try destruct (eventListeners _ !! topic); bk_leaf.
Qed.

Lemma off_backed topic cb w : I w -> ok I any (off topic cb) w.
Proof.
  intros Hw. unfold off. repeat ok_step ltac:(fail).
  all: try destruct (eventListeners _ !! topic); bk_leaf.
Qed.

Lemma ws_send_backed s payload w : I w -> ok I any (ws_send s payload) w.
Proof. intros Hw. unfold ws_send. repeat ok_step ltac:(fail); bk_leaf. Qed.

Lemma set_socket_state_backed s st w : I w -> ok I any (set_socket_state s st) w.
Proof.
  intros Hw. split; [|apply any_trace].
  unfold set_socket_state, upd_rt, world_of. cbn [fst snd this rt].
  destruct (sockets (rt w) !! s) as [sock|] eqn:Es; [|destruct w; exact Hw].
  bk_leaf.
Qed.

Lemma ws_close_backed s w : I w -> ok I any (ws_close s) w.
Proof.
  intros Hw. unfold ws_close. repeat ok_step ltac:(fail); try bk_leaf.
  all: destruct (sockets _ !! s) eqn:Es; bk_leaf.
Qed.

Lemma call_backed id method params w : I w -> ok I any (call id method params) w.
Proof.
  intros Hw. unfold call.
  assert (Hnow : now (rt w) <= n) by (apply at_most, Hw).
  repeat ok_step ltac:(bk_at ws_send ws_send_backed); try bk_leaf.
Qed.

Lemma connect_backed w : I w -> ok I any connect w.
Proof. intros Hw. unfold connect. repeat ok_step ltac:(fail); bk_leaf. Qed.

Lemma rpc_timeout_backed id p w : I w -> ok I any (rpc_timeout id p) w.
Proof. intros Hw. unfold rpc_timeout. repeat ok_step ltac:(fail); bk_leaf. Qed.

Lemma auth_succeeded_backed w : I w -> ok I any auth_succeeded w.
Proof.
  intros Hw. unfold auth_succeeded.
  repeat ok_step ltac:(bk_at emitEvent emitEvent_backed); try bk_leaf.
Qed.

Lemma auth_failed_backed q e w : I w -> ok I any (auth_failed q e) w.
Proof.
  intros Hw. unfold auth_failed.
  repeat ok_step ltac:(first [bk_at emitEvent emitEvent_backed | bk_at ws_close ws_close_backed]);
    try bk_leaf.
Qed.

Lemma settle_handshake_backed i o w : I w -> ok I any (settle_handshake i o) w.
Proof.
  intros Hw. unfold settle_handshake.
  assert (Hupd : forall hs,
            handshakes (rt w) !! i = Some hs ->
            I {| this := this w;
                 rt := set_handshakes
                         (<[i := {| hs_id := hs_id hs; hs_timeout := hs_timeout hs;
                                    hs_listener := hs_listener hs; hs_settled := true;
                                    hs_reject := hs_reject hs |}]> (handshakes (rt w)))
                         (rt w) |}).
  { intros hs Hl. bk_leaf. }
  repeat ok_step ltac:(idtac;
    lazymatch goal with
    | |- ok _ _ ?m _ =>
        first [ head_is m auth_succeeded; apply auth_succeeded_backed
              | head_is m auth_failed; apply auth_failed_backed ];
        apply Hupd; first [assumption|reflexivity]
    end);
    try assumption.
Qed.

Lemma authenticate_backed a q w : I w -> ok I any (authenticate a q) w.
Proof.
  intros Hw. unfold authenticate.
  repeat ok_step ltac:(first [ bk_at auth_failed auth_failed_backed
                             | bk_at settle_handshake settle_handshake_backed
                             | bk_at ws_send ws_send_backed ]);
    first [assumption | bk_leaf].
Qed.

Lemma onopen_backed a q w : I w -> ok I any (onopen a q) w.
Proof.
  intros Hw. unfold onopen.
  repeat ok_step ltac:(bk_at authenticate authenticate_backed); try bk_leaf.
Qed.

Lemma onclose_backed w : I w -> ok I any onclose w.
Proof.
  intros Hw. unfold onclose.
  repeat ok_step ltac:(bk_at emitEvent emitEvent_backed); try bk_leaf.
Qed.

Lemma onerror_backed q e w : I w -> ok I any (onerror q e) w.
Proof.
  intros Hw. unfold onerror.
  repeat ok_step ltac:(bk_at emitEvent emitEvent_backed); try bk_leaf.
Qed.

Lemma fire_backed h w : I w -> ok I any (fire h) w.
Proof.
  intros Hw.
  destruct (timers (rt w) !! h) as [[due task]|] eqn:Ht.
  2: { unfold fire. apply ok_bind; [prim; constructor|prim]. rewrite Ht. apply ok_ret, Hw. }
  assert (Hnow : at_time (Z.max (now (rt w)) due)) by (eapply later; [apply Hw|lia]).
  assert (Hw1 : (forall id p, task <> RpcTimeout id p) ->
                I {| this := this w;
                     rt := set_timers (delete h (timers (rt w)))
                             (set_now (Z.max (now (rt w)) due) (rt w)) |}).
  { intros Htask. bk_hyps. unfold I, backed.
    cbn [this rt pendingRequests timers next_timer handshakes now set_timers set_now].
    split_and!.
    - bk_timers Hb1.
    - intros id' pr' Hl. destruct (Hb2 _ _ Hl) as (due' & Ht' & Hd'). exists due'.
      split; [|exact Hd']. rewrite lookup_delete_ne; [exact Ht'|].
      intros Heq. rewrite <- Heq, Ht in Ht'. injection Ht' as _ Ht'.
      exact (Htask _ _ Ht').
    - bk_handshakes Hb3.
    - exact Hnow. }
  destruct task as [id p| |i].
  - (* the timer of a call: its entry goes with it *)
    unfold ok. rewrite (fire_rpc_timeout h due id p w Ht), world_of_mk, trace_of_mk.
    split; [|apply any_trace]. bk_hyps. unfold I, backed.
    cbn [this rt pendingRequests timers next_timer handshakes now set_pendingRequests
         set_timers set_now].
    split_and!.
    + bk_timers Hb1.
    + intros id' pr' Hl. apply lookup_delete_Some in Hl as [Hne Hl].
      destruct (Hb2 _ _ Hl) as (due' & Ht' & Hd'). exists due'. split; [|exact Hd'].
      rewrite lookup_delete_ne; [exact Ht'|].
      intros Heq. rewrite <- Heq, Ht in Ht'. congruence.
    + bk_handshakes Hb3.
    + exact Hnow.
  - specialize (Hw1 ltac:(discriminate)).
    unfold fire. apply ok_bind; [prim; constructor|prim]. rewrite Ht.
    apply ok_bind; [prim; constructor|prim]. cbn [run_task].
    apply ok_bind_ok; [apply connect_backed; exact Hw1|]. intros Hw2. apply ok_ret, Hw2.
  - specialize (Hw1 ltac:(discriminate)).
    unfold fire. apply ok_bind; [prim; constructor|prim]. rewrite Ht.
    apply ok_bind; [prim; constructor|prim]. cbn [run_task]. unfold auth_timeout.
    apply settle_handshake_backed. exact Hw1.
Qed.


Lemma elapse_backed dt w : I w -> ok I any (elapse dt) w.
Proof.
  intros Hw. unfold elapse.
  apply ok_bind; [prim; constructor|prim].
  apply ok_bind_ok; [apply ok_for_each; [apply fire_backed|exact Hw]|].
  intros Hw'. split; [|apply any_trace].
  assert (Hnow : at_time (now (rt w) + Z.max 0 dt)) by (eapply later; [apply Hw|lia]).
  prim. bk_hyps. unfold I, backed.
  cbn [this rt pendingRequests timers next_timer handshakes now set_now].
  split_and!; assumption.
Qed.

(** [disconnect()] clears timers and arms none; the handshakes and the
    clock are as they were. *)
Lemma disconnect_runtime w :
  let w' := world_of (disconnect w) in
  handshakes (rt w') = handshakes (rt w)
  /\ next_timer (rt w') = next_timer (rt w)
  /\ now (rt w') = now (rt w)
  /\ (forall h t, timers (rt w') !! h = Some t -> timers (rt w) !! h = Some t).
Proof.
  set (K := fun w' : World =>
              handshakes (rt w') = handshakes (rt w)
              /\ next_timer (rt w') = next_timer (rt w)
              /\ now (rt w') = now (rt w)
              /\ (forall h t, timers (rt w') !! h = Some t -> timers (rt w) !! h = Some t)).
  assert (Hloop : forall (l : list (string * PendingRequest)) w',
            K w' ->
            ok K any
              (for_each l (fun kv =>
                 clearTimeout (timeout kv.2) ;;
                 tell [Reject (reject kv.2) (VError (JStr "Connection closed"))])) w').
  { intros l w' Hw'. apply ok_for_each; [|exact Hw'].
    intros kv w2 (H1 & H2 & H3 & H4). unfold ok.
    rewrite clear_then_tell, world_of_mk, trace_of_mk.
    split; [|apply any_trace]. unfold K. cbn [rt handshakes next_timer now timers set_timers].
    split_and!; try assumption.
    intros h t Hl. apply lookup_delete_Some in Hl as [_ Hl]. apply H4, Hl. }
  assert (Hclose : forall s w', K w' -> ok K any (ws_close s) w').
  { intros s w' (H1 & H2 & H3 & H4). unfold ws_close.
    repeat ok_step ltac:(fail); try apply any_trace; unfold K;
      cbn [rt handshakes next_timer now timers set_sockets];
      try destruct (sockets _ !! s); split_and!; assumption. }
  assert (Hw : K w) by (unfold K; split_and!; auto).
  intros w'. subst w'.
  enough (Hok : ok K any disconnect w) by exact (proj1 Hok).
  unfold disconnect.
  repeat ok_step ltac:(first [ apply Hclose; assumption | apply Hloop; assumption ]);
    try assumption.
Qed.

Lemma disconnect_backed w : I w -> ok I any disconnect w.
Proof.
  intros Hw. split; [|apply any_trace].
  destruct (disconnect_spec w) as (Hthis & _ & _).
  destruct (disconnect_runtime w) as (Hhs & Hnt & Hnow & Htm).
  bk_hyps. unfold I, backed. rewrite Hthis, Hhs, Hnt, Hnow. cbn [pendingRequests].
  split_and!.
  - intros h t Hl. apply Htm in Hl. exact (Hb1 _ _ Hl).
  - intros id pr Hl. rewrite lookup_empty in Hl. discriminate Hl.
  - intros hs d id p Hin. destruct (Hb3 _ d id p Hin) as [Hlt Hne].
    split; [exact Hlt|]. intros Hl. apply Htm in Hl. exact (Hne Hl).
  - exact Hb4.
Qed.

Variable JSON_parse : string -> option json.

Lemma handleMessage_backed data w : I w -> ok I any (handleMessage JSON_parse data) w.
Proof.
  intros Hw. unfold ok. split; [|apply any_trace].
  destruct (handleMessage_cases JSON_parse data w)
    as [[-> _]|[(m & ev & _ & _ & _ & ->)|[(m & id' & pr' & _ & _ & _ & Hpr & ->)
                                          |(m & _ & _ & _ & ->)]]].
  - exact Hw.
  - rewrite world_of_mk. apply emitEvent_backed, Hw.
  - rewrite world_of_mk. bk_hyps. unfold I, backed.
    cbn [this rt pendingRequests timers next_timer handshakes now set_pendingRequests
         set_timers].
    split_and!.
    + bk_timers Hb1.
    + intros id pr Hl. apply lookup_delete_Some in Hl as [Hne Hl].
      destruct (Hb2 _ _ Hl) as (due & Ht & Hd). exists due. split; [|exact Hd].
      rewrite lookup_delete_ne; [exact Ht|].
      intros Heq. destruct (Hb2 _ _ Hpr) as (due' & Ht' & _).
      rewrite Heq, Ht in Ht'. congruence.
    + bk_handshakes Hb3.
    + exact Hb4.
  - exact Hw.
Qed.

Lemma handleAuthResponse_backed i data w :
  I w -> ok I any (handleAuthResponse JSON_parse i data) w.
Proof.
  intros Hw. unfold handleAuthResponse.
  assert (Halt : forall (r : Runtime) (c : GatewayClient),
            I {| this := c; rt := r |} ->
            I {| this := c;
                 rt := set_handshakes
                         (alter (fun hs => {| hs_id := hs_id hs; hs_timeout := hs_timeout hs;
                                              hs_listener := None; hs_settled := hs_settled hs;
                                              hs_reject := hs_reject hs |}) i (handshakes r))
                         r |}).
  { intros r c Hrc. bk_leaf. }
  assert (Hclr : forall hs,
            hs ∈ handshakes (rt w) ->
            I {| this := this w;
                 rt := set_timers (delete (hs_timeout hs) (timers (rt w))) (rt w) |}).
  { intros hs Hhs. bk_hyps. unfold I, backed.
    cbn [this rt pendingRequests timers next_timer handshakes now set_timers].
    split_and!.
    - bk_timers Hb1.
    - intros id pr Hl. destruct (Hb2 _ _ Hl) as (due & Ht & Hd). exists due.
      split; [|exact Hd]. rewrite lookup_delete_ne; [exact Ht|].
      intros Heq. destruct (Hb3 hs due id (reject pr) Hhs) as [_ Hne].
      rewrite Heq in Hne. exact (Hne Ht).
    - bk_handshakes Hb3.
    - exact Hb4. }
  repeat ok_step ltac:(idtac;
    lazymatch goal with
    | |- ok _ _ ?m _ =>
        head_is m settle_handshake; apply settle_handshake_backed;
        first [ apply Halt; apply Hclr | apply Hclr ];
        eapply list_elem_of_lookup_2; eassumption
    end);
    try assumption;
    (first [ apply Halt; apply Hclr | apply Hclr ];
     eapply list_elem_of_lookup_2; eassumption).
Qed.

Lemma onmessage_backed s data w : I w -> ok I any (onmessage JSON_parse s data) w.
Proof.
  intros Hw. unfold onmessage.
  apply ok_bind_ok; [apply handleMessage_backed; assumption|]. intros Hw1.
  ok_step ltac:(fail). apply ok_for_each; [|exact Hw1].
  intros i w' Hw'.
  repeat ok_step ltac:(bk_at handleAuthResponse handleAuthResponse_backed); try assumption.
Qed.


Lemma exec_backed e w :
  is_call e = false -> (forall dt, e <> Elapse dt) -> I w -> ok I any (exec JSON_parse e) w.
Proof.
  intros Hc He Hw. destruct e; cbn [exec]; try discriminate Hc.
  - apply ok_bind_ok; [apply connect_backed, Hw|]. intros Hw'. apply ok_ret, Hw'.
  - apply disconnect_backed, Hw.
  - apply on_backed, Hw.
  - apply off_backed, Hw.
  - apply ok_bind; [prim; constructor|prim].
    destruct (sockets (rt w) !! s) as [sock|] eqn:Es; [|apply ok_ret, Hw].
    destruct (ws_readyState sock); try (apply ok_ret, Hw).
    apply ok_bind_ok; [apply set_socket_state_backed, Hw|]. intros Hw'.
    apply onopen_backed, Hw'.
  - apply ok_bind; [prim; constructor|prim].
    destruct (socket_state w s) as [[]|]; try (apply ok_ret, Hw);
      apply onmessage_backed; assumption.
  - apply ok_bind; [prim; constructor|prim].
    destruct (sockets (rt w) !! s) as [sock|]; [|apply ok_ret, Hw].
    destruct (ws_readyState sock); try (apply ok_ret, Hw);
      apply onerror_backed; assumption.
  - apply ok_bind; [prim; constructor|prim].
    destruct (socket_state w s) as [[]|]; try (apply ok_ret, Hw);
      (apply ok_bind_ok; [apply set_socket_state_backed, Hw|]; intros Hw';
       apply onclose_backed, Hw').
  - destruct (He dt eq_refl).
  - split; [|apply any_trace]. prim. bk_hyps. unfold I, backed.
    cbn [this rt pendingRequests timers next_timer handshakes now].
    split_and!; assumption.
Qed.

End Backed.

Lemma backed_weaken n n' (P Q : Z -> Prop) w :
  n <= n' -> Q (now (rt w)) -> backed n P w -> backed n' Q w.
Proof.
  intros Hn HQ (H1 & H2 & H3 & _). split_and!; try assumption.
  intros id pr Hl. destruct (H2 _ _ Hl) as (due & Ht & Hd). exists due. split; [exact Ht|lia].
Qed.

(** With no call among them, events leave the timers of the pending
    requests due by the time they were. *)
Lemma exec_backed_idle JSON_parse n t0 e w :
  is_call e = false ->
  backed n (fun t => t0 <= t) w ->
  backed n (fun t => t0 <= t) (world_of (exec JSON_parse e w)).
Proof.
  intros Hc Hw.
  assert (He : (exists dt, e = Elapse dt) \/ (forall dt, e <> Elapse dt))
    by (destruct e; try (right; discriminate); left; eexists; reflexivity).
  destruct He as [[dt ->]|He].
  - apply (elapse_backed n (fun t => t0 <= t)); [intros; lia|exact Hw].
  - apply (exec_backed n (fun t => t0 <= t)); assumption.
Qed.

Lemma run_backed_idle JSON_parse n t0 evs w :
  Forall (fun e => is_call e = false) evs ->
  backed n (fun t => t0 <= t) w ->
  backed n (fun t => t0 <= t) (world_of (run JSON_parse evs w)).
Proof.
  intros Hevs. revert w. induction Hevs as [|e evs He _ IH]; intros w Hw.
  - exact Hw.
  - rewrite run_cons, world_of_mk. apply IH, exec_backed_idle; assumption.
Qed.

(** Whatever happens, each pending request keeps its timer, due within
    30 seconds of the time it is. *)
Lemma exec_backed_now JSON_parse e w :
  backed (now (rt w)) (fun t => now (rt w) = t) w ->
  let w' := world_of (exec JSON_parse e w) in
  backed (now (rt w')) (fun t => now (rt w') = t) w'.
Proof.
  intros Hw w'. subst w'.
  assert (He : (exists dt, e = Elapse dt) \/ (forall dt, e <> Elapse dt))
    by (destruct e; try (right; discriminate); left; eexists; reflexivity).
  destruct He as [[dt ->]|He].
  - assert (Hw' : backed (now (rt w)) (fun t => now (rt w) <= t) w)
      by (apply (backed_weaken (now (rt w)) _ (fun t => now (rt w) = t)); [lia|lia|exact Hw]).
    apply (elapse_backed _ (fun t => now (rt w) <= t)) with (dt := dt) in Hw';
      [|intros; lia].
    destruct Hw' as [Hw' _]. pose proof Hw' as (_ & _ & _ & Hn).
    eapply backed_weaken; [exact Hn|reflexivity|exact Hw'].
  - assert (Hok : ok (backed (now (rt w)) (fun t => now (rt w) = t)) (fun _ => True)
                     (exec JSON_parse e) w).
    { destruct (is_call e) eqn:Hc.
      - destruct e; try discriminate Hc. cbn [exec].
        apply ok_bind_ok;
          [apply (call_backed _ (fun t => now (rt w) = t)); [intros; lia|exact Hw]|].
        intros Hw'. apply ok_ret, Hw'.
      - apply (exec_backed _ (fun t => now (rt w) = t)); assumption. }
    destruct Hok as [Hw' _]. pose proof Hw' as (_ & _ & _ & Hn).
    rewrite <- Hn. exact Hw'.
Qed.

Lemma run_backed_now JSON_parse evs w :
  backed (now (rt w)) (fun t => now (rt w) = t) w ->
  let w' := world_of (run JSON_parse evs w) in
  backed (now (rt w')) (fun t => now (rt w') = t) w'.
Proof.
  revert w. induction evs as [|e evs IH]; intros w Hw.
  - exact Hw.
  - cbn zeta. rewrite run_cons, world_of_mk. apply IH, exec_backed_now, Hw.
Qed.

Lemma fresh_world_backed token :
  backed (now (rt (fresh_world token))) (fun t => now (rt (fresh_world token)) = t)
    (fresh_world token).
Proof.
  unfold backed, fresh_world, fresh_runtime, new_GatewayClient. cbn.
  split_and!; intros; try reflexivity.
  - rewrite lookup_empty in H. discriminate H.
  - rewrite lookup_empty in H. discriminate H.
  - apply elem_of_nil in H. destruct H.
Qed.

(** X17. In every state the client can reach, each pending request has
    its timer armed: the entry's [timeout] is the handle of a timer that
    rejects the entry's promise and removes the entry's id, due at most
    30 seconds from now. *)
Theorem pending_request_keeps_its_timer
    (JSON_parse : string -> option json) (token : option string) (history : list event)
    (id : string) (pr : PendingRequest) :
  let w := world_of (run JSON_parse history (fresh_world token)) in
  pendingRequests (this w) !! id = Some pr ->
  exists due,
    timers (rt w) !! timeout pr = Some (due, RpcTimeout id (reject pr))
    /\ due <= now (rt w) + 30000.
Proof.
  intros w Hl.
  destruct (run_backed_now JSON_parse history _ (fresh_world_backed token)) as (_ & H2 & _).
  exact (H2 _ _ Hl).
Qed.

Lemma pending_request_keeps_its_timer_witness :
  let w := world_of (run sample_parse
                       [AppOn "*" 1%nat; AppConnect; SockOpen 0%nat "a1";
                        SockMessage 0%nat frame_auth_ok;
                        AppCall "c1" "getBalance" VUndefined; Elapse 5000; SockClose 0%nat]
                       (fresh_world (Some "token"))) in
  exists due,
    timers (rt w) !! 1%nat = Some (due, RpcTimeout "c1" 1%nat)
    /\ due <= now (rt w) + 30000.
Proof.
  intros w.
  apply (pending_request_keeps_its_timer sample_parse (Some "token")
           [AppOn "*" 1%nat; AppConnect; SockOpen 0%nat "a1";
            SockMessage 0%nat frame_auth_ok;
            AppCall "c1" "getBalance" VUndefined; Elapse 5000; SockClose 0%nat]
           "c1" {| resolve := 1%nat; reject := 1%nat; timeout := 1%nat |}).
  vm_compute. reflexivity.
Defined.

(** ** Closures of timers arm no timer *)

Section Unarmed.

Variable Q : gmap timer_handle (Z * timer_task) -> Prop.

Let I : World -> Prop := fun w => Q (timers (rt w)).
Let any : effect -> Prop := fun _ => True.

Ltac un_leaf :=
  first [ solve [ apply any_trace ]
        | solve [ unfold I in *; unfold world_of, value_of, trace_of in *;
                  cbn [fst snd this rt timers set_sockets set_handshakes set_next_socket
                       set_next_promise] in *;
                  first [assumption | exact Logic.I] ]
        | idtac ].

Ltac un_at c lem :=
  idtac;
  lazymatch goal with
  | |- ok _ _ ?m _ => head_is m c; apply lem; try assumption; un_leaf
  end.

Lemma emitEvent_unarmed e d w : I w -> ok I any (emitEvent e d) w.
Proof.
  intros Hw. unfold ok. rewrite emitEvent_eq, world_of_mk, trace_of_mk.
  split; [exact Hw|apply any_trace].
Qed.

Lemma ws_close_unarmed s w : I w -> ok I any (ws_close s) w.
Proof.
  intros Hw. unfold ws_close. repeat ok_step ltac:(fail); try un_leaf.
  all: destruct (sockets _ !! s) eqn:Es; un_leaf.
Qed.

Lemma connect_unarmed w : I w -> ok I any connect w.
Proof. intros Hw. unfold connect. repeat ok_step ltac:(fail); un_leaf. Qed.

Lemma rpc_timeout_unarmed id p w : I w -> ok I any (rpc_timeout id p) w.
Proof. intros Hw. unfold rpc_timeout. repeat ok_step ltac:(fail); un_leaf. Qed.

Lemma auth_succeeded_unarmed w : I w -> ok I any auth_succeeded w.
Proof.
  intros Hw. unfold auth_succeeded.
  repeat ok_step ltac:(un_at emitEvent emitEvent_unarmed); try un_leaf.
Qed.

Lemma auth_failed_unarmed q e w : I w -> ok I any (auth_failed q e) w.
Proof.
  intros Hw. unfold auth_failed.
  repeat ok_step ltac:(first [ un_at emitEvent emitEvent_unarmed
                             | un_at ws_close ws_close_unarmed ]);
    try un_leaf.
Qed.

Lemma settle_handshake_unarmed i o w : I w -> ok I any (settle_handshake i o) w.
Proof.
  intros Hw. unfold settle_handshake.
  repeat ok_step ltac:(first [ un_at auth_succeeded auth_succeeded_unarmed
                             | un_at auth_failed auth_failed_unarmed ]);
    try un_leaf.
Qed.

Lemma run_task_unarmed task w : I w -> ok I any (run_task task) w.
Proof.
  intros Hw. destruct task as [id p| |i]; cbn [run_task].
  - apply rpc_timeout_unarmed, Hw.
  - apply ok_bind_ok; [apply connect_unarmed, Hw|]. intros Hw'. apply ok_ret, Hw'.
  - apply settle_handshake_unarmed, Hw.
Qed.

End Unarmed.

(** A timer that fires is disarmed, and that is all that happens to the
    timers. *)
Lemma fire_timers h w :
  timers (rt (world_of (fire h w))) = delete h (timers (rt w)).
Proof.
  unfold fire. rewrite bind_eq, world_of_mk.
  change (value_of (get w)) with w. change (world_of (get w)) with w.
  destruct (timers (rt w) !! h) as [[due task]|] eqn:Ht.
  - rewrite bind_eq, world_of_mk.
    apply (run_task_unarmed (fun m => m = delete h (timers (rt w)))). reflexivity.
  - rewrite world_of_ret. symmetry. apply delete_id, Ht.
Qed.

Section Due.

Variable n : Z.
Variable t0 : Z.
Variable target : Z.

(** Once the timers named in [l] have fired, no timer that was due is
    left, when [l] names them all. *)
Lemma fire_all_due l w :
  backed n (fun t => t0 <= t) w ->
  (forall h d task, timers (rt w) !! h = Some (d, task) -> d <= target -> h ∈ l) ->
  let w' := world_of (for_each l fire w) in
  backed n (fun t => t0 <= t) w'
  /\ (forall h d task, timers (rt w') !! h = Some (d, task) -> target < d).
Proof.
  revert w. induction l as [|h0 l IH]; intros w Hw Hl w'; subst w'.
  - split; [exact Hw|]. intros h d task Ht.
    destruct (Z_lt_le_dec target d) as [Hd|Hd]; [exact Hd|].
    apply (Hl _ _ _ Ht) in Hd. apply elem_of_nil in Hd. destruct Hd.
  - cbn [for_each]. rewrite bind_eq, world_of_mk.
    apply IH.
    + apply (fire_backed n (fun t => t0 <= t)); [intros; lia|exact Hw].
    + intros h d task Ht Hd. rewrite fire_timers in Ht.
      apply lookup_delete_Some in Ht as [Hne Ht].
      apply (Hl _ _ _ Ht) in Hd. apply elem_of_cons in Hd as [->|Hd]; [congruence|exact Hd].
Qed.

End Due.

(** After a step of time that passes the due time of every pending
    request, none is pending. *)
Lemma elapse_clears n t0 dt w :
  backed n (fun t => t0 <= t) w ->
  n + 30000 <= now (rt w) + Z.max 0 dt ->
  pendingRequests (this (world_of (elapse dt w))) = ∅.
Proof.
  intros Hw Hdt. unfold elapse. rewrite bind_eq, world_of_mk.
  change (value_of (get w)) with w. change (world_of (get w)) with w.
  rewrite bind_eq, world_of_mk.
  destruct (fire_all_due n t0 (now (rt w) + Z.max 0 dt)
              (due_timers (now (rt w) + Z.max 0 dt) w) w Hw) as [(_ & H2 & _) Hleft].
  { intros h d task Ht Hd. eapply due_timers_in; eassumption. }
  unfold upd_rt, world_of. cbn [fst snd this].
  apply map_empty. intros id.
  destruct (pendingRequests _ !! id) as [pr|] eqn:Hl; [|reflexivity].
  destruct (H2 _ _ Hl) as (due & Ht & Hd). apply Hleft in Ht. lia.
Qed.

Lemma exec_clock_any (JSON_parse : string -> option json) e w :
  now (rt (world_of (exec JSON_parse e w))) = now (rt w) + total_elapsed [e].
Proof.
  assert (He : e = AppDisconnect \/ e <> AppDisconnect)
    by (destruct e; try (right; discriminate); left; reflexivity).
  destruct He as [->|Hne]; [|apply exec_clock, Hne].
  cbn [exec total_elapsed foldr]. destruct (disconnect_runtime w) as (_ & _ & Hn & _).
  rewrite Hn. lia.
Qed.

Lemma run_clock (JSON_parse : string -> option json) evs w :
  now (rt (world_of (run JSON_parse evs w))) = now (rt w) + total_elapsed evs.
Proof.
  revert w. induction evs as [|e evs IH]; intros w.
  - cbn. lia.
  - rewrite run_cons, world_of_mk, IH, exec_clock_any, (total_elapsed_cons e evs). lia.
Qed.

Lemma run_snoc (JSON_parse : string -> option json) evs e w :
  world_of (run JSON_parse (evs ++ [e]) w)
  = world_of (exec JSON_parse e (world_of (run JSON_parse evs w))).
Proof.
  revert w. induction evs as [|e' evs IH]; intros w.
  - cbn [app]. rewrite run_cons, world_of_mk. reflexivity.
  - cbn [app]. rewrite !run_cons, !world_of_mk. apply IH.
Qed.

(** X18. From any state the client can reach: when 30 seconds pass and
    no call is made in between, whatever else happens, no request is
    pending at the end. *)
Theorem idle_for_30s_leaves_nothing_pending
    (JSON_parse : string -> option json) (token : option string)
    (history evs : list event) (dt : Z) :
  Forall (fun e => is_call e = false) evs ->
  30000 <= total_elapsed evs + Z.max 0 dt ->
  let w := world_of (run JSON_parse history (fresh_world token)) in
  pendingRequests (this (world_of (run JSON_parse (evs ++ [Elapse dt]) w))) = ∅.
Proof.
  intros Hevs Hdt w. rewrite run_snoc. cbn [exec].
  assert (Hw : backed (now (rt w)) (fun t => now (rt w) <= t) w).
  { apply (backed_weaken (now (rt w)) _ (fun t => now (rt w) = t)); [lia|lia|].
    apply run_backed_now, fresh_world_backed. }
  apply (elapse_clears (now (rt w)) (now (rt w))).
  - apply run_backed_idle; assumption.
  - rewrite run_clock. lia.
Qed.

Lemma idle_for_30s_leaves_nothing_pending_witness :
  pendingRequests
    (this (world_of
       (run sample_parse
          ([Elapse 10000; SockMessage 0%nat frame_event; SockClose 0%nat; Elapse 1000;
            AppConnect; Elapse 18000] ++ [Elapse 1000])
          (world_of (run sample_parse
                       [AppOn "*" 1%nat; AppConnect; SockOpen 0%nat "a1";
                        SockMessage 0%nat frame_auth_ok;
                        AppCall "c1" "getBalance" VUndefined;
                        AppCall "c2" "getPrice" VUndefined]
                       (fresh_world (Some "token"))))))) = ∅.
Proof.
  apply (idle_for_30s_leaves_nothing_pending sample_parse (Some "token")).
  - repeat (constructor; [reflexivity|]). constructor.
  - vm_compute. discriminate.
Defined.
